(** * Texas Hold'em engine: a shallow embedding of the TypeScript sources

    The development follows the source files one module at a time:
    [common/enum.ts] and [common/interface.ts] (data model), [lib/Deck.ts],
    [lib/GameEngine.ts], [lib/PlayerActions.ts], [lib/PokerGame.ts] and
    [lib/MonteCarloSimulation.ts].

    Conventions.
    - JavaScript numbers that hold chip counts, bets and rank values are
      integers in every call path of the engine; they are modelled as [Z].
    - Objects are shared by reference in the source.  A [Player] object is
      identified with its seat, i.e. its index in [gameState.players]; every
      array of players the source derives by [filter], [sort] or [slice]
      is an array of such references and is modelled as a list of seats.
      Mutating a player through any alias is [updPlayer] on the one store.
    - A [throw] is the [Throw] outcome of the [Result] monad.  It carries no
      state: what a function had already mutated when it threw is not part of
      the model.
    - Strings are sequences of bytes (UTF-8); the game log and the console
      output, which no function reads back, are left out.
    - [Math.random] is an oracle: a function handing out the integer the
      source computes with [Math.floor(rng() * (i + 1))]. *)

From Stdlib Require Import ZArith QArith Qround Lqa Ascii String DecimalString.
From Stdlib Require OrderedTypeEx.
From stdpp Require Import base decidable option list numbers strings sorting.

Local Open Scope string_scope.
Local Open Scope Z_scope.

(** ** Outcomes of fallible code *)

Inductive Exn : Type :=
| Error (msg : string)        (* throw new Error(msg) *)
| TypeError (what : string).  (* property read on undefined *)

Inductive Result (A : Type) : Type :=
| Ok (a : A)
| Throw (e : Exn).
Arguments Ok {A} a.
Arguments Throw {A} e.

#[global] Instance Result_ret : MRet Result := fun A a => Ok a.
#[global] Instance Result_bind : MBind Result := fun A B k m =>
  match m with
  | Ok a => k a
  | Throw e => Throw e
  end.

(** [xs.map(f)] where [f] may throw: elements are visited left to right. *)
Fixpoint mapM {A B} (f : A -> Result B) (l : list A) : Result (list B) :=
  match l with
  | [] => Ok []
  | x :: xs => y ← f x; ys ← mapM f xs; Ok (y :: ys)
  end.

(** ** Generic array helpers *)

Section ArrayHelpers.
Context {A : Type}.

(** [Array.prototype.sort(compareFn)]: the engine only sorts with
    consistent comparators, for which the (stable) result is the one
    computed by this insertion sort. *)
Fixpoint insertBy (cmp : A -> A -> Z) (x : A) (l : list A) : list A :=
  match l with
  | [] => [x]
  | y :: ys => if cmp x y <=? 0 then x :: y :: ys else y :: insertBy cmp x ys
  end.

Fixpoint sortBy (cmp : A -> A -> Z) (l : list A) : list A :=
  match l with
  | [] => []
  | x :: xs => insertBy cmp x (sortBy cmp xs)
  end.

(** [arr.findIndex(pred)], with [None] for -1. *)
Fixpoint findIndex (f : A -> bool) (l : list A) : option nat :=
  match l with
  | [] => None
  | x :: xs => if f x then Some 0%nat else S <$> findIndex f xs
  end.

(** Seats of the elements kept by [arr.filter(pred)]. *)
Fixpoint filterIdxFrom (f : A -> bool) (i : nat) (l : list A) : list nat :=
  match l with
  | [] => []
  | x :: xs => if f x then i :: filterIdxFrom f (S i) xs
               else filterIdxFrom f (S i) xs
  end.

Definition filterIdx (f : A -> bool) (l : list A) : list nat :=
  filterIdxFrom f 0 l.

(** [arr.every(pred)] *)
Definition every (f : A -> bool) (l : list A) : bool := forallb f l.
End ArrayHelpers.

(** Template-literal rendering of an integer. *)
Definition numToString (z : Z) : string := NilZero.string_of_int (Z.to_int z).

(** ** common/enum.ts *)

Inductive SuitEnum : Type := SPADES | HEARTS | DIAMONDS | CLUBS.

Inductive RankEnum : Type :=
| R2 | R3 | R4 | R5 | R6 | R7 | R8 | R9 | R10 | J | Q | K | A.

Inductive HandRankEnum : Type :=
| HIGHCARD | ONEPAIR | TWOPAIR | THREEOFAKIND | STRAIGHT | FLUSH
| FULLHOUSE | FOUROFKIND | STRAIGHTFLUSH | ROYALFLUSH.

(** [SHOWDOWN_ROUND] is the member [RoundEnum.SHOWDOWN]; [SHOWDOWN] names the
    function of [GameEngine]. *)
Inductive RoundEnum : Type :=
| PreRoundBetting | PREFLOP | FLOP | TURN | RIVER | CARD_REVEAL | SHOWDOWN_ROUND.

Inductive PlayerActionEnum : Type := Fold | Check | Call | Raise | AllIn.

Inductive PlayerRoleEnum : Type :=
| DEALER | SMALL_BLIND | BIG_BLIND | VIEWER | NO_ROLE.

#[global] Instance SuitEnum_eq_dec : EqDecision SuitEnum.
Proof. solve_decision. Defined.
#[global] Instance RankEnum_eq_dec : EqDecision RankEnum.
Proof. solve_decision. Defined.
#[global] Instance HandRankEnum_eq_dec : EqDecision HandRankEnum.
Proof. solve_decision. Defined.
#[global] Instance RoundEnum_eq_dec : EqDecision RoundEnum.
Proof. solve_decision. Defined.
#[global] Instance PlayerActionEnum_eq_dec : EqDecision PlayerActionEnum.
Proof. solve_decision. Defined.
#[global] Instance PlayerRoleEnum_eq_dec : EqDecision PlayerRoleEnum.
Proof. solve_decision. Defined.

(** The string value of each enum member, as declared in the source. *)
Definition suitStr (s : SuitEnum) : string :=
  match s with
  | SPADES => "SPADES" | HEARTS => "HEARTS"
  | DIAMONDS => "DIAMONDS" | CLUBS => "CLUBS"
  end.

Definition rankStr (r : RankEnum) : string :=
  match r with
  | R2 => "2" | R3 => "3" | R4 => "4" | R5 => "5" | R6 => "6" | R7 => "7"
  | R8 => "8" | R9 => "9" | R10 => "10" | J => "J" | Q => "Q" | K => "K"
  | A => "A"
  end.

Definition allSuits : list SuitEnum := [SPADES; HEARTS; DIAMONDS; CLUBS].
Definition allRanks : list RankEnum :=
  [R2; R3; R4; R5; R6; R7; R8; R9; R10; J; Q; K; A].

(** ** common/interface.ts: cards *)

Record Card : Type := mkCard { rank : RankEnum; suit : SuitEnum }.

#[global] Instance Card_eq_dec : EqDecision Card.
Proof. solve_decision. Defined.

(** [Object.values(SuitEnum).flatMap(suit => Object.values(RankEnum).map(..))] *)
Definition ALL_CARDS : list Card :=
  flat_map (fun s => map (fun r => mkCard r s) allRanks) allSuits.

(** ** lib/Deck.ts: card codes *)

Definition isSameCard (a b : Card) : bool :=
  bool_decide (rank a = rank b) && bool_decide (suit a = suit b).

Definition cardToKey (card : Card) : string :=
  rankStr (rank card) +:+ "-" +:+ suitStr (suit card).

Definition cardToString (card : Card) : string :=
  rankStr (rank card) +:+ suitStr (suit card).

(** [stripPrefix p s] is the rest of [s] after the literal [p], if [s]
    starts with it. *)
Fixpoint stripPrefix (p s : string) : option string :=
  match p with
  | EmptyString => Some s
  | String a p' =>
      match s with
      | EmptyString => None
      | String b s' => if Ascii.eqb a b then stripPrefix p' s' else None
      end
  end.

(** The alternatives of the two capture groups of
    [/^([2-9]|10|J|Q|K|A)(SPADES|HEARTS|DIAMONDS|CLUBS)$/], in the order the
    matcher tries them. *)
Definition rankAlternatives : list string :=
  ["2"; "3"; "4"; "5"; "6"; "7"; "8"; "9"; "10"; "J"; "Q"; "K"; "A"].
Definition suitAlternatives : list string :=
  ["SPADES"; "HEARTS"; "DIAMONDS"; "CLUBS"].

(** Second group followed by [$]: the rest must be one alternative exactly. *)
Definition matchSuitGroup (rest : string) : option string :=
  List.find (fun s => String.eqb s rest) suitAlternatives.

(** Backtracking over the first group: the first alternative after which the
    remainder of the pattern matches. *)
Fixpoint matchRankGroup (alts : list string) (code : string)
  : option (string * string) :=
  match alts with
  | [] => None
  | r :: alts' =>
      match stripPrefix r code with
      | Some rest =>
          match matchSuitGroup rest with
          | Some s => Some (r, s)
          | None => matchRankGroup alts' code
          end
      | None => matchRankGroup alts' code
      end
  end.

(** [regex.exec(code)]: the two captured groups, or [None] for [null]. *)
Definition execCardRegex (code : string) : option (string * string) :=
  matchRankGroup rankAlternatives code.

(** The object literals [rankMap] and [suitMap]. *)
Definition rankMap : list (string * RankEnum) :=
  [("2", R2); ("3", R3); ("4", R4); ("5", R5); ("6", R6); ("7", R7);
   ("8", R8); ("9", R9); ("10", R10); ("J", J); ("Q", Q); ("K", K); ("A", A)].
Definition suitMap : list (string * SuitEnum) :=
  [("SPADES", SPADES); ("HEARTS", HEARTS); ("DIAMONDS", DIAMONDS);
   ("CLUBS", CLUBS)].

Definition recordGet {V} (m : list (string * V)) (k : string) : option V :=
  snd <$> List.find (fun kv => String.eqb (fst kv) k) m.

(** [stringToCard]: [None] is the source's [null].  Both record reads always
    hit a key, because the captured groups are alternatives of the pattern. *)
Definition stringToCard (code : string) : option Card :=
  match execCardRegex code with
  | None => None
  | Some (r, s) =>
      match recordGet rankMap r, recordGet suitMap s with
      | Some rk, Some st => Some (mkCard rk st)
      | _, _ => None
      end
  end.

(** ** lib/GameEngine.ts: hand evaluation *)

(** [handRank] is the source's field [rank] of [EvaluatedHand]; the name is
    taken by [Card]. *)
Record EvaluatedHand : Type :=
  mkEval { handRank : HandRankEnum; tiebreaker : list Z }.

#[global] Instance EvaluatedHand_eq_dec : EqDecision EvaluatedHand.
Proof. solve_decision. Defined.

Definition rankToValue (r : RankEnum) : Z :=
  match r with
  | R2 => 2 | R3 => 3 | R4 => 4 | R5 => 5 | R6 => 6 | R7 => 7 | R8 => 8
  | R9 => 9 | R10 => 10 | J => 11 | Q => 12 | K => 13 | A => 14
  end.

(** Comparator [(a, b) => b - a]. *)
Definition descending (a b : Z) : Z := b - a.

(** [Array.from(new Set(ranks))]: first occurrences, in order. *)
Fixpoint uniqueFrom (seen : list Z) (l : list Z) : list Z :=
  match l with
  | [] => []
  | x :: xs => if bool_decide (x ∈ seen) then uniqueFrom seen xs
               else x :: uniqueFrom (x :: seen) xs
  end.

(** The loop [for (i = 0; i + 4 < u.length; i++)] over the suffixes of [u]. *)
Fixpoint straightRun (u : list Z) : option Z :=
  match u with
  | [] => None
  | x :: rest =>
      match rest !! 3%nat with
      | Some y => if x - y =? 4 then Some x else straightRun rest
      | None => None
      end
  end.

(** Returns [(isSTRAIGHT, HIGHCARD)]. *)
Definition checkSTRAIGHT (ranks : list Z) : bool * Z :=
  let u := sortBy descending (uniqueFrom [] ranks) in
  match straightRun u with
  | Some high => (true, high)
  | None =>
      if every (fun x => bool_decide (x ∈ u)) [14; 5; 4; 3; 2]
      then (true, 5) else (false, 0)
  end.

(** [counts.set(v, (counts.get(v) || 0) + 1)] on an insertion-ordered map. *)
Fixpoint countInto (counts : list (Z * Z)) (v : Z) : list (Z * Z) :=
  match counts with
  | [] => [(v, 1)]
  | (k, c) :: rest =>
      if k =? v then (k, c + 1) :: rest else (k, c) :: countInto rest v
  end.

(** Comparator [(a, b) => b[1] - a[1] || b[0] - a[0]]. *)
Definition byCountThenValue (a b : Z * Z) : Z :=
  if snd b - snd a =? 0 then fst b - fst a else snd b - snd a.

(** [grouped[k]], whose fields are read at once in the source. *)
Definition groupAt (grouped : list (Z * Z)) (k : nat) : Result (Z * Z) :=
  match grouped !! k with
  | Some g => Ok g
  | None => Throw (TypeError "grouped entry is undefined")
  end.

(** The short-circuit test [grouped[0][1] === c0 && grouped[1][1] === c1]. *)
Definition firstTwoCounts (grouped : list (Z * Z)) (c0 c1 : Z) : Result bool :=
  g0 ← groupAt grouped 0;
  if snd g0 =? c0 then g1 ← groupAt grouped 1; Ok (snd g1 =? c1)
  else Ok false.

(** [evaluateFive].  Every caller passes exactly five cards, a combination
    from [getCombinations(cards, 5)]; on five cards no entry read below is
    missing ([evaluateFive_five]).  On other lengths the source may read an
    undefined [grouped] entry, a [TypeError].  With two pairs and no fifth
    card it finds no kicker and stores [undefined] in the tiebreaker; a list
    of numbers cannot hold that value, so the model stops there, with a
    [TypeError] as well. *)
Definition evaluateFive (cards : list Card) : Result EvaluatedHand :=
  let suits := map suit cards in
  let isFLUSH := every (fun s => bool_decide (Some s = head suits)) suits in
  let rankValues := sortBy descending (map (fun c => rankToValue (rank c)) cards) in
  let '(isSTRAIGHT, STRAIGHTHigh) := checkSTRAIGHT rankValues in
  let grouped := sortBy byCountThenValue (foldl countInto [] rankValues) in
  if isSTRAIGHT && isFLUSH then
    Ok (mkEval (if STRAIGHTHigh =? 14 then ROYALFLUSH else STRAIGHTFLUSH)
               [STRAIGHTHigh])
  else
    g0 ← groupAt grouped 0;
    if snd g0 =? 4 then
      g1 ← groupAt grouped 1;
      Ok (mkEval FOUROFKIND [fst g0; fst g1])
    else
      isFull ← firstTwoCounts grouped 3 2;
      if (isFull : bool) then
        g1 ← groupAt grouped 1;
        Ok (mkEval FULLHOUSE [fst g0; fst g1])
      else if isFLUSH then Ok (mkEval FLUSH rankValues)
      else if isSTRAIGHT then Ok (mkEval STRAIGHT [STRAIGHTHigh])
      else if snd g0 =? 3 then
        let kickers :=
          take 2 (List.filter (fun v => negb (v =? fst g0)) rankValues) in
        Ok (mkEval THREEOFAKIND (fst g0 :: kickers))
      else
        isTwoPair ← firstTwoCounts grouped 2 2;
        if (isTwoPair : bool) then
          g1 ← groupAt grouped 1;
          (* [highPair, lowPair] = [g0[0], g1[0]].sort((a, b) => b - a) *)
          let highPair := Z.max (fst g0) (fst g1) in
          let lowPair := Z.min (fst g0) (fst g1) in
          match List.find (fun v => negb (v =? highPair) && negb (v =? lowPair))
                          rankValues with
          | Some kicker => Ok (mkEval TWOPAIR [highPair; lowPair; kicker])
          | None => Throw (TypeError "kicker is undefined")
          end
        else if snd g0 =? 2 then
          let kickers :=
            take 3 (List.filter (fun v => negb (v =? fst g0)) rankValues) in
          Ok (mkEval ONEPAIR (fst g0 :: kickers))
        else Ok (mkEval HIGHCARD rankValues).

Definition hierarchy : list HandRankEnum :=
  [HIGHCARD; ONEPAIR; TWOPAIR; THREEOFAKIND; STRAIGHT; FLUSH; FULLHOUSE;
   FOUROFKIND; STRAIGHTFLUSH; ROYALFLUSH].

(** [arr.indexOf(x)] *)
Definition indexOf (x : HandRankEnum) (l : list HandRankEnum) : Z :=
  match findIndex (fun y => bool_decide (y = x)) l with
  | Some i => Z.of_nat i
  | None => -1
  end.

(** The tiebreaker loop of [compareHands], over the indices of [a].  [None]
    is [NaN], the value of [a[i] - undefined] when [b] is the shorter array. *)
Fixpoint compareTiebreakers (a b : list Z) : option Z :=
  match a with
  | [] => Some 0
  | x :: a' =>
      match b with
      | [] => None
      | y :: b' => if x =? y then compareTiebreakers a' b' else Some (x - y)
      end
  end.

Definition compareHands (a b : EvaluatedHand) : option Z :=
  let diff := indexOf (handRank a) hierarchy - indexOf (handRank b) hierarchy in
  if negb (diff =? 0) then Some diff
  else compareTiebreakers (tiebreaker a) (tiebreaker b).

(** [x > 0] and [x === 0] on a number that may be [NaN]. *)
Definition isPositive (x : option Z) : bool :=
  match x with Some d => 0 <? d | None => false end.
Definition isZero (x : option Z) : bool :=
  match x with Some d => d =? 0 | None => false end.
Definition isNegative (x : option Z) : bool :=
  match x with Some d => d <? 0 | None => false end.

Fixpoint getCombinations {T} (arr : list T) (k : nat) : list (list T) :=
  match k with
  | O => [[]]
  | S k' =>
      match arr with
      | [] => []
      | first :: rest =>
          if (length arr <? k)%nat then []
          else getCombinations rest k
                 ++ map (cons first) (getCombinations rest k')
      end
  end.

Definition NEED_AT_LEAST_FIVE_CARDS : string := "Need at least 5 cards".
Definition DUPLICATE_CARD : string := "Duplicate card detected".
Definition COMMUNITY_CARDS_INVALID_COUNT : string :=
  "Community cards must be between 3 and 5".
Definition NO_SHOWDOWN_PLAYERS : string :=
  "No players are eligible for SHOWDOWN".

(** The duplicate scan of [evaluateBestHand].  An array slot may hold
    [undefined] (the simulator reads past the end of its shuffled array);
    reading [c.rank] of such a slot is a [TypeError]. *)
Fixpoint scanDuplicates (seen : list string) (cards : list (option Card))
  : Result (list Card) :=
  match cards with
  | [] => Ok []
  | None :: _ => Throw (TypeError "card is undefined")
  | Some c :: rest =>
      let key := cardToKey c in
      if bool_decide (key ∈ seen) then Throw (Error DUPLICATE_CARD)
      else cs ← scanDuplicates (key :: seen) rest; Ok (c :: cs)
  end.

(** The loop [for (const combo of ...) { e = evaluateFive(combo); if (!best
    || compareHands(e, best) > 0) best = e }]. *)
Fixpoint bestOf (best : option EvaluatedHand) (combos : list (list Card))
  : Result (option EvaluatedHand) :=
  match combos with
  | [] => Ok best
  | combo :: rest =>
      e ← evaluateFive combo;
      match best with
      | None => bestOf (Some e) rest
      | Some b =>
          if isPositive (compareHands e b) then bestOf (Some e) rest
          else bestOf best rest
      end
  end.

(** With five to seven cards there is at least one combination, so [best] is
    never [null] at the [return]; the last branch is unreachable. *)
Definition evaluateBestHand (cards : list (option Card)) : Result EvaluatedHand :=
  if (length cards <? 5)%nat then Throw (Error NEED_AT_LEAST_FIVE_CARDS)
  else if (7 <? length cards)%nat then
    Throw (Error ("Too many cards (" +:+ numToString (Z.of_nat (length cards))
                  +:+ "); maximum is 7."))
  else
    cs ← scanDuplicates [] cards;
    best ← bestOf None (getCombinations cs 5);
    match best with
    | Some e => Ok e
    | None => Throw (TypeError "best is null")
    end.

(** ** common/interface.ts: players, game state, actions *)

(** [pid] is the source's field [id]; the other fields keep their names. *)
Record Player : Type := mkPlayer {
  pid : string;
  name : string;
  hand : list Card;
  chips : Z;
  currentBet : Z;
  totalBet : Z;
  isFolded : bool;
  role : PlayerRoleEnum;
  hasActed : bool;
  isAllIn : bool
}.

(** [winners] and [tournamentWinner] hold references to players, i.e. seats.
    The optional [tournamentWinner] is [None] while unset, and the optional
    flag [gameEnded] is [false] while unset. *)
Record GameState : Type := mkGameState {
  players : list Player;
  deck : list Card;
  pot : Z;
  communityCards : list Card;
  currentPlayerIndex : nat;
  round : RoundEnum;
  bigBlind : Z;
  smallBlind : Z;
  minBet : Z;
  lastRaise : Z;
  message : string;
  winners : list nat;
  tournamentWinner : option nat;
  gameEnded : bool
}.

(** [actionType] is the source's field [type]. *)
Record Action : Type := mkAction {
  playerId : string;
  actionType : PlayerActionEnum;
  amount : option Z
}.

Record ActionValidation : Type := mkValidation {
  isValid : bool;
  reason : option string;
  allowedActions : list PlayerActionEnum;
  minRaise : option Z;
  callAmount : option Z
}.

(** Field assignments [player.f = v]. *)
Definition setHand (v : list Card) (p : Player) : Player :=
  mkPlayer (pid p) (name p) v (chips p) (currentBet p) (totalBet p)
           (isFolded p) (role p) (hasActed p) (isAllIn p).
Definition setChips (v : Z) (p : Player) : Player :=
  mkPlayer (pid p) (name p) (hand p) v (currentBet p) (totalBet p)
           (isFolded p) (role p) (hasActed p) (isAllIn p).
Definition setCurrentBet (v : Z) (p : Player) : Player :=
  mkPlayer (pid p) (name p) (hand p) (chips p) v (totalBet p)
           (isFolded p) (role p) (hasActed p) (isAllIn p).
Definition setTotalBet (v : Z) (p : Player) : Player :=
  mkPlayer (pid p) (name p) (hand p) (chips p) (currentBet p) v
           (isFolded p) (role p) (hasActed p) (isAllIn p).
Definition setIsFolded (v : bool) (p : Player) : Player :=
  mkPlayer (pid p) (name p) (hand p) (chips p) (currentBet p) (totalBet p)
           v (role p) (hasActed p) (isAllIn p).
Definition setRole (v : PlayerRoleEnum) (p : Player) : Player :=
  mkPlayer (pid p) (name p) (hand p) (chips p) (currentBet p) (totalBet p)
           (isFolded p) v (hasActed p) (isAllIn p).
Definition setHasActed (v : bool) (p : Player) : Player :=
  mkPlayer (pid p) (name p) (hand p) (chips p) (currentBet p) (totalBet p)
           (isFolded p) (role p) v (isAllIn p).
Definition setIsAllIn (v : bool) (p : Player) : Player :=
  mkPlayer (pid p) (name p) (hand p) (chips p) (currentBet p) (totalBet p)
           (isFolded p) (role p) (hasActed p) v.

(** Field assignments [gameState.f = v]. *)
Definition setPlayers (v : list Player) (g : GameState) : GameState :=
  mkGameState v (deck g) (pot g) (communityCards g) (currentPlayerIndex g)
    (round g) (bigBlind g) (smallBlind g) (minBet g) (lastRaise g)
    (message g) (winners g) (tournamentWinner g) (gameEnded g).
Definition setDeck (v : list Card) (g : GameState) : GameState :=
  mkGameState (players g) v (pot g) (communityCards g) (currentPlayerIndex g)
    (round g) (bigBlind g) (smallBlind g) (minBet g) (lastRaise g)
    (message g) (winners g) (tournamentWinner g) (gameEnded g).
Definition setPot (v : Z) (g : GameState) : GameState :=
  mkGameState (players g) (deck g) v (communityCards g) (currentPlayerIndex g)
    (round g) (bigBlind g) (smallBlind g) (minBet g) (lastRaise g)
    (message g) (winners g) (tournamentWinner g) (gameEnded g).
Definition setCommunityCards (v : list Card) (g : GameState) : GameState :=
  mkGameState (players g) (deck g) (pot g) v (currentPlayerIndex g)
    (round g) (bigBlind g) (smallBlind g) (minBet g) (lastRaise g)
    (message g) (winners g) (tournamentWinner g) (gameEnded g).
Definition setCurrentPlayerIndex (v : nat) (g : GameState) : GameState :=
  mkGameState (players g) (deck g) (pot g) (communityCards g) v
    (round g) (bigBlind g) (smallBlind g) (minBet g) (lastRaise g)
    (message g) (winners g) (tournamentWinner g) (gameEnded g).
Definition setRound (v : RoundEnum) (g : GameState) : GameState :=
  mkGameState (players g) (deck g) (pot g) (communityCards g)
    (currentPlayerIndex g) v (bigBlind g) (smallBlind g) (minBet g)
    (lastRaise g) (message g) (winners g) (tournamentWinner g) (gameEnded g).
Definition setMinBet (v : Z) (g : GameState) : GameState :=
  mkGameState (players g) (deck g) (pot g) (communityCards g)
    (currentPlayerIndex g) (round g) (bigBlind g) (smallBlind g) v
    (lastRaise g) (message g) (winners g) (tournamentWinner g) (gameEnded g).
Definition setLastRaise (v : Z) (g : GameState) : GameState :=
  mkGameState (players g) (deck g) (pot g) (communityCards g)
    (currentPlayerIndex g) (round g) (bigBlind g) (smallBlind g) (minBet g)
    v (message g) (winners g) (tournamentWinner g) (gameEnded g).
Definition setMessage (v : string) (g : GameState) : GameState :=
  mkGameState (players g) (deck g) (pot g) (communityCards g)
    (currentPlayerIndex g) (round g) (bigBlind g) (smallBlind g) (minBet g)
    (lastRaise g) v (winners g) (tournamentWinner g) (gameEnded g).
Definition setWinners (v : list nat) (g : GameState) : GameState :=
  mkGameState (players g) (deck g) (pot g) (communityCards g)
    (currentPlayerIndex g) (round g) (bigBlind g) (smallBlind g) (minBet g)
    (lastRaise g) (message g) v (tournamentWinner g) (gameEnded g).
Definition setTournamentWinner (v : option nat) (g : GameState) : GameState :=
  mkGameState (players g) (deck g) (pot g) (communityCards g)
    (currentPlayerIndex g) (round g) (bigBlind g) (smallBlind g) (minBet g)
    (lastRaise g) (message g) (winners g) v (gameEnded g).
Definition setGameEnded (v : bool) (g : GameState) : GameState :=
  mkGameState (players g) (deck g) (pot g) (communityCards g)
    (currentPlayerIndex g) (round g) (bigBlind g) (smallBlind g) (minBet g)
    (lastRaise g) (message g) (winners g) (tournamentWinner g) v.

(** Mutation of the player object at seat [i], seen through every alias. *)
Definition updPlayer (i : nat) (f : Player -> Player) (g : GameState)
  : GameState :=
  setPlayers (alter f i (players g)) g.

(** [gameState.players.forEach(f)] for a callback that mutates its argument
    only. *)
Definition forEachPlayer (f : Player -> Player) (g : GameState) : GameState :=
  setPlayers (map f (players g)) g.

(** The objects behind a list of references. *)
Definition deref (ps : list Player) (seats : list nat) : list (nat * Player) :=
  omap (fun i => (fun p => (i, p)) <$> ps !! i) seats.

(** [Σ player.chips] and [Σ player.currentBet] over all seats. *)
Definition sumChips (ps : list Player) : Z := foldr Z.add 0 (map chips ps).
Definition sumCurrentBets (ps : list Player) : Z :=
  foldr Z.add 0 (map currentBet ps).

Definition initializePlayers (names : list string) : list Player :=
  imap (fun idx nm =>
          mkPlayer (numToString (Z.of_nat idx)) nm [] 1000 0 0 false
            (if (length names =? 2)%nat
             then (if (idx =? 0)%nat then DEALER else BIG_BLIND)
             else if (idx =? 0)%nat then DEALER
             else if (idx =? 1)%nat then SMALL_BLIND
             else if (idx =? 2)%nat then BIG_BLIND
             else NO_ROLE)
            false false)
       names.

(** ** lib/Deck.ts: the deck *)

(** [[cards[i], cards[j]] = [cards[j], cards[i]]] *)
Definition swapAt {T} (l : list T) (i j : nat) : list T :=
  match l !! i, l !! j with
  | Some a, Some b => <[j := a]> (<[i := b]> l)
  | _, _ => l
  end.

(** Fisher-Yates, [for (i = n - 1; i > 0; i--)].  [pick i] stands for the
    random draw of the iteration with index [i]; reducing it modulo [i + 1]
    yields every value [Math.floor(rng() * (i + 1))] can take. *)
Fixpoint shuffleFrom {T} (pick : nat -> nat) (i : nat) (cards : list T)
  : list T :=
  match i with
  | O => cards
  | S i' => shuffleFrom pick i' (swapAt cards i (pick i mod S i)%nat)
  end.

Definition shuffle {T} (pick : nat -> nat) (cards : list T) : list T :=
  shuffleFrom pick (length cards - 1)%nat cards.

(** [dealOne]: the card and the remaining deck. *)
Definition dealOne (cards : list Card) : Result (Card * list Card) :=
  match cards with
  | [] => Throw (Error "No more cards in the deck")
  | c :: rest => Ok (c, rest)
  end.

Definition burnOne (cards : list Card) : Result (Card * list Card) :=
  dealOne cards.

(** One pass of the inner loop of [dealToPlayers] over the given seats. *)
Fixpoint dealRound (seats : list nat) (st : list Card * list Player)
  : Result (list Card * list Player) :=
  match seats with
  | [] => Ok st
  | i :: rest =>
      match snd st !! i with
      | Some p =>
          if (length (hand p) <? 2)%nat then
            '(c, cards') ← dealOne (fst st);
            dealRound rest (cards', alter (fun q => setHand (hand q ++ [c])%list q) i (snd st))
          else dealRound rest st
      | None => dealRound rest st
      end
  end.

(** [dealToPlayers(players)]: the deck and the store after two passes. *)
Definition dealToPlayers (seats : list nat) (st : list Card * list Player)
  : Result (list Card * list Player) :=
  match seats with
  | [] => Ok st
  | _ => st1 ← dealRound seats st; dealRound seats st1
  end.

Definition dealFLOP (cards : list Card) : Result (list Card * list Card) :=
  '(_, d0) ← burnOne cards;
  '(c1, d1) ← dealOne d0;
  '(c2, d2) ← dealOne d1;
  '(c3, d3) ← dealOne d2;
  Ok ([c1; c2; c3], d3).

Definition dealTURN (cards : list Card) : Result (list Card * list Card) :=
  '(_, d0) ← burnOne cards;
  '(c1, d1) ← dealOne d0;
  Ok ([c1], d1).

Definition dealRIVER (cards : list Card) : Result (list Card * list Card) :=
  '(_, d0) ← burnOne cards;
  '(c1, d1) ← dealOne d0;
  Ok ([c1], d1).

(** ** lib/PlayerActions.ts *)

Definition PLAYER_NOT_FOUND : string := "Player not found".
Definition RAISING_NOT_ALLOWED : string := "Raising not allowed".
Definition INVALID_ACTION : string := "Invalid action".

(** [x.includes(a)] *)
Definition includes (a : PlayerActionEnum) (l : list PlayerActionEnum) : bool :=
  bool_decide (a ∈ l).

(** [gameState.players.find((p) => p.id === playerId)]: the object found and,
    for the code that mutates it, its seat. *)
Definition hasId (ident : string) (p : Player) : bool := String.eqb (pid p) ident.
Definition findPlayer (g : GameState) (ident : string) : option Player :=
  List.find (hasId ident) (players g).
Definition findSeat (g : GameState) (ident : string) : option nat :=
  findIndex (hasId ident) (players g).

Definition getHighestCurrentBet (g : GameState) : Z :=
  foldr Z.max 0 (map (fun p => if isFolded p then 0 else currentBet p) (players g)).

Definition getMinimumRaise (g : GameState) : Z :=
  getHighestCurrentBet g + lastRaise g.

Definition getAllowedActions (g : GameState) (player : Player)
  : list PlayerActionEnum :=
  if bool_decide (role player = VIEWER) then []
  else if isAllIn player then [Fold; Check]
  else if chips player =? 0 then [Fold]
  else
    let highestBet := getHighestCurrentBet g in
    let callAmount := Z.max 0 (highestBet - currentBet player) in
    let actions := ([Fold] ++ (if callAmount =? 0 then [Check] else [Call])
                           ++ [AllIn])%list in
    let minRaise := getMinimumRaise g in
    if minRaise <=? chips player + currentBet player then (actions ++ [Raise])%list
    else actions.

Definition validateFold (allowed : list PlayerActionEnum) (callAmount minRaise : Z)
  : ActionValidation :=
  mkValidation (includes Fold allowed) None allowed (Some minRaise) (Some callAmount).

Definition validateCheck (callAmount : Z) (allowed : list PlayerActionEnum)
  (minRaise : Z) : ActionValidation :=
  if 0 <? callAmount then
    mkValidation false (Some "Cannot check when there's a bet to call") allowed
                 (Some minRaise) (Some callAmount)
  else
    mkValidation (includes Check allowed) None allowed (Some minRaise) (Some callAmount).

Definition validateCall (callAmount : Z) (allowed : list PlayerActionEnum)
  (minRaise : Z) : ActionValidation :=
  if callAmount =? 0 then
    mkValidation false (Some "No bet to call") allowed (Some minRaise) (Some callAmount)
  else
    mkValidation (includes Call allowed) None allowed (Some minRaise) (Some callAmount).

(** [!action.amount]: the amount is missing or zero. *)
Definition noAmount (a : option Z) : bool :=
  match a with None => true | Some v => v =? 0 end.
Definition amountOr0 (a : option Z) : Z := default 0 a.

Definition validateRaise (action : Action) (player : Player)
  (allowed : list PlayerActionEnum) (callAmount minRaise : Z) : ActionValidation :=
  if negb (includes Raise allowed) then
    mkValidation false (Some RAISING_NOT_ALLOWED) allowed (Some minRaise) (Some callAmount)
  else if noAmount (amount action) || (amountOr0 (amount action) <? minRaise) then
    mkValidation false (Some ("Raise must be at least " +:+ numToString minRaise))
                 allowed (Some minRaise) (Some callAmount)
  else if chips player + currentBet player <? amountOr0 (amount action) then
    mkValidation false (Some "Raise amount exceeds available chips") allowed
                 (Some minRaise) (Some callAmount)
  else mkValidation true None allowed (Some minRaise) (Some callAmount).

Definition validateAllIn (allowed : list PlayerActionEnum) (callAmount minRaise : Z)
  : ActionValidation :=
  mkValidation (includes AllIn allowed) None allowed (Some minRaise) (Some callAmount).

Definition validatePlayerAction (g : GameState) (action : Action)
  : ActionValidation :=
  match findPlayer g (playerId action) with
  | None => mkValidation false (Some PLAYER_NOT_FOUND) [] None None
  | Some player =>
      if bool_decide (role player = VIEWER) then
        mkValidation false (Some "Viewers cannot perform game actions") [] None None
      else if isFolded player then
        mkValidation false (Some "Player has already folded") [] None None
      else if isAllIn player then
        match actionType action with
        | Fold => mkValidation true None [Fold; Check] (Some 0) (Some 0)
        | Check => mkValidation true None [Fold; Check] (Some 0) (Some 0)
        | _ => mkValidation false (Some "All-in players can only fold or check")
                            [Fold; Check] None None
        end
      else if chips player =? 0 then
        mkValidation false (Some "Player has no chips") [] None None
      else
        let highestBet := getHighestCurrentBet g in
        let callAmount := Z.max 0 (highestBet - currentBet player) in
        let minRaise := getMinimumRaise g in
        let allowed := getAllowedActions g player in
        match actionType action with
        | Fold => validateFold allowed callAmount minRaise
        | Check => validateCheck callAmount allowed minRaise
        | Call => validateCall callAmount allowed minRaise
        | Raise => validateRaise action player allowed callAmount minRaise
        | AllIn => validateAllIn allowed callAmount minRaise
        end
  end.

(** The processors receive the player object found by [find]; here its seat.
    A seat always denotes an object of the store, so the [None] branches
    below are never taken. *)
Definition processFold (g : GameState) (i : nat) : GameState :=
  match players g !! i with
  | None => g
  | Some player =>
      setMessage (name player +:+ " folds")
        (updPlayer i (fun p => setHasActed true (setIsFolded true p)) g)
  end.

Definition processCheck (g : GameState) (i : nat) : GameState :=
  match players g !! i with
  | None => g
  | Some player =>
      setMessage (name player +:+ " checks") (updPlayer i (setHasActed true) g)
  end.

Definition processCall (g : GameState) (i : nat) : GameState :=
  match players g !! i with
  | None => g
  | Some player =>
      let highestBet := getHighestCurrentBet g in
      let callAmount := Z.max 0 (highestBet - currentBet player) in
      let actualCall := Z.min callAmount (chips player) in
      let g1 :=
        updPlayer i (fun p =>
          setHasActed true
            (setTotalBet (totalBet p + actualCall)
               (setCurrentBet (currentBet p + actualCall)
                  (setChips (chips p - actualCall) p)))) g in
      let g2 := setPot (pot g1 + actualCall) g1 in
      if chips player - actualCall =? 0 then
        setMessage (name player +:+ " calls and is all-in")
          (updPlayer i (setIsAllIn true) g2)
      else
        setMessage (name player +:+ " calls " +:+ numToString actualCall) g2
  end.

(** The callback of [forEach] that reopens the action. *)
Definition reopenFor (actorId : string) (p : Player) : Player :=
  if negb (String.eqb (pid p) actorId) && negb (isFolded p) && negb (isAllIn p)
  then setHasActed false p else p.

Definition processRaise (g : GameState) (i : nat) (action : Action) : GameState :=
  match players g !! i with
  | None => g
  | Some player =>
      if noAmount (amount action) then g
      else
        let highestBet := getHighestCurrentBet g in
        let raiseTotal :=
          Z.min (amountOr0 (amount action)) (chips player + currentBet player) in
        let actualRaise := raiseTotal - currentBet player in
        let g1 :=
          updPlayer i (fun p =>
            setHasActed true
              (setTotalBet (totalBet p + actualRaise)
                 (setCurrentBet raiseTotal
                    (setChips (chips p - actualRaise) p)))) g in
        let g2 := setPot (pot g1 + actualRaise) g1 in
        let g3 := setMinBet raiseTotal (setLastRaise (raiseTotal - highestBet) g2) in
        let g4 := forEachPlayer (reopenFor (pid player)) g3 in
        if chips player - actualRaise =? 0 then
          setMessage (name player +:+ " raises to " +:+ numToString raiseTotal
                      +:+ " and is all-in")
            (updPlayer i (setIsAllIn true) g4)
        else
          setMessage (name player +:+ " raises to " +:+ numToString raiseTotal) g4
  end.

Definition processAllIn (g : GameState) (i : nat) : GameState :=
  match players g !! i with
  | None => g
  | Some player =>
      let highestBet := getHighestCurrentBet g in
      let allInAmount := chips player in
      let g1 :=
        updPlayer i (fun p =>
          setHasActed true
            (setIsAllIn true
               (setTotalBet (totalBet p + allInAmount)
                  (setCurrentBet (currentBet p + allInAmount)
                     (setChips 0 p))))) g in
      let g2 := setPot (pot g1 + allInAmount) g1 in
      let newBet := currentBet player + allInAmount in
      let g3 :=
        if highestBet <? newBet then
          forEachPlayer (reopenFor (pid player))
            (setMinBet newBet (setLastRaise (newBet - highestBet) g2))
        else g2 in
      setMessage (name player +:+ " goes all-in with " +:+ numToString allInAmount) g3
  end.

Definition processValidatedAction (g : GameState) (action : Action) : GameState :=
  match findSeat g (playerId action) with
  | None => g
  | Some i =>
      match actionType action with
      | Fold => processFold g i
      | Check => processCheck g i
      | Call => processCall g i
      | Raise => processRaise g i action
      | AllIn => processAllIn g i
      end
  end.

(** *** What a player may do *)

Definition canPlayerPerformAction (g : GameState) (ident : string)
  (t : PlayerActionEnum) : bool :=
  match findPlayer g ident with
  | None => false
  | Some player => includes t (getAllowedActions g player)
  end.

(** The object returned by [getActionRequirements]. *)
Module ActionRequirements.
Record t : Type := mk {
  callAmount : Z;
  minRaise : Z;
  maxRaise : Z;
  allowedActions : list PlayerActionEnum
}.
End ActionRequirements.

Definition getActionRequirements (g : GameState) (ident : string)
  : ActionRequirements.t :=
  match findPlayer g ident with
  | None => ActionRequirements.mk 0 0 0 []
  | Some player =>
      ActionRequirements.mk
        (Z.max 0 (getHighestCurrentBet g - currentBet player))
        (getMinimumRaise g)
        (chips player + currentBet player)
        (getAllowedActions g player)
  end.

(** ** common/interface.ts: pots *)

(** [eligiblePlayers] and [player] are references to player objects. *)
Module Pot.
Record t : Type := mk {
  id : string;
  amount : Z;
  eligiblePlayers : list nat;
  isMainPot : bool;
  maxContribution : Z
}.
Definition addAmount (v : Z) (p : t) : t :=
  mk (id p) (amount p + v) (eligiblePlayers p) (isMainPot p) (maxContribution p).
End Pot.

Module PotDistribution.
Record t : Type := mk {
  player : nat;
  amount : Z;
  potId : string;
  rank : option HandRankEnum
}.
End PotDistribution.

Module PotResult.
Record t : Type := mk {
  distributions : list PotDistribution.t;
  totalDistributed : Z;
  message : string
}.
End PotResult.

(** ** lib/GameEngine.ts: betting rounds *)

Definition BETTING_NOT_COMPLETE : string :=
  "Cannot advance round - betting is not complete".
Definition HAND_COMPLETE_ONE_PLAYER : string :=
  "Hand complete - only one player remaining".
Definition MOVING_TO_FLOP : string := "Moving to FLOP".
Definition MOVING_TO_TURN : string := "Moving to TURN".
Definition MOVING_TO_RIVER : string := "Moving to RIVER".

Definition notViewer (p : Player) : bool := negb (bool_decide (role p = VIEWER)).

Definition isActivePlayer (p : Player) : bool :=
  negb (isFolded p) && ((0 <? chips p) || isAllIn p) && notViewer p.
Definition isPlayerInAction (p : Player) : bool :=
  negb (isFolded p) && negb (isAllIn p) && (0 <? chips p) && notViewer p.
Definition isPlayerInUIAction (p : Player) : bool :=
  negb (isFolded p) && notViewer p.

Definition getActivePlayers (g : GameState) : list nat :=
  filterIdx isActivePlayer (players g).
Definition getPlayersInAction (g : GameState) : list nat :=
  filterIdx isPlayerInAction (players g).
Definition getPlayersInUIAction (g : GameState) : list nat :=
  filterIdx isPlayerInUIAction (players g).

(** The objects of a list of references, without their seats. *)
Definition objects (g : GameState) (seats : list nat) : list Player :=
  map snd (deref (players g) seats).

Definition isBettingRoundComplete (g : GameState) : bool :=
  let activePlayers := objects g (getActivePlayers g) in
  let playersInUIAction := objects g (getPlayersInUIAction g) in
  let playersWhoCanBet := List.filter (fun p => negb (isAllIn p)) activePlayers in
  if (length playersWhoCanBet <=? 1)%nat then
    let nonAllInPlayers :=
      List.filter (fun p => negb (isAllIn p)) playersInUIAction in
    every hasActed nonAllInPlayers
  else if negb (every hasActed playersInUIAction) then false
  else
    let highestBet := getHighestCurrentBet g in
    every (fun p => (currentBet p =? highestBet) || isAllIn p) activePlayers.

Definition resetBettingRound (g : GameState) : GameState :=
  setLastRaise (bigBlind g)
    (setMinBet (bigBlind g) (forEachPlayer (setHasActed false) g)).

Definition collectBets (g : GameState) : GameState :=
  forEachPlayer (setCurrentBet 0) g.

(** The [while (attempts < players.length)] loop of [setPostFLOPFirstPlayer];
    [fuel] is the number of attempts left. *)
Fixpoint firstUnfoldedFrom (ps : list Player) (currentIndex fuel : nat)
  : option nat :=
  match fuel with
  | O => None
  | S fuel' =>
      match ps !! currentIndex with
      | Some p =>
          if negb (isFolded p) && notViewer p then Some currentIndex
          else firstUnfoldedFrom ps ((currentIndex + 1) mod length ps)%nat fuel'
      | None => None
      end
  end.

Definition setPostFLOPFirstPlayer (g : GameState) : GameState :=
  let n := length (players g) in
  match firstUnfoldedFrom (players g) ((currentPlayerIndex g + 1) mod n)%nat n with
  | Some i => setCurrentPlayerIndex i g
  | None => g
  end.

Definition setPREFLOPFirstPlayer (g : GameState) : GameState :=
  match findIndex (fun p => bool_decide (role p = BIG_BLIND)) (players g) with
  | Some bigBlindIndex =>
      setCurrentPlayerIndex ((bigBlindIndex + 1) mod length (players g))%nat g
  | None => g
  end.

(** The [do ... while] loop of [advanceToNextPlayer] and
    [getNextActivePlayerIndex]; [skip] is the loop condition.  [None] is the
    fallback taken once [attempts] reaches the number of players.  [fuel]
    bounds the passes; the loop leaves after at most [players.length] of
    them. *)
Fixpoint seekNextSeat (skip : Player -> bool) (ps : list Player)
  (currentIndex attempts fuel : nat) : Result (option nat) :=
  match fuel with
  | O => Ok None
  | S fuel' =>
      let currentIndex' := ((currentIndex + 1) mod length ps)%nat in
      let attempts' := S attempts in
      if (length ps <=? attempts')%nat then Ok None
      else
        match ps !! currentIndex' with
        | None => Throw (TypeError "player is undefined")
        | Some p =>
            if skip p then seekNextSeat skip ps currentIndex' attempts' fuel'
            else Ok (Some currentIndex')
        end
  end.

Definition foldedOrViewer (p : Player) : bool :=
  isFolded p || bool_decide (role p = VIEWER).

Definition cannotAct (p : Player) : bool :=
  isFolded p || bool_decide (role p = VIEWER)
  || ((chips p =? 0) && negb (isAllIn p)).

Definition advanceToNextPlayer (g : GameState) : Result GameState :=
  found ← seekNextSeat foldedOrViewer (players g) (currentPlayerIndex g) 0
             (S (length (players g)));
  Ok (setCurrentPlayerIndex (default (currentPlayerIndex g) found) g).

Definition getNextActivePlayerIndex (g : GameState) : Result nat :=
  found ← seekNextSeat cannotAct (players g) (currentPlayerIndex g) 0
             (S (length (players g)));
  Ok (default (currentPlayerIndex g) found).

Definition advanceToNextRound (g : GameState) : Result GameState :=
  if negb (isBettingRoundComplete g) then Throw (Error BETTING_NOT_COMPLETE)
  else
    let g1 := resetBettingRound (collectBets g) in
    if (length (getActivePlayers g1) <=? 1)%nat then
      Ok (setMessage HAND_COMPLETE_ONE_PLAYER (setRound SHOWDOWN_ROUND g1))
    else
      match round g1 with
      | PREFLOP =>
          Ok (setPostFLOPFirstPlayer (setMessage MOVING_TO_FLOP (setRound FLOP g1)))
      | FLOP =>
          Ok (setPostFLOPFirstPlayer (setMessage MOVING_TO_TURN (setRound TURN g1)))
      | TURN =>
          Ok (setPostFLOPFirstPlayer (setMessage MOVING_TO_RIVER (setRound RIVER g1)))
      | RIVER =>
          Ok (setMessage "Revealing all cards..." (setRound CARD_REVEAL g1))
      | PreRoundBetting =>
          Throw (Error "Cannot advance from round: PreRoundBetting")
      | CARD_REVEAL => Throw (Error "Cannot advance from round: CARD_REVEAL")
      | SHOWDOWN_ROUND => Throw (Error "Cannot advance from round: SHOWDOWN")
      end.

(** [activePlayers[k].role = r] for a reference taken from a derived array. *)
Definition assignRole (seats : list nat) (k : nat) (r : PlayerRoleEnum)
  (g : GameState) : GameState :=
  match seats !! k with
  | Some i => updPlayer i (setRole r) g
  | None => g
  end.

Definition rotateDealerButton (g : GameState) : GameState :=
  let activePlayers := filterIdx notViewer (players g) in
  let activeCount := length activePlayers in
  if (activeCount <? 2)%nat then g
  else
    let found :=
      findIndex (fun p => bool_decide (role p = DEALER)) (objects g activePlayers) in
    let dealerIndex := ((default 0%nat found + 1) mod activeCount)%nat in
    let g1 :=
      forEachPlayer (fun p => if notViewer p then setRole NO_ROLE p else p) g in
    let g2 := assignRole activePlayers dealerIndex DEALER g1 in
    if (activeCount =? 2)%nat then
      assignRole activePlayers ((dealerIndex + 1) mod activeCount)%nat BIG_BLIND g2
    else
      assignRole activePlayers ((dealerIndex + 2) mod activeCount)%nat BIG_BLIND
        (assignRole activePlayers ((dealerIndex + 1) mod activeCount)%nat
           SMALL_BLIND g2).

(** ** lib/GameEngine.ts: pots *)

(** The body of [for (let i = 0; i < sortedByBet.length; i++)].  [rest] is
    [sortedByBet.slice(i)], each reference with the object it denotes; the
    accumulator is [(currentLevel, potIndex, remainingPot, pots)]. *)
Fixpoint potLevels (i : nat) (rest : list (nat * Player))
  (currentLevel : Z) (potIndex : nat) (remainingPot : Z) (pots : list Pot.t)
  : list Pot.t * Z :=
  match rest with
  | [] => (pots, remainingPot)
  | (_, player) :: rest' =>
      let betLevel := totalBet player in
      if (currentLevel <? betLevel) && (0 <? remainingPot) then
        let calculatedAmount := (betLevel - currentLevel) * Z.of_nat (length rest) in
        let potAmount := Z.min calculatedAmount remainingPot in
        let eligiblePlayers :=
          map fst (List.filter (fun sp => negb (isFolded (snd sp))) rest) in
        if (0 <? potAmount) && (0 <? length eligiblePlayers)%nat then
          potLevels (S i) rest' betLevel (S potIndex) (remainingPot - potAmount)
            (pots ++ [Pot.mk ("pot-" +:+ numToString (Z.of_nat potIndex))
                             potAmount eligiblePlayers (i =? 0)%nat betLevel])
        else potLevels (S i) rest' betLevel potIndex remainingPot pots
      else potLevels (S i) rest' currentLevel potIndex remainingPot pots
  end.

Definition createAllPots (g : GameState) : list Pot.t :=
  let activePlayers := filterIdx (fun p => 0 <? totalBet p) (players g) in
  if (length activePlayers =? 0)%nat || (pot g =? 0) then []
  else
    let sortedByBet :=
      sortBy (fun a b => totalBet (snd a) - totalBet (snd b))
             (deref (players g) activePlayers) in
    let '(pots, remainingPot) := potLevels 0 sortedByBet 0 0 (pot g) [] in
    if (0 <? remainingPot) && (0 <? length pots)%nat then
      alter (Pot.addAmount remainingPot) 0%nat pots
    else pots.

Definition sumPots (pots : list Pot.t) : Z := foldr Z.add 0 (map Pot.amount pots).

(** ** lib/GameEngine.ts: showdown and distribution *)

(** [SHOWDOWN(players, communityCards)]: each winner's reference with its
    evaluation. *)
Definition SHOWDOWN (ps : list (nat * Player)) (community : list Card)
  : Result (list (nat * EvaluatedHand)) :=
  if (length community <? 3)%nat || (5 <? length community)%nat then
    Throw (Error COMMUNITY_CARDS_INVALID_COUNT)
  else
    let contenders := List.filter (fun sp => negb (isFolded (snd sp))) ps in
    if (length contenders =? 0)%nat then Throw (Error NO_SHOWDOWN_PLAYERS)
    else
      results ← mapM (fun sp : nat * Player =>
                        if negb (length (hand (snd sp)) =? 2)%nat then
                          Throw (Error ("Player " +:+ pid (snd sp)
                                        +:+ " does not have exactly 2 hole cards."))
                        else
                          evaluation ← evaluateBestHand
                                         (map Some (hand (snd sp) ++ community));
                          Ok (fst sp, evaluation)) contenders;
      match results with
      | [] => Throw (TypeError "results[0] is undefined")
      | r0 :: others =>
          let bestEval :=
            foldl (fun best r =>
                     if isPositive (compareHands (snd r) best) then snd r else best)
                  (snd r0) others in
          Ok (List.filter (fun r => isZero (compareHands (snd r) bestEval)) results)
      end.

(** The callback of [winners.map((result, index) => ...)]: it credits the
    winners one after the other. *)
Fixpoint payWinners (potId : string) (winnerShare remainder : Z) (index : nat)
  (winners : list (nat * EvaluatedHand)) (g : GameState)
  : GameState * list PotDistribution.t :=
  match winners with
  | [] => (g, [])
  | (seat, evaluation) :: rest =>
      let amount := winnerShare + (if Z.of_nat index <? remainder then 1 else 0) in
      let g1 := updPlayer seat (fun p => setChips (chips p + amount) p) g in
      let '(g2, ds) := payWinners potId winnerShare remainder (S index) rest g1 in
      (g2, PotDistribution.mk seat amount potId (Some (handRank evaluation)) :: ds)
  end.

(** [distributeSinglePot], on whole amounts: [Math.floor(amount / n)] is
    [Z.div] and [amount % n], with the sign of the amount, is [Z.rem]
    ([splitShares_whole] compares them with the arithmetic on rationals
    given further down). *)
Definition distributeSinglePot (g : GameState) (pot : Pot.t)
  : Result (GameState * PotResult.t) :=
  let eligiblePlayers :=
    List.filter (fun sp => negb (isFolded (snd sp)))
                (deref (players g) (Pot.eligiblePlayers pot)) in
  match eligiblePlayers with
  | [] => Ok (g, PotResult.mk [] 0 "No eligible players for pot")
  | [(winner, w)] =>
      Ok (updPlayer winner (fun p => setChips (chips p + Pot.amount pot) p) g,
          PotResult.mk [PotDistribution.mk winner (Pot.amount pot) (Pot.id pot) None]
            (Pot.amount pot)
            (name w +:+ " wins " +:+ numToString (Pot.amount pot)
             +:+ " (uncontested)"))
  | _ =>
      winners ← SHOWDOWN eligiblePlayers (communityCards g);
      let count := Z.of_nat (length winners) in
      let winnerShare := Pot.amount pot / count in
      let remainder := Z.rem (Pot.amount pot) count in
      let '(g1, distributions) :=
        payWinners (Pot.id pot) winnerShare remainder 0 winners g in
      Ok (g1, PotResult.mk distributions (Pot.amount pot)
                ("Pot split between " +:+ numToString count +:+ " player(s)"))
  end.

(** The loop [for (const pot of pots)] with its two accumulators. *)
Fixpoint distributeEach (pots : list Pot.t) (g : GameState)
  (distributions : list PotDistribution.t) (totalDistributed : Z)
  : Result (GameState * list PotDistribution.t * Z) :=
  match pots with
  | [] => Ok (g, distributions, totalDistributed)
  | pot :: rest =>
      '(g1, result) ← distributeSinglePot g pot;
      distributeEach rest g1 (distributions ++ PotResult.distributions result)
        (totalDistributed + PotResult.totalDistributed result)
  end.

Definition distributeAllPots (g : GameState) (pots : list Pot.t)
  : Result (GameState * PotResult.t) :=
  '(g1, distributions, totalDistributed) ← distributeEach pots g [] 0;
  Ok (setPot 0 g1,
      PotResult.mk distributions totalDistributed
        ("Distributed " +:+ numToString totalDistributed +:+ " chips across "
         +:+ numToString (Z.of_nat (length pots)) +:+ " pot(s)")).

(** *** The split on an amount that is not a whole number

    Chip amounts are whole numbers in this embedding ([Z]).  The source
    computes on JS numbers, and neither the action route nor [validateRaise]
    turns away a raise to 40.5, which makes stacks, bets and pots fractional.
    The definitions below follow the arithmetic of the contested branch of
    [distributeSinglePot] line by line on a rational amount:
    [winnerShare = Math.floor(pot.amount / winners.length)],
    [remainder = pot.amount % winners.length] and, for each position,
    [winnerShare + (index < remainder ? 1 : 0)].  [n] is the number of
    winners, which [SHOWDOWN] never returns empty. *)

(** The quotient that [%] removes: rounded towards zero. *)
Definition Qtrunc (x : QArith_base.Q) : Z :=
  if Qle_bool 0 x then Qfloor x else Qceiling x.

(** The amounts credited to the winners at positions [0 .. n-1]. *)
Definition splitShares (amount : QArith_base.Q) (n : nat) : list Z :=
  let count := inject_Z (Z.of_nat n) in
  let winnerShare := Qfloor (Qdiv amount count) in
  let remainder :=
    Qminus amount (Qmult count (inject_Z (Qtrunc (Qdiv amount count)))) in
  map (fun index =>
         winnerShare
         + (if Qlt_le_dec (inject_Z (Z.of_nat index)) remainder then 1 else 0))
      (seq 0 n).

(** ** lib/PokerGame.ts *)

Definition INVALID_PLAYER_COUNT : string := "Game requires 2-10 players".
Definition GAME_INITIALIZED_READY : string :=
  "Game initialized. Ready to start a new hand.".
Definition NEW_HAND_STARTED : string := "New hand started".
Definition BLINDS_POSTED : string := "Blinds posted".
Definition HOLE_CARDS_DEALT : string := "Hole cards dealt".
Definition MIN_PLAYERS : nat := 2.
Definition MAX_PLAYERS : nat := 9.

Record PokerGame : Type := mkPokerGame {
  gameState : GameState;
  handNumber : nat
}.

(** [new Deck(); deck.reset(); deck.shuffle()] *)
Definition freshDeck (pick : nat -> nat) : list Card := shuffle pick ALL_CARDS.

Definition initializeGame (pick : nat -> nat) (ps : list Player) : GameState :=
  let initializedPlayers :=
    imap (fun idx player =>
            mkPlayer (pid player) (name player) [] 1000 0 0 false
              (if (length ps =? 2)%nat
               then (if (idx =? 0)%nat then DEALER else BIG_BLIND)
               else if (idx =? 0)%nat then DEALER
               else if (idx =? 1)%nat then SMALL_BLIND
               else if (idx =? 2)%nat then BIG_BLIND
               else NO_ROLE)
              false false) ps in
  mkGameState initializedPlayers (freshDeck pick) 0 [] 0 PREFLOP 20 10 20 20
    GAME_INITIALIZED_READY [] None false.

(** The constructor. *)
Definition newPokerGame (pick : nat -> nat) (playerNames : list string)
  : Result PokerGame :=
  if (length playerNames <? MIN_PLAYERS)%nat || (MAX_PLAYERS <? length playerNames)%nat
  then Throw (Error INVALID_PLAYER_COUNT)
  else Ok (mkPokerGame (initializeGame pick (initializePlayers playerNames)) 0).

Definition hasTournamentWinner (g : GameState) : bool :=
  let nonViewerPlayers := List.filter notViewer (players g) in
  let playersWithChips := List.filter (fun p => 0 <? chips p) nonViewerPlayers in
  (length playersWithChips =? 1)%nat && (2 <=? length (players g))%nat.

Definition getTournamentWinner (g : GameState) : option nat :=
  if negb (hasTournamentWinner g) then None
  else findIndex (fun p => (0 <? chips p) && notViewer p) (players g).

Definition eliminate (p : Player) : Player :=
  if (chips p =? 0) && notViewer p then setIsFolded true (setRole VIEWER p) else p.

Definition handlePlayerElimination (g : GameState) : GameState :=
  let eliminatedCount :=
    length (List.filter (fun p => (chips p =? 0) && notViewer p) (players g)) in
  let g1 := forEachPlayer eliminate g in
  if (0 <? eliminatedCount)%nat then
    setMessage (if (eliminatedCount =? 1)%nat
                then numToString (Z.of_nat eliminatedCount) +:+ " player eliminated"
                else numToString (Z.of_nat eliminatedCount) +:+ " players eliminated")
               g1
  else g1.

Definition resetForNewHand (p : Player) : Player :=
  setIsAllIn false
    (setHasActed false
       (setIsFolded false (setTotalBet 0 (setCurrentBet 0 (setHand [] p))))).

Definition setupNewHand (cards : list Card) (g : GameState) : GameState :=
  let g1 :=
    setDeck cards
      (setLastRaise (bigBlind g)
         (setMinBet (bigBlind g) (setCommunityCards [] (setPot 0 g)))) in
  let g2 := handlePlayerElimination g1 in
  let g3 := forEachPlayer resetForNewHand g2 in
  setMessage NEW_HAND_STARTED (rotateDealerButton g3).

(** The block that [placeBlinds] runs for the small blind and again for the
    big blind, on the player object found and with the blind to post. *)
Definition postBlind (found : option nat) (blind : Z) (g : GameState) : GameState :=
  match found with
  | None => g
  | Some i =>
      match players g !! i with
      | None => g
      | Some poster =>
          let blindAmount := Z.min (chips poster) blind in
          let g1 :=
            updPlayer i (fun p =>
              setChips (chips p - blindAmount)
                (setTotalBet blindAmount (setCurrentBet blindAmount p))) g in
          let g2 := setPot (pot g1 + blindAmount) g1 in
          if chips poster - blindAmount =? 0 then updPlayer i (setIsAllIn true) g2
          else g2
      end
  end.

Definition placeBlinds (g : GameState) : GameState :=
  let isHeadsUp := (length (players g) =? 2)%nat in
  let smallBlindPlayer :=
    findIndex (fun p => bool_decide (role p = SMALL_BLIND)
                        || (isHeadsUp && bool_decide (role p = DEALER)))
              (players g) in
  let bigBlindPlayer :=
    findIndex (fun p => bool_decide (role p = BIG_BLIND)) (players g) in
  let g1 := postBlind smallBlindPlayer (smallBlind g) g in
  let g2 := postBlind bigBlindPlayer (bigBlind g) g1 in
  setMessage BLINDS_POSTED g2.

(** [dealHoleCards(deck)], for the deck object created by [startNewHand]. *)
Definition dealHoleCards (cards : list Card) (g : GameState) : Result GameState :=
  let activePlayers :=
    filterIdx (fun p => ((0 <? chips p) || (0 <? totalBet p)) && notViewer p)
              (players g) in
  '(cards', ps') ← dealToPlayers activePlayers (cards, players g);
  Ok (setMessage HOLE_CARDS_DEALT (setDeck cards' (setPlayers ps' g))).

Definition winnerName (g : GameState) (w : option nat) : string :=
  match w with
  | Some i => match players g !! i with Some p => name p | None => "undefined" end
  | None => "undefined"
  end.

(** [startNewHand]; [pick] drives the shuffle of the new deck. *)
Definition startNewHand (pick : nat -> nat) (game : PokerGame) : Result PokerGame :=
  let g := gameState game in
  if hasTournamentWinner g then
    let winner := getTournamentWinner g in
    Ok (mkPokerGame
          (setMessage ("🏆 " +:+ winnerName g winner +:+ " wins the tournament! 🏆")
             (setGameEnded true (setTournamentWinner winner g)))
          (handNumber game))
  else
    let cards := freshDeck pick in
    let g1 := setWinners [] g in
    let g2 := setupNewHand cards g1 in
    let g3 := placeBlinds g2 in
    g4 ← dealHoleCards cards g3;
    Ok (mkPokerGame (setPREFLOPFirstPlayer (setRound PREFLOP g4))
                    (S (handNumber game))).

(** [PokerGame.getActivePlayers] *)
Definition getActivePlayersOfGame (g : GameState) : list nat :=
  map fst (List.filter (fun sp => notViewer (snd sp))
                       (deref (players g) (getActivePlayers g))).

Definition shouldHandEndEarly (g : GameState) : bool :=
  (length (getActivePlayersOfGame g) <=? 1)%nat.

(** [handleAutomaticWin]: the state after the call and the value returned,
    [{ winner, message }] or [null]. *)
Definition handleAutomaticWin (g : GameState) : GameState * option (nat * string) :=
  match getActivePlayersOfGame g with
  | [winner] =>
      let text := winnerName g (Some winner) +:+ " wins by default (all others folded)!" in
      (setWinners [winner] (setMessage text (setRound SHOWDOWN_ROUND g)),
       Some (winner, text))
  | [] =>
      (setMessage "Hand ended with no active players" (setRound SHOWDOWN_ROUND g),
       None)
  | _ => (g, None)
  end.

(** [PokerGame.validatePlayerAction] *)
Definition validatePlayerActionOfGame (g : GameState) (action : Action)
  : ActionValidation :=
  if shouldHandEndEarly g then
    mkValidation false (Some "Hand is already complete - only one player remains")
                 [] None None
  else validatePlayerAction g action.

Module ActionResult.
Record t : Type := mk {
  success : bool;
  message : string;
  gameState : GameState
}.
End ActionResult.

(** [validation.reason || GAME_MESSAGES.INVALID_ACTION] *)
Definition reasonOr (r : option string) (fallback : string) : string :=
  match r with
  | Some s => if String.eqb s "" then fallback else s
  | None => fallback
  end.

Definition processAction (g : GameState) (action : Action) : ActionResult.t :=
  match handleAutomaticWin g with
  | (g1, Some (_, text)) => ActionResult.mk true text g1
  | (g1, None) =>
      let validation := validatePlayerActionOfGame g1 action in
      if negb (isValid validation) then
        ActionResult.mk false (reasonOr (reason validation) INVALID_ACTION) g1
      else
        let g2 := processValidatedAction g1 action in
        match actionType action, handleAutomaticWin g2 with
        | Fold, (g3, Some (_, text)) => ActionResult.mk true text g3
        | Fold, (g3, None) => ActionResult.mk true (message g3) g3
        | _, _ => ActionResult.mk true (message g2) g2
        end
  end.

(** [PokerGame.advanceToNextRound] *)
Definition advanceToNextRoundOfGame (g : GameState) : Result GameState :=
  match handleAutomaticWin g with
  | (g1, Some _) => Ok g1
  | (g1, None) => advanceToNextRound g1
  end.

(** *** Community cards *)

Definition FLOP_DEALT : string := "FLOP dealt".
Definition TURN_DEALT : string := "TURN dealt".
Definition RIVER_DEALT : string := "RIVER dealt".

(** [dealCommunityCards(count)], on the deck kept in the game state. *)
Definition dealCommunityCards (count : Z) (g : GameState) : Result GameState :=
  if (count =? 3) && (length (communityCards g) =? 0)%nat then
    '(cards, remaining) ← dealFLOP (deck g);
    Ok (setDeck remaining
          (setMessage FLOP_DEALT
             (setCommunityCards (communityCards g ++ cards)%list g)))
  else if count =? 1 then
    if (length (communityCards g) =? 3)%nat then
      '(cards, remaining) ← dealTURN (deck g);
      Ok (setDeck remaining
            (setMessage TURN_DEALT
               (setCommunityCards (communityCards g ++ cards)%list g)))
    else if (length (communityCards g) =? 4)%nat then
      '(cards, remaining) ← dealRIVER (deck g);
      Ok (setDeck remaining
            (setMessage RIVER_DEALT
               (setCommunityCards (communityCards g ++ cards)%list g)))
    else Ok (setDeck (deck g) g)
  else Ok (setDeck (deck g) g).

(** *** Paying out the hand *)








(** ** lib/MonteCarloSimulation.ts *)

(** Rates and percentages are floating-point numbers in the source; they are
    carried here as exact rationals.  Nothing below depends on their value. *)
Module PredictionResult.
Record HandStrengthResult : Type := mkStrength {
  handRank : HandRankEnum;
  count : nat;
  percentage : QArith_base.Q
}.
Record t : Type := mk {
  winRate : QArith_base.Q;
  tieRate : QArith_base.Q;
  loseRate : QArith_base.Q;
  handStrengths : list HandStrengthResult;
  opponentHandStrengths : list HandStrengthResult;
  totalSimulations : nat
}.
End PredictionResult.

Module MonteCarloSimulation.

Definition SIMULATION_COUNT : nat := Z.to_nat 10000.
Definition PLAYER_EXACTLY_TWO_CARDS : string :=
  "Player must have exactly 2 hole cards".
Definition COMMUNITY_CARDS_3_TO_5 : string :=
  "Community cards must be between 3 and 5 cards".

(** The static [Map<string, PredictionResult>], in insertion order. *)
Definition Cache : Type := list (string * PredictionResult.t).

Definition cacheGet (cache : Cache) (key : string) : option PredictionResult.t :=
  snd <$> List.find (fun kv => String.eqb (fst kv) key) cache.

Fixpoint cacheSet (cache : Cache) (key : string) (v : PredictionResult.t) : Cache :=
  match cache with
  | [] => [(key, v)]
  | (k, w) :: rest =>
      if String.eqb k key then (k, v) :: rest else (k, w) :: cacheSet rest key v
  end.

(** Default [sort()] of strings: by code units. *)
Definition byCodeUnits (a b : string) : Z :=
  match String.compare a b with Lt => -1 | Eq => 0 | Gt => 1 end.

Definition createCacheKey (playerCards communityCards : list Card)
  (numOpponents : Z) : string :=
  let playerKey :=
    String.concat "" (sortBy byCodeUnits (map cardToString playerCards)) in
  let communityKey :=
    String.concat "" (sortBy byCodeUnits (map cardToString communityCards)) in
  playerKey +:+ "-" +:+ communityKey +:+ "-" +:+ numToString numOpponents.

Record SingleResult : Type := mkSingle {
  playerWins : bool;
  isTie : bool;
  playerHand : EvaluatedHand;
  bestOpponentHand : EvaluatedHand
}.

(** Reads [shuffledCards[cardIndex++]] for [n] consecutive indices; a read
    past the end is [undefined]. *)
Definition draw (shuffledCards : list Card) (cardIndex n : nat)
  : list (option Card) :=
  map (fun k => shuffledCards !! k) (seq cardIndex n).

(** The loop that deals [numOpponents] hands of two cards. *)
Fixpoint dealOpponents (shuffledCards : list Card) (cardIndex n : nat)
  : list (list (option Card)) :=
  match n with
  | O => []
  | S n' =>
      [shuffledCards !! cardIndex; shuffledCards !! S cardIndex]
        :: dealOpponents shuffledCards (S (S cardIndex)) n'
  end.

(** [pick] drives [shuffleArray].  With no opponent, [bestOpponentHand] is
    [undefined] and [compareHands] fails on reading its [rank]. *)
Definition runSingleSimulation (pick : nat -> nat)
  (playerCards communityCards availableCards : list Card) (numOpponents : Z)
  : Result SingleResult :=
  let shuffledCards := shuffle pick availableCards in
  let missing := (5 - length communityCards)%nat in
  let finalCommunityCards :=
    (map Some communityCards ++ draw shuffledCards 0 missing)%list in
  let opponentHands :=
    dealOpponents shuffledCards missing (Z.to_nat numOpponents) in
  playerHand ← evaluateBestHand (map Some playerCards ++ finalCommunityCards);
  opponentEvaluations ←
    mapM (fun opponentCards => evaluateBestHand (opponentCards ++ finalCommunityCards))
         opponentHands;
  match opponentEvaluations with
  | [] => Throw (TypeError "b is undefined")
  | first :: others =>
      let bestOpponentHand :=
        foldl (fun best e => if isPositive (compareHands e best) then e else best)
              first others in
      let comparison := compareHands playerHand bestOpponentHand in
      Ok (mkSingle (isPositive comparison) (isZero comparison)
                   playerHand bestOpponentHand)
  end.

(** The counters [{ HIGHCARD: 0, ..., ROYALFLUSH: 0 }], in key order. *)
Definition Tally : Type := list (HandRankEnum * nat).
Definition emptyTally : Tally := map (fun r => (r, 0%nat)) hierarchy.
Definition bump (r : HandRankEnum) (t : Tally) : Tally :=
  map (fun kv => if bool_decide (fst kv = r) then (fst kv, S (snd kv)) else kv) t.

Definition ratio (n total : nat) : QArith_base.Q :=
  Qmult (Qdiv (inject_Z (Z.of_nat n)) (inject_Z (Z.of_nat total))) (inject_Z 100).

(** Comparator [(a, b) => b.percentage - a.percentage], by its sign. *)
Definition byPercentage (a b : PredictionResult.HandStrengthResult) : Z :=
  match Qcompare (PredictionResult.percentage b) (PredictionResult.percentage a) with
  | Lt => -1 | Eq => 0 | Gt => 1
  end.

Definition convertToHandStrengthResults (t : Tally)
  : list PredictionResult.HandStrengthResult :=
  let total := foldl (fun sum kv => (sum + snd kv)%nat) 0%nat t in
  sortBy byPercentage
    (List.filter (fun r => (0 <? PredictionResult.count r)%nat)
       (map (fun kv =>
               PredictionResult.mkStrength (fst kv) (snd kv)
                 (if (0 <? total)%nat then ratio (snd kv) total else inject_Z 0))
            t)).

Record Counters : Type := mkCounters {
  wins : nat;
  ties : nat;
  losses : nat;
  playerHandStrengths : Tally;
  opponentHandStrengths : Tally
}.

Definition track (c : Counters) (r : SingleResult) : Counters :=
  mkCounters
    (if playerWins r then S (wins c) else wins c)
    (if playerWins r then ties c else if isTie r then S (ties c) else ties c)
    (if playerWins r then losses c else if isTie r then losses c else S (losses c))
    (bump (handRank (playerHand r)) (playerHandStrengths c))
    (bump (handRank (bestOpponentHand r)) (opponentHandStrengths c)).

(** The loop [for (let i = 0; i < SIMULATION_COUNT; i++)], with [n] trials
    left; [rand i] drives the shuffle of trial [i]. *)
Fixpoint trials (rand : nat -> nat -> nat) (n i : nat)
  (playerCards communityCards availableCards : list Card) (numOpponents : Z)
  (c : Counters) : Result Counters :=
  match n with
  | O => Ok c
  | S n' =>
      r ← runSingleSimulation (rand i) playerCards communityCards availableCards
                              numOpponents;
      trials rand n' (S i) playerCards communityCards availableCards numOpponents
             (track c r)
  end.

Definition runSimulationSync (rand : nat -> nat -> nat)
  (playerCards communityCards availableCards : list Card) (numOpponents : Z)
  : Result PredictionResult.t :=
  c ← trials rand SIMULATION_COUNT 0 playerCards communityCards availableCards
             numOpponents (mkCounters 0 0 0 emptyTally emptyTally);
  Ok (PredictionResult.mk
        (ratio (wins c) SIMULATION_COUNT)
        (ratio (ties c) SIMULATION_COUNT)
        (ratio (losses c) SIMULATION_COUNT)
        (convertToHandStrengthResults (playerHandStrengths c))
        (convertToHandStrengthResults (opponentHandStrengths c))
        SIMULATION_COUNT).

(** [runSimulation]: the result and the cache it leaves behind. *)
Definition runSimulation (cache : Cache) (rand : nat -> nat -> nat)
  (playerCards communityCards : list Card) (numOpponents : Z)
  : Result (PredictionResult.t * Cache) :=
  if negb (length playerCards =? 2)%nat then Throw (Error PLAYER_EXACTLY_TWO_CARDS)
  else if (length communityCards <? 3)%nat || (5 <? length communityCards)%nat then
    Throw (Error COMMUNITY_CARDS_3_TO_5)
  else
    let cacheKey := createCacheKey playerCards communityCards numOpponents in
    match cacheGet cache cacheKey with
    | Some cached => Ok (cached, cache)
    | None =>
        let usedCards := map cardToKey (playerCards ++ communityCards) in
        let availableCards :=
          List.filter (fun card => negb (bool_decide (cardToKey card ∈ usedCards)))
                      ALL_CARDS in
        result ← runSimulationSync rand playerCards communityCards availableCards
                                   numOpponents;
        let cache1 := cacheSet cache cacheKey result in
        Ok (result, if (100 <? length cache1)%nat then tail cache1 else cache1)
    end.

End MonteCarloSimulation.

(** * Vocabulary of the statements

    Quantities, predicates and sample states the properties below are
    stated with. *)

(** The part of [evaluateFive] after the bindings of [isFLUSH] and
    [rankValues]. *)
Definition classifyFive (isFLUSH : bool) (rankValues : list Z)
  : Result EvaluatedHand :=
  let '(isSTRAIGHT, STRAIGHTHigh) := checkSTRAIGHT rankValues in
  let grouped := sortBy byCountThenValue (foldl countInto [] rankValues) in
  if isSTRAIGHT && isFLUSH then
    Ok (mkEval (if STRAIGHTHigh =? 14 then ROYALFLUSH else STRAIGHTFLUSH)
               [STRAIGHTHigh])
  else
    g0 ← groupAt grouped 0;
    if snd g0 =? 4 then
      g1 ← groupAt grouped 1;
      Ok (mkEval FOUROFKIND [fst g0; fst g1])
    else
      isFull ← firstTwoCounts grouped 3 2;
      if (isFull : bool) then
        g1 ← groupAt grouped 1;
        Ok (mkEval FULLHOUSE [fst g0; fst g1])
      else if isFLUSH then Ok (mkEval FLUSH rankValues)
      else if isSTRAIGHT then Ok (mkEval STRAIGHT [STRAIGHTHigh])
      else if snd g0 =? 3 then
        let kickers :=
          take 2 (List.filter (fun v => negb (v =? fst g0)) rankValues) in
        Ok (mkEval THREEOFAKIND (fst g0 :: kickers))
      else
        isTwoPair ← firstTwoCounts grouped 2 2;
        if (isTwoPair : bool) then
          g1 ← groupAt grouped 1;
          let highPair := Z.max (fst g0) (fst g1) in
          let lowPair := Z.min (fst g0) (fst g1) in
          match List.find (fun v => negb (v =? highPair) && negb (v =? lowPair))
                          rankValues with
          | Some kicker => Ok (mkEval TWOPAIR [highPair; lowPair; kicker])
          | None => Throw (TypeError "kicker is undefined")
          end
        else if snd g0 =? 2 then
          let kickers :=
            take 3 (List.filter (fun v => negb (v =? fst g0)) rankValues) in
          Ok (mkEval ONEPAIR (fst g0 :: kickers))
        else Ok (mkEval HIGHCARD rankValues).

(** The value [evaluateFive] binds to [isFLUSH]. *)
Definition isFlushHand (cards : list Card) : bool :=
  every (fun s => bool_decide (Some s = head (map suit cards))) (map suit cards).

(** The value [evaluateFive] binds to [rankValues], from the ranks of the
    cards. *)
Definition rankValuesOf (ranks : list RankEnum) : list Z :=
  sortBy descending (map rankToValue ranks).

(** All cards of one suit. *)
Definition sameSuit (cards : list Card) : Prop :=
  exists s, Forall (fun c => suit c = s) cards.

(** The chips a hand is played for: the pot and every stack. *)
Definition chipsInPlay (g : GameState) : Z := pot g + sumChips (players g).

(** The quantity [pot + Σ chips + Σ currentBet]. *)
Definition potStacksAndBets (g : GameState) : Z :=
  pot g + sumChips (players g) + sumCurrentBets (players g).

(** A heads-up table right after the blinds: seat 0 posted the big blind of
    20, seat 1 (the button) the small blind of 10. *)
Definition headsUpAfterBlinds : GameState :=
  mkGameState
    [mkPlayer "0" "Alice" [mkCard A SPADES; mkCard K SPADES] 980 20 20 false
              BIG_BLIND false false;
     mkPlayer "1" "Bob" [mkCard R7 HEARTS; mkCard R7 CLUBS] 990 10 10 false
              DEALER false false]
    [] 30 [] 1 PREFLOP 20 10 20 20 BLINDS_POSTED [] None false.

(** The same table after the button has called and the big blind checked. *)
Definition headsUpCalled : GameState :=
  processCheck (processCall headsUpAfterBlinds 1) 0.

(** The heads-up table once seat 0 has folded through [processAction]. *)
Definition headsUpFolded : GameState :=
  ActionResult.gameState (processAction headsUpAfterBlinds (mkAction "0" Fold None)).

(** Three seats, the third one out of chips after the previous hand. *)
Definition threeSeatsOneBusted : PokerGame :=
  mkPokerGame
    (mkGameState
       [mkPlayer "0" "Alice" [] 1500 0 0 false DEALER false false;
        mkPlayer "1" "Bob" [] 1500 0 0 false SMALL_BLIND false false;
        mkPlayer "2" "Carol" [] 0 0 0 false BIG_BLIND false true]
       [] 0 [] 0 SHOWDOWN_ROUND 20 10 20 20 "Hand complete" [] None false)
    1.

(** Scenario D: contributions 100, 200 and 300, nobody folded. *)
Definition scenarioD : GameState :=
  mkGameState
    [mkPlayer "A" "A" [] 900 0 100 false DEALER true true;
     mkPlayer "B" "B" [] 800 0 200 false SMALL_BLIND true true;
     mkPlayer "C" "C" [] 700 0 300 false BIG_BLIND true false]
    [] 600 [] 0 RIVER 20 10 20 20 "" [] None false.

(** Three-handed, right after the blinds: the button has put nothing in. *)
Definition threeHandedAfterBlinds : GameState :=
  mkGameState
    [mkPlayer "0" "Alice" [mkCard A SPADES; mkCard K SPADES] 1000 0 0 false
              DEALER false false;
     mkPlayer "1" "Bob" [mkCard R7 HEARTS; mkCard R7 CLUBS] 990 10 10 false
              SMALL_BLIND false false;
     mkPlayer "2" "Carol" [mkCard Q HEARTS; mkCard J HEARTS] 980 20 20 false
              BIG_BLIND false false]
    [] 30 [] 0 PREFLOP 20 10 20 20 BLINDS_POSTED [] None false.

(** Both blinds then fold, through [processAction], to the button. *)
Definition blindsFolded : GameState :=
  ActionResult.gameState
    (processAction
       (ActionResult.gameState
          (processAction threeHandedAfterBlinds (mkAction "1" Fold None)))
       (mkAction "2" Fold None)).


(** The number of cards counted in the map [counts] of [evaluateFive]. *)
Definition sumCounts (counts : list (Z * Z)) : Z := foldr Z.add 0 (map snd counts).

(** What [SHOWDOWN] needs in order not to throw. *)
Definition showdownReady (community : list Card) (ps : list (nat * Player)) : Prop :=
  (3 <= length community <= 5)%nat /\
  Forall (fun sp => length (hand (snd sp)) = 2%nat /\
                    NoDup (hand (snd sp) ++ community)) ps.

(** The local [eligiblePlayers] of [distributeSinglePot]. *)
Definition liveEligible (g : GameState) (pot : Pot.t) : list (nat * Player) :=
  List.filter (fun sp => negb (isFolded (snd sp)))
              (deref (players g) (Pot.eligiblePlayers pot)).

(** A pot that can be paid out: a non-negative amount, someone to pay, and
    for a contested pot a showdown that can be held. *)
Definition potReady (g : GameState) (pot : Pot.t) : Prop :=
  0 <= Pot.amount pot /\
  liveEligible g pot <> [] /\
  ((2 <= length (liveEligible g pot))%nat ->
   showdownReady (communityCards g) (liveEligible g pot)).

(** The chips handed out by a list of distributions. *)
Definition sumAwards (ds : list PotDistribution.t) : Z :=
  foldr Z.add 0 (map PotDistribution.amount ds).

(** The sum of a list of whole amounts. *)
Definition sumZ (l : list Z) : Z := foldr Z.add 0 l.

(** The chips that a list of distributions awards to the player at seat [i]. *)
Definition awardedTo (i : nat) (ds : list PotDistribution.t) : Z :=
  sumAwards (List.filter (fun d => bool_decide (PotDistribution.player d = i)) ds).

(** The pots of a list that have someone to pay: at least one eligible player
    who has not folded. *)
Definition livePots (g : GameState) (pots : list Pot.t) : list Pot.t :=
  List.filter (fun pot => negb (length (liveEligible g pot) =? 0)%nat) pots.

(** Two states that differ in chip counts only. *)
Definition sameTable (g g' : GameState) : Prop :=
  communityCards g' = communityCards g /\
  Forall2 (fun p p' => isFolded p' = isFolded p /\ hand p' = hand p)
          (players g) (players g').

(** The awards of a split pot, as the specification words them: every winner
    gets the even share, and the winners at the first [remainder] positions
    one chip more. *)
Fixpoint splitAwards (potId : string) (share remainder : Z) (index : nat)
  (winners : list (nat * EvaluatedHand)) : list PotDistribution.t :=
  match winners with
  | [] => []
  | (seat, evaluation) :: rest =>
      PotDistribution.mk seat
        (share + (if Z.of_nat index <? remainder then 1 else 0)) potId
        (Some (handRank evaluation))
      :: splitAwards potId share remainder (S index) rest
  end.

(** What a fair pay-out of one pot looks like. *)
Definition paidFairly (g : GameState) (pot : Pot.t) (ds : list PotDistribution.t)
  : Prop :=
  sumAwards ds = Pot.amount pot /\
  (forall d, d ∈ ds ->
             PotDistribution.potId d = Pot.id pot /\
             PotDistribution.player d ∈ map fst (liveEligible g pot)) /\
  (forall d1 d2, d1 ∈ ds -> d2 ∈ ds ->
                 -1 <= PotDistribution.amount d1 - PotDistribution.amount d2 <= 1) /\
  (forall w p, liveEligible g pot = [(w, p)] ->
               ds = [PotDistribution.mk w (Pot.amount pot) (Pot.id pot) None]) /\
  ((2 <= length (liveEligible g pot))%nat ->
   exists winners,
     SHOWDOWN (liveEligible g pot) (communityCards g) = Ok winners /\
     ds = splitAwards (Pot.id pot)
            (Pot.amount pot / Z.of_nat (length winners))
            (Z.rem (Pot.amount pot) (Z.of_nat (length winners))) 0 winners).

(** How one pot is settled: skipped when nobody can be paid, paid out fairly
    otherwise. *)
Definition settled (g : GameState) (pot : Pot.t) (ds : list PotDistribution.t)
  : Prop :=
  (liveEligible g pot = [] -> ds = []) /\
  (liveEligible g pot <> [] -> paidFairly g pot ds).

(** A pot whose eligible players have all folded, and a contested pot before
    the flop. *)
Definition orphanPot : Pot.t := Pot.mk "pot-0" 30 [1; 2]%nat true 20.
Definition preflopPot : Pot.t := Pot.mk "pot-0" 40 [0; 1]%nat true 20.

(** A river with a short all-in: Alice put in 100 and is all-in, Bob and
    Carol put in 250 each, and Carol folded. *)
Definition riverShowdown : GameState :=
  mkGameState
    [mkPlayer "0" "Alice" [mkCard A SPADES; mkCard K SPADES] 0 0 100 false
              DEALER true true;
     mkPlayer "1" "Bob" [mkCard R7 HEARTS; mkCard R7 CLUBS] 750 0 250 false
              SMALL_BLIND true false;
     mkPlayer "2" "Carol" [mkCard Q HEARTS; mkCard J HEARTS] 750 0 250 true
              BIG_BLIND true false]
    [] 600
    [mkCard R2 CLUBS; mkCard R7 DIAMONDS; mkCard R9 HEARTS; mkCard K DIAMONDS;
     mkCard R3 SPADES]
    0 CARD_REVEAL 20 10 20 20 "Revealing all cards..." [] None false.

(** The transposition of the indices [i] and [j]. *)
Definition transpose (i j k : nat) : nat :=
  if decide (k = j) then i else if decide (k = i) then j else k.

(** The value [runSimulation] binds to [availableCards]. *)
Definition unusedCards (used : list Card) : list Card :=
  List.filter (fun card => negb (bool_decide (cardToKey card ∈ map cardToKey used)))
              ALL_CARDS.

(** The input contract on the cards: two hole cards, three to five community
    cards, no card twice. *)
Definition cardsInContract (playerCards communityCards : list Card) : Prop :=
  length playerCards = 2%nat /\
  (3 <= length communityCards <= 5)%nat /\
  NoDup (playerCards ++ communityCards).

(** The two errors of the input validation of [runSimulation]. *)
Definition isValidationError (e : Exn) : bool :=
  match e with
  | Error msg =>
      String.eqb msg MonteCarloSimulation.PLAYER_EXACTLY_TWO_CARDS
      || String.eqb msg MonteCarloSimulation.COMMUNITY_CARDS_3_TO_5
  | TypeError _ => false
  end.

(** Scenario E: a pair of aces on a flop of 2, 7, 9. *)
Definition pocketAces : list Card := [mkCard A SPADES; mkCard A HEARTS].
Definition dryFlop : list Card :=
  [mkCard R2 CLUBS; mkCard R7 DIAMONDS; mkCard R9 HEARTS].

(** Every card held in a hand, seat by seat. *)
Definition cardsInHands (ps : list Player) : list Card := concat (map hand ps).

(** Two seats waiting for their hole cards, and five cards to deal from. *)
Definition twoEmptySeats : list Player :=
  [mkPlayer "0" "Alice" [] 1000 0 0 false DEALER false false;
   mkPlayer "1" "Bob" [] 1000 0 0 false BIG_BLIND false false].
Definition fiveCards : list Card :=
  [mkCard A SPADES; mkCard K SPADES; mkCard K HEARTS; mkCard R2 CLUBS;
   mkCard R7 DIAMONDS].

(** The flop of [riverShowdown] on the board, three cards left in the deck. *)
Definition flopDealt : GameState :=
  setDeck [mkCard R5 CLUBS; mkCard K DIAMONDS; mkCard R3 SPADES]
    (setCommunityCards [mkCard R2 CLUBS; mkCard R7 DIAMONDS; mkCard R9 HEARTS]
       riverShowdown).

(** A board still empty, over a deck of ten cards. *)
Definition beforeTheFlop : GameState :=
  setDeck (take 10 ALL_CARDS) (setCommunityCards [] riverShowdown).

(** [Σ player.totalBet] over all seats. *)
Definition sumTotalBets (ps : list Player) : Z := foldr Z.add 0 (map totalBet ps).

(** A player who may act: seated, not folded, not all-in, with chips. *)
Definition mayAct (p : Player) : Prop :=
  role p <> VIEWER /\ isFolded p = false /\ isAllIn p = false /\ chips p <> 0.

(** The part of the pot that no [totalBet] accounts for. *)
Definition potBeyondBets (g : GameState) : Z := pot g - sumTotalBets (players g).

(** What a betting action may do to a player object: chips only move from
    the stack into the player's own contribution. *)
Definition paysIn (p p' : Player) : Prop :=
  0 <= chips p' <= chips p /\
  chips p' + totalBet p' = chips p + totalBet p /\
  pid p' = pid p /\ role p' = role p /\ hand p' = hand p.

(** The seat [d] places after seat [o], around a table of [n] seats. *)
Definition seatAfter (n o d : nat) : nat := ((o + d) mod n)%nat.

(** The position, among the seated (non-viewer) players, that
    [rotateDealerButton] moves the button to: one past the first of them
    who holds it, or past the first of them if nobody does. *)
Definition seatedPlayers (g : GameState) : list nat :=
  filterIdx notViewer (players g).
Definition buttonPosition (g : GameState) : nat :=
  ((default 0%nat
      (findIndex (fun p => bool_decide (role p = DEALER))
                 (objects g (seatedPlayers g))) + 1)
   mod length (seatedPlayers g))%nat.

(** What every pot built by [createAllPots] looks like: a positive amount
    at a positive level, and a non-empty list of eligible seats, each held
    by a player who has not folded and has put in at least the level. *)
Definition potWellFormed (g : GameState) (pot : Pot.t) : Prop :=
  0 < Pot.amount pot /\
  0 < Pot.maxContribution pot /\
  Pot.eligiblePlayers pot <> [] /\
  forall i, i ∈ Pot.eligiblePlayers pot ->
    exists p, players g !! i = Some p /\ isFolded p = false /\
              Pot.maxContribution pot <= totalBet p.


(** Two player objects that differ in their role at most, and not in being
    a viewer. *)
Definition rolesOnly (q q' : Player) : Prop :=
  q' = setRole (role q') q /\ (role q' = VIEWER <-> role q = VIEWER).

(** A player [q] at the start of a hand, against the same player [p] before
    it: same identity, out of the hand exactly if [p] was a viewer or out of
    chips, the stack of [p] split between stack and blind, and nothing
    folded or acted yet. *)
Definition seatedFor (p q : Player) : Prop :=
  pid q = pid p /\ name q = name p /\
  (role q = VIEWER <-> role p = VIEWER \/ chips p = 0) /\
  chips q + totalBet q = chips p /\ 0 <= chips q /\
  currentBet q = totalBet q /\
  isFolded q = false /\ hasActed q = false /\
  (role q <> VIEWER -> 0 < chips q \/ 0 < totalBet q).

(** The same, once the hole cards are dealt. *)
Definition dealtIn (p q : Player) : Prop :=
  seatedFor p q /\
  length (hand q) = (if bool_decide (role q = VIEWER) then 0 else 2)%nat.

(** A player gone broke, with the last one standing. *)
Definition lastPlayerStanding : PokerGame :=
  mkPokerGame
    (mkGameState
       [mkPlayer "0" "Alice" [] 2000 0 0 false DEALER false false;
        mkPlayer "1" "Bob" [] 0 0 0 true VIEWER false false]
       [] 0 [] 0 SHOWDOWN_ROUND 20 10 20 20 "Hand complete" [] None false)
    7.

(** The trials counted in a list of hand-strength results. *)
Definition sumStrengthCounts (l : list PredictionResult.HandStrengthResult) : nat :=
  foldr Nat.add 0%nat (map PredictionResult.count l).

(** The trials counted in a tally. *)
Definition sumTally (t : MonteCarloSimulation.Tally) : nat :=
  foldr Nat.add 0%nat (map snd t).

(** A prediction as it may sit in the cache. *)
Definition cachedPrediction : PredictionResult.t :=
  PredictionResult.mk (inject_Z 85) (inject_Z 1) (inject_Z 14) [] []
    MonteCarloSimulation.SIMULATION_COUNT.

(** ** The cache key *)
Definition codeUnitsLe (a b : string) : Prop := String.compare a b <> Gt.

(** * Properties *)

(** ** Card codes *)

Lemma stripPrefix_Some p s rest :
  stripPrefix p s = Some rest -> s = p +:+ rest.
Proof.
  revert s. induction p as [|a p IH]; intros s H; simpl in *.
  - by injection H as ->.
  - destruct s as [|b s]; [discriminate|].
    destruct (Ascii.eqb_spec a b) as [->|]; [|discriminate].
    change (String b s = String b (p +:+ rest)). f_equal. by apply IH.
Qed.

Lemma matchSuitGroup_Some rest s :
  matchSuitGroup rest = Some s -> s = rest /\ In s suitAlternatives.
Proof.
  unfold matchSuitGroup. intros H. apply find_some in H as [Hin Heq].
  apply String.eqb_eq in Heq. by split.
Qed.

Lemma matchRankGroup_Some alts code r s :
  matchRankGroup alts code = Some (r, s) ->
  In r alts /\ In s suitAlternatives /\ code = r +:+ s.
Proof.
  induction alts as [|a alts IH]; simpl; [discriminate|].
  destruct (stripPrefix a code) as [rest|] eqn:Hp.
  - destruct (matchSuitGroup rest) as [s'|] eqn:Hs.
    + intros [= <- <-]. apply matchSuitGroup_Some in Hs as [-> Hin].
      apply stripPrefix_Some in Hp. auto.
    + intros H. apply IH in H as (? & ? & ?). auto.
  - intros H. apply IH in H as (? & ? & ?). auto.
Qed.

Lemma stringToCard_sound code c :
  stringToCard code = Some c -> code = cardToString c.
Proof.
  unfold stringToCard, execCardRegex.
  destruct (matchRankGroup rankAlternatives code) as [[r s]|] eqn:Hm;
    [|discriminate].
  apply matchRankGroup_Some in Hm as (Hr & Hs & ->).
  simpl in Hr, Hs.
  repeat (destruct Hr as [<-|Hr]); try contradiction;
    repeat (destruct Hs as [<-|Hs]); try contradiction;
    simpl; intros [= <-]; reflexivity.
Qed.

(** C10.  Serialising a card with [cardToString] and parsing the code with
    [stringToCard] gives the card back; a string that is the code of no card
    parses to [null] ([None]), and [stringToCard] never throws: it is a total
    function into [option Card]. *)
Theorem stringToCard_roundtrip :
  (forall c : Card, stringToCard (cardToString c) = Some c) /\
  (forall code : string,
      (forall c : Card, code <> cardToString c) -> stringToCard code = None).
Proof.
  split.
  - intros [[] []]; reflexivity.
  - intros code Hmal. destruct (stringToCard code) as [c|] eqn:H; [|done].
    apply stringToCard_sound in H. by destruct (Hmal c).
Qed.

Lemma stringToCard_roundtrip_witness :
  stringToCard (cardToString (mkCard R10 HEARTS)) = Some (mkCard R10 HEARTS) /\
  stringToCard "1HEARTS" = None.
Proof.
  split.
  - apply (proj1 stringToCard_roundtrip).
  - apply (proj2 stringToCard_roundtrip). intros [[] []]; discriminate.
Defined.

(** ** Sorting *)

Section SortBy.
Context {T : Type} (cmp : T -> T -> Z).

Lemma insertBy_Permutation x l : insertBy cmp x l ≡ₚ x :: l.
Proof.
  induction l as [|y l IH]; simpl; [done|].
  destruct (cmp x y <=? 0); [done|]. rewrite IH. apply Permutation_swap.
Qed.

Lemma sortBy_Permutation l : sortBy cmp l ≡ₚ l.
Proof.
  induction l as [|x l IH]; simpl; [done|].
  by rewrite insertBy_Permutation, IH.
Qed.

Lemma sortBy_length l : length (sortBy cmp l) = length l.
Proof. by rewrite sortBy_Permutation. Qed.
End SortBy.

#[local] Instance flip_le_trans : Transitive (flip Z.le).
Proof. intros x y z. unfold flip. lia. Qed.
#[local] Instance flip_le_antisym : AntiSymm (=) (flip Z.le).
Proof. intros x y. unfold flip. lia. Qed.

Lemma insertBy_descending_Sorted x l :
  Sorted (flip Z.le) l -> Sorted (flip Z.le) (insertBy descending x l).
Proof.
  induction 1 as [|y l Hs IH Hhd]; simpl.
  - repeat constructor.
  - unfold descending at 1. destruct (Z.leb_spec (y - x) 0).
    + constructor; [by constructor|]. constructor. unfold flip. lia.
    + constructor; [done|].
      destruct Hhd as [|z l Hz]; simpl.
      * constructor. unfold flip. lia.
      * unfold descending. destruct (Z.leb_spec (z - x) 0);
          constructor; unfold flip in *; lia.
Qed.

Lemma sortBy_descending_Sorted l : Sorted (flip Z.le) (sortBy descending l).
Proof.
  induction l; simpl; [constructor|]. by apply insertBy_descending_Sorted.
Qed.

(** Sorting numbers in descending order depends on the multiset only. *)
Lemma sortBy_descending_perm l1 l2 :
  l1 ≡ₚ l2 -> sortBy descending l1 = sortBy descending l2.
Proof.
  intros Hp. apply (Sorted_unique (flip Z.le)).
  - apply sortBy_descending_Sorted.
  - apply sortBy_descending_Sorted.
  - by rewrite !sortBy_Permutation.
Qed.

(** ** Hand evaluation *)

Lemma evaluateFive_classify cards :
  evaluateFive cards = classifyFive (isFlushHand cards) (rankValuesOf (map rank cards)).
Proof. unfold rankValuesOf. rewrite map_map. reflexivity. Qed.

Lemma rankValuesOf_perm rs1 rs2 :
  rs1 ≡ₚ rs2 -> rankValuesOf rs1 = rankValuesOf rs2.
Proof. intros H. apply sortBy_descending_perm. by rewrite H. Qed.

Lemma isFlushHand_sameSuit cards : isFlushHand cards = true -> sameSuit cards.
Proof.
  unfold isFlushHand, every, sameSuit. destruct cards as [|c0 cards].
  - intros _. exists SPADES. constructor.
  - intros H. exists (suit c0). rewrite forallb_forall in H.
    apply Forall_forall. intros c Hc.
    assert (Hin : In (suit c) (map suit (c0 :: cards))).
    { apply in_map. by apply list_elem_of_In. }
    specialize (H _ Hin). apply bool_decide_eq_true in H. simpl in H. congruence.
Qed.

Lemma mixed_suits_not_flush cards : ~ sameSuit cards -> isFlushHand cards = false.
Proof.
  intros H. destruct (isFlushHand cards) eqn:E; [|done].
  by apply isFlushHand_sameSuit in E.
Qed.

(** C5.  A hand made of A, 2, 3, 4, 5 in any order, not all of one suit, is
    a STRAIGHT with tiebreaker [5].  [compareHands] puts it strictly below
    every hand made of 2, 3, 4, 5, 6 (a straight with tiebreaker [6] when its
    suits are mixed), read in either direction: the wheel against the six-high
    hand compares negative and the six-high hand against the wheel compares
    positive.  It differs from the straight that counts the ace as 14: 10, J,
    Q, K, A of mixed suits has tiebreaker [14] and ranks above the wheel,
    again in both directions. *)
Theorem wheel_is_lowest_straight (wheel : list Card) :
  map rank wheel ≡ₚ [A; R2; R3; R4; R5] ->
  ~ sameSuit wheel ->
  evaluateFive wheel = Ok (mkEval STRAIGHT [5]) /\
  (forall six : list Card,
      map rank six ≡ₚ [R2; R3; R4; R5; R6] ->
      exists e6,
        evaluateFive six = Ok e6 /\
        isNegative (compareHands (mkEval STRAIGHT [5]) e6) = true /\
        isPositive (compareHands e6 (mkEval STRAIGHT [5])) = true /\
        (~ sameSuit six -> e6 = mkEval STRAIGHT [6])) /\
  (forall broadway : list Card,
      map rank broadway ≡ₚ [R10; J; Q; K; A] ->
      ~ sameSuit broadway ->
      evaluateFive broadway = Ok (mkEval STRAIGHT [14]) /\
      isNegative (compareHands (mkEval STRAIGHT [5]) (mkEval STRAIGHT [14])) = true /\
      isPositive (compareHands (mkEval STRAIGHT [14]) (mkEval STRAIGHT [5])) = true).
Proof.
  intros Hw Hmix. split; [|split].
  - rewrite evaluateFive_classify, (rankValuesOf_perm _ _ Hw),
      (mixed_suits_not_flush _ Hmix). reflexivity.
  - intros six H6. rewrite evaluateFive_classify, (rankValuesOf_perm _ _ H6).
    destruct (isFlushHand six) eqn:Hf.
    + eexists. split; [reflexivity|]. split_and!; [reflexivity|reflexivity|].
      intros Hn. by rewrite (mixed_suits_not_flush _ Hn) in Hf.
    + eexists. split; [reflexivity|]. split_and!; reflexivity.
  - intros b Hb Hn.
    rewrite evaluateFive_classify, (rankValuesOf_perm _ _ Hb),
      (mixed_suits_not_flush _ Hn). split_and!; reflexivity.
Qed.

Lemma wheel_is_lowest_straight_witness :
  evaluateFive [mkCard R3 CLUBS; mkCard A SPADES; mkCard R5 HEARTS;
                mkCard R2 HEARTS; mkCard R4 DIAMONDS]
  = Ok (mkEval STRAIGHT [5]).
Proof.
  refine (proj1 (wheel_is_lowest_straight
                   [mkCard R3 CLUBS; mkCard A SPADES; mkCard R5 HEARTS;
                    mkCard R2 HEARTS; mkCard R4 DIAMONDS] _ _)).
  - by apply (bool_decide_unpack _).
  - intros [s Hs]. inversion Hs as [|? ? H1 Hs1]; subst.
    inversion Hs1 as [|? ? H2 _]; subst. simpl in H2. discriminate.
Defined.

(** ** Chip accounting during betting *)

Lemma sumChips_alter ps i p f :
  ps !! i = Some p ->
  sumChips (alter f i ps) = sumChips ps - chips p + chips (f p).
Proof.
  unfold sumChips. revert i. induction ps as [|q ps IH]; intros [|i] H;
    simpl in *; try discriminate.
  - injection H as ->. lia.
  - specialize (IH _ H). unfold alter in IH. lia.
Qed.

Lemma sumChips_alter_same ps i f :
  (forall p, chips (f p) = chips p) -> sumChips (alter f i ps) = sumChips ps.
Proof.
  intros Hf. unfold sumChips. revert i.
  induction ps as [|q ps IH]; intros [|i]; simpl; try done.
  - by rewrite Hf.
  - specialize (IH i). unfold alter in IH. by rewrite IH.
Qed.

Lemma sumChips_map_same ps f :
  (forall p, chips (f p) = chips p) -> sumChips (map f ps) = sumChips ps.
Proof.
  intros Hf. unfold sumChips. induction ps as [|q ps IH]; simpl; [done|].
  by rewrite Hf, IH.
Qed.

Lemma chips_reopenFor a p : chips (reopenFor a p) = chips p.
Proof. unfold reopenFor. by destruct (_ && _). Qed.

Lemma processFold_chipsInPlay g i : chipsInPlay (processFold g i) = chipsInPlay g.
Proof.
  unfold processFold, chipsInPlay. destruct (players g !! i); [|done]. simpl.
  by rewrite sumChips_alter_same.
Qed.

Lemma processCheck_chipsInPlay g i : chipsInPlay (processCheck g i) = chipsInPlay g.
Proof.
  unfold processCheck, chipsInPlay. destruct (players g !! i); [|done]. simpl.
  by rewrite sumChips_alter_same.
Qed.

Lemma processCall_chipsInPlay g i : chipsInPlay (processCall g i) = chipsInPlay g.
Proof.
  unfold processCall, chipsInPlay. destruct (players g !! i) as [p|] eqn:Hp; [|done].
  set (c := Z.min _ _).
  destruct (chips p - c =? 0); simpl;
    rewrite ?(sumChips_alter_same _ _ (setIsAllIn true)) by done;
    rewrite (sumChips_alter _ _ p) by done; simpl; lia.
Qed.

Lemma processRaise_chipsInPlay g i action :
  chipsInPlay (processRaise g i action) = chipsInPlay g.
Proof.
  unfold processRaise, chipsInPlay. destruct (players g !! i) as [p|] eqn:Hp; [|done].
  destruct (noAmount (amount action)); [done|].
  set (t := Z.min _ _).
  destruct (chips p - (t - currentBet p) =? 0); simpl;
    rewrite ?(sumChips_alter_same _ _ (setIsAllIn true)) by done;
    rewrite sumChips_map_same by apply chips_reopenFor;
    rewrite (sumChips_alter _ _ p) by done; simpl; lia.
Qed.

Lemma processAllIn_chipsInPlay g i : chipsInPlay (processAllIn g i) = chipsInPlay g.
Proof.
  unfold processAllIn, chipsInPlay. destruct (players g !! i) as [p|] eqn:Hp; [|done].
  destruct (getHighestCurrentBet g <? currentBet p + chips p); simpl;
    rewrite ?sumChips_map_same by apply chips_reopenFor;
    rewrite (sumChips_alter _ _ p) by done; simpl; lia.
Qed.

Lemma processValidatedAction_chipsInPlay g action :
  chipsInPlay (processValidatedAction g action) = chipsInPlay g.
Proof.
  unfold processValidatedAction. destruct (findSeat _ _); [|done].
  destruct (actionType action);
    auto using processFold_chipsInPlay, processCheck_chipsInPlay,
      processCall_chipsInPlay, processRaise_chipsInPlay, processAllIn_chipsInPlay.
Qed.

Lemma handleAutomaticWin_chipsInPlay g :
  chipsInPlay (fst (handleAutomaticWin g)) = chipsInPlay g.
Proof.
  unfold handleAutomaticWin. by destruct (getActivePlayersOfGame g) as [|? [|? ?]].
Qed.

Lemma processAction_chipsInPlay g action :
  chipsInPlay (ActionResult.gameState (processAction g action)) = chipsInPlay g.
Proof.
  unfold processAction.
  pose proof (handleAutomaticWin_chipsInPlay g) as H1.
  destruct (handleAutomaticWin g) as [g1 [[w text]|]]; simpl in *; [done|].
  destruct (isValid _); simpl; [|done].
  pose proof (processValidatedAction_chipsInPlay g1 action) as H2.
  pose proof (handleAutomaticWin_chipsInPlay (processValidatedAction g1 action)) as H3.
  destruct (actionType action); simpl; try congruence;
    destruct (handleAutomaticWin _) as [g3 [[w text]|]]; simpl in *; congruence.
Qed.

Lemma setPostFLOPFirstPlayer_chipsInPlay g :
  chipsInPlay (setPostFLOPFirstPlayer g) = chipsInPlay g.
Proof. unfold setPostFLOPFirstPlayer. by destruct (firstUnfoldedFrom _ _ _). Qed.

Lemma advanceToNextRound_chipsInPlay g g' :
  advanceToNextRound g = Ok g' -> chipsInPlay g' = chipsInPlay g.
Proof.
  unfold advanceToNextRound. destruct (isBettingRoundComplete g); [|discriminate].
  simpl negb. cbv iota.
  assert (Hbase : chipsInPlay (resetBettingRound (collectBets g)) = chipsInPlay g).
  { unfold chipsInPlay. simpl. by rewrite !sumChips_map_same. }
  destruct (_ <=? _)%nat; [intros [= <-]; exact Hbase|].
  destruct (round _); intros [= <-];
    rewrite ?setPostFLOPFirstPlayer_chipsInPlay; exact Hbase.
Qed.

(** C1 (as stated in the specification): calling changes
    [pot + Σ chips + Σ currentBet], because the chips that leave the stack
    are added both to the pot and to [currentBet]. *)
Lemma processCall_changes_potStacksAndBets :
  potStacksAndBets headsUpAfterBlinds = 2030 /\
  potStacksAndBets (processCall headsUpAfterBlinds 1) = 2040.
Proof. split; reflexivity. Qed.

(** C1 (amended).  The quantity [pot + Σ chips] is constant while a hand is
    played: [processCall], [processRaise] and [processAllIn] preserve it for
    every state, seat and action, and so do a whole [processAction] step and
    the move to the next betting round. *)
Theorem betting_preserves_chipsInPlay (g : GameState) (i : nat) (action : Action) :
  chipsInPlay (processCall g i) = chipsInPlay g /\
  chipsInPlay (processRaise g i action) = chipsInPlay g /\
  chipsInPlay (processAllIn g i) = chipsInPlay g /\
  chipsInPlay (ActionResult.gameState (processAction g action)) = chipsInPlay g /\
  (forall g', advanceToNextRound g = Ok g' -> chipsInPlay g' = chipsInPlay g).
Proof.
  repeat split.
  - apply processCall_chipsInPlay.
  - apply processRaise_chipsInPlay.
  - apply processAllIn_chipsInPlay.
  - apply processAction_chipsInPlay.
  - apply advanceToNextRound_chipsInPlay.
Qed.

Lemma betting_preserves_chipsInPlay_witness :
  exists g', advanceToNextRound headsUpCalled = Ok g' /\
             chipsInPlay g' = chipsInPlay headsUpCalled.
Proof.
  eexists. split; [vm_compute; reflexivity|].
  apply (betting_preserves_chipsInPlay headsUpCalled 0 (mkAction "0" Check None)).
  vm_compute; reflexivity.
Defined.

(** ** Reopening the action *)

Lemma findIndex_Some {T} (f : T -> bool) l i :
  findIndex f l = Some i ->
  exists x, l !! i = Some x /\ f x = true /\ List.find f l = Some x.
Proof.
  revert i. induction l as [|y l IH]; intros i; simpl; [discriminate|].
  destruct (f y) eqn:Hy.
  - intros [= <-]. eauto.
  - destruct (findIndex f l) as [k|]; [|discriminate]. intros [= <-].
    destruct (IH k eq_refl) as (x & ? & ? & ?). eauto.
Qed.



Lemma reopenFor_other a p :
  pid p <> a -> isFolded p = false -> isAllIn p = false ->
  hasActed (reopenFor a p) = false.
Proof.
  intros Hne Hf Ha. unfold reopenFor.
  apply String.eqb_neq in Hne. by rewrite Hne, Hf, Ha.
Qed.

Lemma isFolded_reopenFor a p : isFolded (reopenFor a p) = isFolded p.
Proof. unfold reopenFor. by destruct (_ && _). Qed.
Lemma isAllIn_reopenFor a p : isAllIn (reopenFor a p) = isAllIn p.
Proof. unfold reopenFor. by destruct (_ && _). Qed.












(** ** Rejected actions *)

(** C8 (as stated in the specification).  With a single active player left,
    an action that fails validation is answered with [success = true]: the
    automatic win is reported before the action is looked at.  On a state in
    which that win has not been recorded yet, the same call also rewrites
    [round], [message] and [winners]. *)
Lemma processAction_rejected_yet_successful :
  let ghost := mkAction "nobody" Check None in
  (isValid (validatePlayerActionOfGame headsUpFolded ghost) = false /\
   ActionResult.success (processAction headsUpFolded ghost) = true) /\
  (let g := processFold headsUpAfterBlinds 0 in
   isValid (validatePlayerActionOfGame g ghost) = false /\
   ActionResult.success (processAction g ghost) = true /\
   round g = PREFLOP /\
   round (ActionResult.gameState (processAction g ghost)) = SHOWDOWN_ROUND /\
   winners g = [] /\
   winners (ActionResult.gameState (processAction g ghost)) = [1%nat]).
Proof. repeat split; reflexivity. Qed.

(** C8 (amended).  While at least two players are active, so that no
    automatic win is pending, an action that fails validation makes
    [processAction] return [success = false] with the validator's reason and
    the state it was given, unchanged in every field.  With at most one
    active player every action fails validation, and the state is not left
    alone.  With a single active player the automatic win is reported with
    [success = true] whatever the action: the state returned has
    [round = SHOWDOWN], the win message and that player as the only winner,
    and is otherwise the state given.  With no active player the call
    returns [success = false] with the reason of a completed hand, on a state
    whose [round] and [message] were rewritten. *)
Theorem rejected_action_leaves_state (g : GameState) (action : Action) :
  ((2 <= length (getActivePlayersOfGame g))%nat ->
   isValid (validatePlayerActionOfGame g action) = false ->
   processAction g action
   = ActionResult.mk false
       (reasonOr (reason (validatePlayerActionOfGame g action)) INVALID_ACTION) g) /\
  ((length (getActivePlayersOfGame g) <= 1)%nat ->
   isValid (validatePlayerActionOfGame g action) = false) /\
  (forall winner,
     getActivePlayersOfGame g = [winner] ->
     processAction g action
     = ActionResult.mk true
         (winnerName g (Some winner) +:+ " wins by default (all others folded)!")
         (setWinners [winner]
            (setMessage
               (winnerName g (Some winner) +:+ " wins by default (all others folded)!")
               (setRound SHOWDOWN_ROUND g)))) /\
  (getActivePlayersOfGame g = [] ->
   processAction g action
   = ActionResult.mk false "Hand is already complete - only one player remains"
       (setMessage "Hand ended with no active players" (setRound SHOWDOWN_ROUND g))).
Proof.
  split_and!.
  - intros Hactive Hinvalid. unfold processAction, handleAutomaticWin.
    destruct (getActivePlayersOfGame g) as [|a [|b l]] eqn:E; simpl in Hactive;
      [lia|lia|].
    by rewrite Hinvalid.
  - intros Hfew. unfold validatePlayerActionOfGame, shouldHandEndEarly.
    by destruct (Nat.leb_spec (length (getActivePlayersOfGame g)) 1); [|lia].
  - intros winner Hone. unfold processAction, handleAutomaticWin. by rewrite Hone.
  - intros Hnone. unfold processAction, handleAutomaticWin. rewrite Hnone.
    unfold validatePlayerActionOfGame, shouldHandEndEarly.
    change (getActivePlayersOfGame
              (setMessage "Hand ended with no active players"
                 (setRound SHOWDOWN_ROUND g)))
      with (getActivePlayersOfGame g).
    by rewrite Hnone.
Qed.

Lemma rejected_action_leaves_state_witness :
  processAction headsUpAfterBlinds (mkAction "1" Check None)
  = ActionResult.mk false "Cannot check when there's a bet to call"
      headsUpAfterBlinds.
Proof.
  apply (proj1 (rejected_action_leaves_state headsUpAfterBlinds
                  (mkAction "1" Check None))).
  - apply (bool_decide_unpack _). reflexivity.
  - reflexivity.
Defined.

(** ** Starting a hand *)

Lemma swapAt_length {T} (l : list T) i j : length (swapAt l i j) = length l.
Proof.
  unfold swapAt. destruct (l !! i), (l !! j); try done.
  by rewrite !length_insert.
Qed.

Lemma shuffleFrom_length {T} pick i (l : list T) :
  length (shuffleFrom pick i l) = length l.
Proof.
  revert l. induction i as [|i IH]; intros l; simpl; [done|].
  by rewrite IH, swapAt_length.
Qed.

Lemma shuffle_length {T} pick (l : list T) : length (shuffle pick l) = length l.
Proof. apply shuffleFrom_length. Qed.

Lemma freshDeck_length pick : length (freshDeck pick) = 52%nat.
Proof. unfold freshDeck. by rewrite shuffle_length. Qed.

(** C6 (as stated in the specification).  On a fresh two-player game the
    first [startNewHand] moves the button off seat 0 before the blinds are
    posted: seat 0 ends up with the big blind (980 chips, bet 20), and the
    first to act is seat 1. *)
Lemma first_hand_seat0_posts_big_blind :
  exists game game',
    newPokerGame (fun _ => 0%nat) ["P0"; "P1"] = Ok game /\
    startNewHand (fun _ => 0%nat) game = Ok game' /\
    (chips <$> players (gameState game') !! 0%nat) = Some 980 /\
    (currentBet <$> players (gameState game') !! 0%nat) = Some 20 /\
    (role <$> players (gameState game') !! 0%nat) = Some BIG_BLIND /\
    (chips <$> players (gameState game') !! 1%nat) = Some 990 /\
    (role <$> players (gameState game') !! 1%nat) = Some DEALER /\
    currentPlayerIndex (gameState game') = 1%nat.
Proof.
  do 2 eexists. split; [vm_compute; reflexivity|].
  split; [vm_compute; reflexivity|]. split_and!; vm_compute; reflexivity.
Qed.

(** C6 (amended).  For a freshly constructed game of two players, whatever
    their names and the shuffles, [startNewHand] succeeds and leaves: pot 30;
    seat 1, the dealer once the button has moved, with 990 chips and the
    small blind of 10 as [currentBet]; seat 0 with 980 chips and the big
    blind of 20; two hole cards each; round PREFLOP; and seat 1, the dealer,
    first to act. *)
Theorem first_hand_heads_up (pick0 pick1 : nat -> nat) (n0 n1 : string) :
  exists game game' p0 p1,
    newPokerGame pick0 [n0; n1] = Ok game /\
    startNewHand pick1 game = Ok game' /\
    players (gameState game') = [p0; p1] /\
    pot (gameState game') = 30 /\
    (role p1 = DEALER /\ chips p1 = 990 /\ currentBet p1 = 10) /\
    (role p0 = BIG_BLIND /\ chips p0 = 980 /\ currentBet p0 = 20) /\
    (length (hand p0) = 2%nat /\ length (hand p1) = 2%nat) /\
    round (gameState game') = PREFLOP /\
    currentPlayerIndex (gameState game') = 1%nat.
Proof.
  unfold newPokerGame, initializeGame, startNewHand.
  pose proof (freshDeck_length pick1) as Hlen.
  generalize dependent (freshDeck pick1). generalize (freshDeck pick0).
  intros d0 d Hlen.
  destruct d as [|c1 [|c2 [|c3 [|c4 d]]]]; try discriminate.
  do 4 eexists. split; [reflexivity|]. split; [vm_compute; reflexivity|].
  split_and!; reflexivity.
Qed.

(** ** Blinds when a seat is held by a viewer *)

(** C7 (evaluation at the failing input).  The next hand turns seat 2 into a
    viewer, so exactly two non-viewers remain and [rotateDealerButton] hands
    out DEALER and BIG_BLIND only.  [placeBlinds] tests
    [players.length === 2], which counts the viewer's seat: no small blind is
    posted, the dealer keeps all 1500 chips and the pot holds the big blind
    alone. *)
Lemma viewer_seat_suppresses_small_blind :
  exists game',
    startNewHand (fun _ => 0%nat) threeSeatsOneBusted = Ok game' /\
    map role (players (gameState game')) = [BIG_BLIND; DEALER; VIEWER] /\
    map currentBet (players (gameState game')) = [20; 0; 0] /\
    map chips (players (gameState game')) = [1480; 1500; 0] /\
    pot (gameState game') = 20.
Proof.
  eexists. split; [vm_compute; reflexivity|]. split_and!; vm_compute; reflexivity.
Qed.

(** ** Side pots *)

Lemma elem_of_filterIdxFrom {T} (f : T -> bool) k l i :
  i ∈ filterIdxFrom f k l <->
  exists j x, i = (k + j)%nat /\ l !! j = Some x /\ f x = true.
Proof.
  revert k. induction l as [|y l IH]; intros k; simpl.
  - split; [by intros ?%elem_of_nil|]. by intros (j & x & _ & ? & _).
  - destruct (f y) eqn:Hy; [rewrite elem_of_cons|]; rewrite IH; split.
    + intros [->|(j & x & -> & Hj & Hx)].
      * exists 0%nat, y. split_and!; [lia|done|done].
      * exists (S j), x. split_and!; [lia|done|done].
    + intros ([|j] & x & -> & Hj & Hx); simpl in Hj.
      * left. lia.
      * right. exists j, x. split_and!; [lia|done|done].
    + intros (j & x & -> & Hj & Hx). exists (S j), x. split_and!; [lia|done|done].
    + intros ([|j] & x & -> & Hj & Hx); simpl in Hj.
      * congruence.
      * exists j, x. split_and!; [lia|done|done].
Qed.

Lemma elem_of_deref_filterIdx (ps : list Player) (f : Player -> bool) i p :
  (i, p) ∈ deref ps (filterIdx f ps) <-> ps !! i = Some p /\ f p = true.
Proof.
  unfold deref, filterIdx. rewrite list_elem_of_omap. split.
  - intros (k & Hk & Hp). apply elem_of_filterIdxFrom in Hk as (j & x & -> & Hj & Hx).
    simpl in Hp. rewrite Hj in Hp. simpl in Hp. by injection Hp as <- <-.
  - intros [Hi Hf]. exists i. split.
    + apply elem_of_filterIdxFrom. by exists i, p.
    + by rewrite Hi.
Qed.

Lemma sumPots_app a b : sumPots (a ++ b) = sumPots a + sumPots b.
Proof.
  unfold sumPots. induction a as [|x a IH]; simpl; [done|]. rewrite IH. lia.
Qed.

(** Every pass of the loop keeps the pots built so far, and what it adds to
    them is exactly what it takes from [remainingPot]. *)
Lemma potLevels_spec i rest currentLevel potIndex remainingPot pots :
  exists extra,
    fst (potLevels i rest currentLevel potIndex remainingPot pots) = (pots ++ extra)%list /\
    sumPots extra
      + snd (potLevels i rest currentLevel potIndex remainingPot pots) = remainingPot /\
    (0 <= remainingPot ->
     0 <= snd (potLevels i rest currentLevel potIndex remainingPot pots)).
Proof.
  revert i currentLevel potIndex remainingPot pots.
  induction rest as [|[seat player] rest IH];
    intros i currentLevel potIndex remainingPot pots.
  - exists []. simpl. rewrite app_nil_r. split_and!; [done|unfold sumPots; simpl; lia|done].
  - cbn [potLevels]. destruct (_ && _); [|apply IH].
    set (amt := Z.min _ remainingPot). set (pot0 := Pot.mk _ _ _ _ _).
    destruct (_ && _); [|apply IH].
    destruct (IH (S i) (totalBet player) (S potIndex) (remainingPot - amt)
                 (pots ++ [pot0])%list) as (extra & Hfst & Hsum & Hpos).
    exists (pot0 :: extra). rewrite Hfst, <- app_assoc. split_and!; [done| |].
    + change (pot0 :: extra) with ([pot0] ++ extra)%list. rewrite sumPots_app.
      unfold sumPots at 1. simpl. lia.
    + intros Hrem. apply Hpos. subst amt. lia.
Qed.

Lemma sumPots_addAmount_head r pots :
  pots <> [] -> sumPots (alter (Pot.addAmount r) 0%nat pots) = sumPots pots + r.
Proof. destruct pots as [|p pots]; [done|]. intros _. unfold sumPots. simpl. lia. Qed.

(** The first pass opens a pot as soon as one contributor has not folded. *)
Lemma potLevels_first_pot (sorted : list (nat * Player)) (potTotal : Z) :
  0 < potTotal ->
  (forall sp, sp ∈ sorted -> 0 < totalBet (snd sp)) ->
  (exists sp, sp ∈ sorted /\ isFolded (snd sp) = false) ->
  fst (potLevels 0 sorted 0 0 potTotal []) <> [].
Proof.
  intros Hpot Hbets (sp & Hin & Hnf).
  destruct sorted as [|[seat player] rest]; [by apply elem_of_nil in Hin|].
  cbn [potLevels].
  assert (Hb : 0 < totalBet player) by (apply (Hbets (seat, player)); left).
  assert (H1 : (0 <? totalBet player) && (0 <? potTotal) = true).
  { apply andb_true_intro. split; by apply Z.ltb_lt. }
  rewrite H1.
  set (eligible := map fst (List.filter _ ((seat, player) :: rest))).
  assert (He : (0 <? length eligible)%nat = true).
  { apply Nat.ltb_lt. subst eligible. rewrite length_map.
    assert (Hsp : In sp (List.filter (fun sp => negb (isFolded (snd sp)))
                                     ((seat, player) :: rest))).
    { apply filter_In. split; [by apply list_elem_of_In|]. by rewrite Hnf. }
    destruct (List.filter _ _); [done|simpl; lia]. }
  assert (Ha : (0 <? Z.min ((totalBet player - 0)
                            * Z.of_nat (length ((seat, player) :: rest))) potTotal)
               = true).
  { apply Z.ltb_lt. apply Z.min_glb_lt; [|done]. simpl length. nia. }
  rewrite Ha, He. simpl andb. cbv iota.
  match goal with
  | |- fst (potLevels ?i ?r ?c ?k ?m ?p) <> [] =>
      destruct (potLevels_spec i r c k m p) as (extra & -> & _)
  end.
  by destruct extra.
Qed.

(** C2 (as stated in the specification).  A player with [totalBet > 0] and a
    positive pot do not suffice: when every contributor has folded no pot is
    built, and the amounts sum to 0 instead of the pot of 30. *)
Lemma createAllPots_all_contributors_folded :
  0 < pot blindsFolded /\
  (exists p, p ∈ players blindsFolded /\ 0 < totalBet p) /\
  createAllPots blindsFolded = [] /\
  sumPots (createAllPots blindsFolded) <> pot blindsFolded.
Proof.
  split_and!; [by vm_compute| |by vm_compute|by vm_compute].
  exists (mkPlayer "1" "Bob" [mkCard R7 HEARTS; mkCard R7 CLUBS] 990 10 10 true
                   SMALL_BLIND true false).
  split; [|done]. apply (list_elem_of_lookup_2 _ 1%nat). by vm_compute.
Qed.

(** C2 (amended).  For every state with a positive pot in which at least one
    player with [totalBet > 0] has not folded, the amounts of the pots
    returned by [createAllPots] sum to [gameState.pot] exactly, whatever the
    distribution of the [totalBet] values.  With three players A, B, C who
    put in 100, 200 and 300, none folded, and a pot of 600 (scenario D), the
    pots are 300 (A, B, C), 200 (B, C) and 100 (C). *)
Theorem createAllPots_sum :
  (forall g : GameState,
      0 < pot g ->
      (exists p, p ∈ players g /\ 0 < totalBet p /\ isFolded p = false) ->
      sumPots (createAllPots g) = pot g) /\
  (forall (g : GameState) (a b c : Player),
      players g = [a; b; c] -> pot g = 600 ->
      totalBet a = 100 -> totalBet b = 200 -> totalBet c = 300 ->
      isFolded a = false -> isFolded b = false -> isFolded c = false ->
      createAllPots g
      = [Pot.mk "pot-0" 300 [0; 1; 2]%nat true 100;
         Pot.mk "pot-1" 200 [1; 2]%nat false 200;
         Pot.mk "pot-2" 100 [2]%nat false 300]).
Proof.
  split.
  2:{ intros g a b c Hps Hpot Ha Hb Hc Hfa Hfb Hfc. unfold createAllPots.
      rewrite Hps, Hpot. destruct a, b, c. simpl in *. subst.
      by vm_compute. }
  intros g Hpot (p & Hp & Hbet & Hnf). unfold createAllPots.
  apply list_elem_of_lookup in Hp as [i Hi].
  assert (Hin : (i, p) ∈ deref (players g)
                          (filterIdx (fun p => 0 <? totalBet p) (players g))).
  { apply elem_of_deref_filterIdx. split; [done|]. by apply Z.ltb_lt. }
  set (active := filterIdx _ (players g)) in *.
  assert (Hactive : (length active =? 0)%nat = false).
  { apply Nat.eqb_neq. intros Hz. apply nil_length_inv in Hz.
    rewrite Hz in Hin. by apply elem_of_nil in Hin. }
  assert (Hpz : (pot g =? 0) = false) by (apply Z.eqb_neq; lia).
  rewrite Hactive, Hpz. simpl orb. cbv iota.
  set (sorted := sortBy _ _).
  assert (Hne : fst (potLevels 0 sorted 0 0 (pot g) []) <> []).
  { apply potLevels_first_pot; [done| |].
    - intros sp Hsp. subst sorted. rewrite sortBy_Permutation in Hsp.
      destruct sp as [k q]. apply elem_of_deref_filterIdx in Hsp as [_ Hq].
      by apply Z.ltb_lt in Hq.
    - exists (i, p). split; [|done]. subst sorted. by rewrite sortBy_Permutation. }
  destruct (potLevels_spec 0 sorted 0 0 (pot g) []) as (extra & Hfst & Hsum & Hpos).
  destruct (potLevels 0 sorted 0 0 (pot g) []) as [pots rem]. simpl in *.
  subst pots. specialize (Hpos ltac:(lia)).
  destruct (Z.ltb_spec 0 rem); simpl.
  - destruct extra as [|e extra]; [done|]. simpl.
    change (sumPots (Pot.addAmount rem e :: extra) = pot g).
    unfold sumPots in *. simpl in *. lia.
  - destruct ((0 <? length extra)%nat); lia.
Qed.

Lemma createAllPots_sum_witness :
  sumPots (createAllPots headsUpCalled) = 40 /\
  map Pot.amount (createAllPots scenarioD) = [300; 200; 100].
Proof.
  split.
  - apply (proj1 createAllPots_sum headsUpCalled); [done|].
    eexists. split; [apply (list_elem_of_lookup_2 _ 0%nat); reflexivity|done].
  - by rewrite (proj2 createAllPots_sum scenarioD _ _ _ eq_refl eq_refl
                  eq_refl eq_refl eq_refl eq_refl eq_refl eq_refl).
Defined.

(** ** The evaluator returns on well-formed input *)

Lemma sumCounts_countInto counts v :
  sumCounts (countInto counts v) = sumCounts counts + 1.
Proof.
  unfold sumCounts. induction counts as [|[k c] counts IH]; simpl; [done|].
  destruct (k =? v); simpl; lia.
Qed.

Lemma countInto_positive counts v :
  Forall (fun kc => 1 <= snd kc) counts ->
  Forall (fun kc => 1 <= snd kc) (countInto counts v).
Proof.
  induction 1 as [|[k c] counts Hc Hrest IH]; simpl.
  - repeat constructor. simpl. lia.
  - destruct (k =? v); constructor; simpl in *; try done. lia.
Qed.

Lemma countInto_keys counts v :
  map fst (countInto counts v)
  = if bool_decide (v ∈ map fst counts) then map fst counts
    else (map fst counts ++ [v])%list.
Proof.
  induction counts as [|[k c] counts IH]; simpl; [done|].
  destruct (Z.eqb_spec k v) as [->|Hne]; simpl.
  - rewrite bool_decide_eq_true_2; [done|]. left.
  - rewrite IH. destruct (bool_decide (v ∈ map fst counts)) eqn:E.
    + apply bool_decide_eq_true in E. rewrite bool_decide_eq_true_2; [done|].
      by right.
    + apply bool_decide_eq_false in E. rewrite bool_decide_eq_false_2; [done|].
      intros [?|?]%elem_of_cons; [congruence|done].
Qed.

(** The counting loop: one unit per card, distinct keys, every key a rank
    value that occurs. *)
Lemma counting_invariant (rankValues : list Z) (acc : list (Z * Z)) :
  Forall (fun kc => 1 <= snd kc) acc -> NoDup (map fst acc) ->
  sumCounts (foldl countInto acc rankValues)
    = sumCounts acc + Z.of_nat (length rankValues) /\
  Forall (fun kc => 1 <= snd kc) (foldl countInto acc rankValues) /\
  NoDup (map fst (foldl countInto acc rankValues)) /\
  (forall k, k ∈ map fst (foldl countInto acc rankValues) ->
             k ∈ map fst acc \/ k ∈ rankValues).
Proof.
  revert acc. induction rankValues as [|v rv IH]; intros acc Hpos Hnd.
  - simpl. split_and!; [lia|done|done|auto].
  - cbn [foldl].
    assert (Hnd' : NoDup (map fst (countInto acc v))).
    { rewrite countInto_keys. case_bool_decide; [done|].
      apply NoDup_app. split_and!; [done| |apply NoDup_singleton].
      intros x Hx Hv. apply list_elem_of_singleton in Hv as ->. done. }
    destruct (IH (countInto acc v) (countInto_positive _ _ Hpos) Hnd')
      as (Hsum & Hp & Hn & Hk).
    split_and!; [|done|done|].
    + rewrite Hsum, sumCounts_countInto. simpl length. lia.
    + intros k Hin. destruct (Hk k Hin) as [H|H]; [|right; by right].
      rewrite countInto_keys in H. case_bool_decide; [by left|].
      apply elem_of_app in H as [H|H]; [by left|].
      apply list_elem_of_singleton in H as ->. right; left.
Qed.

Lemma sumCounts_perm a b : a ≡ₚ b -> sumCounts a = sumCounts b.
Proof.
  unfold sumCounts. induction 1; simpl; lia.
Qed.

Lemma groupAt_Ok grouped k g : grouped !! k = Some g -> groupAt grouped k = Ok g.
Proof. unfold groupAt. by intros ->. Qed.

(** [evaluateFive] returns on every hand of five cards. *)
Lemma classifyFive_five isFLUSH rankValues :
  length rankValues = 5%nat -> exists e, classifyFive isFLUSH rankValues = Ok e.
Proof.
  intros Hlen. unfold classifyFive.
  destruct (checkSTRAIGHT rankValues) as [isSTRAIGHT high].
  destruct (counting_invariant rankValues [] (Forall_nil_2 _) (NoDup_nil_2))
    as (Hsum & Hpos & Hnd & Hkeys).
  set (grouped := sortBy byCountThenValue (foldl countInto [] rankValues)).
  assert (Hperm : grouped ≡ₚ foldl countInto [] rankValues)
    by apply sortBy_Permutation.
  rewrite <- (sumCounts_perm _ _ Hperm) in Hsum. rewrite <- Hperm in Hpos, Hnd.
  assert (Hkeys' : forall k, k ∈ map fst grouped -> k ∈ rankValues).
  { intros k Hk. rewrite Hperm in Hk. destruct (Hkeys k Hk) as [H|H]; [|done].
    by apply elem_of_nil in H. }
  clearbody grouped. clear Hperm Hkeys. rewrite Hlen in Hsum.
  unfold sumCounts in Hsum. simpl in Hsum.
  destruct (isSTRAIGHT && isFLUSH); [eauto|].
  destruct grouped as [|[k0 c0] grouped]; [simpl in Hsum; lia|].
  apply Forall_cons in Hpos as [Hc0 Hpos]. simpl in Hc0, Hsum.
  destruct grouped as [|[k1 c1] grouped].
  { simpl in Hsum. assert (c0 = 5) as -> by lia.
    unfold firstTwoCounts, groupAt. simpl.
    destruct isFLUSH, isSTRAIGHT; eauto. }
  apply Forall_cons in Hpos as [Hc1 Hpos]. simpl in Hc1, Hsum.
  unfold firstTwoCounts, groupAt. simpl.
  repeat match goal with
         | |- exists e, Ok _ = Ok e => eexists; reflexivity
         | |- context [?x =? ?y] => destruct (Z.eqb_spec x y); simpl
         | |- context [if ?b then _ else _] => destruct b; simpl
         end.
  subst c0 c1.
  destruct grouped as [|[k2 c2] grouped]; [simpl in Hsum; lia|].
  simpl in Hnd. apply NoDup_cons in Hnd as [Hk0 Hnd].
  apply NoDup_cons in Hnd as [Hk1 _].
  assert (Hin : k2 ∈ rankValues) by (apply Hkeys'; simpl; by do 2 right; left).
  assert (H02 : k2 <> k0) by (intros ->; apply Hk0; right; left).
  assert (H12 : k2 <> k1) by (intros ->; apply Hk1; left).
  destruct (List.find _ rankValues) as [kicker|] eqn:Hfind; [eauto|].
  apply list_elem_of_In in Hin.
  pose proof (find_none _ _ Hfind _ Hin) as Hno. simpl in Hno.
  destruct (Z.eqb_spec k2 (Z.max k0 k1)), (Z.eqb_spec k2 (Z.min k0 k1));
    simpl in Hno; try discriminate; lia.
Qed.

Lemma evaluateFive_five cards :
  length cards = 5%nat -> exists e, evaluateFive cards = Ok e.
Proof.
  intros Hlen. rewrite evaluateFive_classify. apply classifyFive_five.
  unfold rankValuesOf. by rewrite sortBy_length, !length_map.
Qed.

Lemma getCombinations_length {T} (arr : list T) k combo :
  combo ∈ getCombinations arr k -> length combo = k.
Proof.
  revert arr combo. induction k as [|k IHk]; intros arr combo.
  - destruct arr; simpl; by intros ->%list_elem_of_singleton.
  - induction arr as [|first rest IHarr]; [by intros ?%elem_of_nil|].
    cbn [getCombinations]. destruct (_ <? _)%nat; [by intros ?%elem_of_nil|].
    intros [H|H]%elem_of_app; [by apply IHarr|].
    apply list_elem_of_fmap in H as (c & -> & Hc). simpl. f_equal. by eapply IHk.
Qed.

Lemma getCombinations_nonempty {T} (arr : list T) k :
  (k <= length arr)%nat -> getCombinations arr k <> [].
Proof.
  revert arr. induction k as [|k IHk]; intros arr Hk; [by destruct arr|].
  destruct arr as [|first rest]; [simpl in Hk; lia|].
  cbn [getCombinations]. destruct (Nat.ltb_spec (length (first :: rest)) (S k)); [lia|].
  simpl in Hk. specialize (IHk rest ltac:(lia)).
  destruct (getCombinations rest k); [done|].
  intros Happ. apply app_eq_nil in Happ as [_ Hmap]. discriminate.
Qed.

Lemma bestOf_five best combos :
  (forall combo, combo ∈ combos -> length combo = 5%nat) ->
  exists best',
    bestOf best combos = Ok best' /\
    (best <> None \/ combos <> [] -> best' <> None).
Proof.
  revert best. induction combos as [|combo combos IH]; intros best Hlen.
  - exists best. split; [done|]. by intros [?|?].
  - cbn [bestOf].
    destruct (evaluateFive_five combo (Hlen _ ltac:(left))) as [e ->]. simpl.
    assert (Hrest : forall c, c ∈ combos -> length c = 5%nat)
      by (intros c Hc; apply Hlen; by right).
    destruct best as [b|].
    + destruct (isPositive _); [destruct (IH (Some e) Hrest) as (b' & -> & Hb')
                               |destruct (IH (Some b) Hrest) as (b' & -> & Hb')];
        exists b'; (split; [done|]); intros _; apply Hb'; by left.
    + destruct (IH (Some e) Hrest) as (b' & -> & Hb').
      exists b'. split; [done|]. intros _. apply Hb'. by left.
Qed.

Lemma cardToKey_inj c1 c2 : cardToKey c1 = cardToKey c2 -> c1 = c2.
Proof.
  destruct c1 as [r1 s1], c2 as [r2 s2].
  destruct r1, r2; try (destruct s1, s2; discriminate);
    destruct s1, s2; (reflexivity || discriminate).
Qed.

Lemma scanDuplicates_NoDup seen cs :
  NoDup cs -> (forall c, c ∈ cs -> cardToKey c ∉ seen) ->
  scanDuplicates seen (map Some cs) = Ok cs.
Proof.
  revert seen. induction cs as [|c cs IH]; intros seen Hnd Hseen; [done|].
  apply NoDup_cons in Hnd as [Hc Hnd]. cbn [map scanDuplicates].
  rewrite bool_decide_eq_false_2 by (apply Hseen; left).
  rewrite IH; [done|done|].
  intros c' Hc' [Heq|Hin]%elem_of_cons.
  - apply cardToKey_inj in Heq as ->. done.
  - apply (Hseen c'); [by right|done].
Qed.

(** [evaluateBestHand] returns on five to seven distinct cards. *)
Lemma evaluateBestHand_distinct cs :
  (5 <= length cs <= 7)%nat -> NoDup cs ->
  exists e, evaluateBestHand (map Some cs) = Ok e.
Proof.
  intros [Hlo Hhi] Hnd. unfold evaluateBestHand. rewrite length_map.
  destruct (Nat.ltb_spec (length cs) 5); [lia|].
  destruct (Nat.ltb_spec 7 (length cs)); [lia|].
  rewrite scanDuplicates_NoDup; [|done|intros c _ Hc; by apply elem_of_nil in Hc].
  simpl.
  destruct (bestOf_five None (getCombinations cs 5)) as (best & -> & Hbest).
  { intros combo. apply getCombinations_length. }
  simpl. destruct best as [e|]; [eauto|].
  exfalso. apply Hbest; [|done]. right. by apply getCombinations_nonempty.
Qed.

Lemma compareTiebreakers_refl l : compareTiebreakers l l = Some 0.
Proof. induction l as [|x l IH]; simpl; [done|]. by rewrite Z.eqb_refl. Qed.

Lemma compareHands_refl e : compareHands e e = Some 0.
Proof.
  unfold compareHands. rewrite Z.sub_diag. simpl. apply compareTiebreakers_refl.
Qed.

(** ** Showdown *)

Lemma mapM_Ok {X Y} (f : X -> Result Y) (P : X -> Y -> Prop) l :
  (forall x, x ∈ l -> exists y, f x = Ok y /\ P x y) ->
  exists ys, mapM f l = Ok ys /\ Forall2 P l ys.
Proof.
  induction l as [|x l IH]; intros H.
  - exists []. by split.
  - destruct (H x ltac:(left)) as (y & Hy & HP).
    destruct IH as (ys & Hys & HF); [intros ? ?; apply H; by right|].
    exists (y :: ys). simpl. rewrite Hy. simpl. rewrite Hys. simpl.
    split; [done|by constructor].
Qed.

Lemma filter_all {X} (f : X -> bool) l :
  Forall (fun x => f x = true) l -> List.filter f l = l.
Proof. induction 1 as [|x l Hx _ IH]; simpl; [done|]. by rewrite Hx, IH. Qed.

Lemma best_is_some_result (results : list (nat * EvaluatedHand)) init :
  foldl (fun best r => if isPositive (compareHands (snd r) best) then snd r else best)
        init results = init
  \/ exists r, r ∈ results /\
       foldl (fun best r => if isPositive (compareHands (snd r) best) then snd r else best)
             init results = snd r.
Proof.
  revert init. induction results as [|r results IH]; intros init; [by left|].
  cbn [foldl]. destruct (isPositive _).
  - destruct (IH (snd r)) as [->|(r' & Hr' & ->)]; right.
    + exists r. split; [left|done].
    + exists r'. split; [by right|done].
  - destruct (IH init) as [->|(r' & Hr' & ->)]; [by left|right].
    exists r'. split; [by right|done].
Qed.

Lemma SHOWDOWN_returns ps community :
  ps <> [] ->
  Forall (fun sp => negb (isFolded (snd sp)) = true) ps ->
  showdownReady community ps ->
  exists winners,
    SHOWDOWN ps community = Ok winners /\
    winners <> [] /\
    (forall w, w ∈ winners -> fst w ∈ map fst ps).
Proof.
  intros Hne Hlive [[Hlo Hhi] Hcards]. unfold SHOWDOWN.
  destruct (Nat.ltb_spec (length community) 3); [lia|].
  destruct (Nat.ltb_spec 5 (length community)); [lia|]. simpl orb. cbv iota.
  rewrite (filter_all _ _ Hlive).
  destruct (Nat.eqb_spec (length ps) 0) as [Hz|_];
    [by apply nil_length_inv in Hz|].
  match goal with
  | |- context [mapM ?f ps] =>
      destruct (mapM_Ok f (fun sp r => fst r = fst sp) ps) as (results & -> & HF)
  end.
  { intros sp Hsp. rewrite Forall_forall in Hcards.
    destruct (Hcards sp Hsp) as [H2 Hnd]. rewrite H2. simpl.
    destruct (evaluateBestHand_distinct (hand (snd sp) ++ community)) as [e ->];
      [rewrite length_app; lia|done|].
    simpl. by eexists. }
  simpl.
  assert (Hseats : map fst results = map fst ps).
  { clear -HF. induction HF as [|sp r ps results Hr _ IH]; simpl; [done|].
    by rewrite Hr, IH. }
  destruct results as [|r0 others].
  { destruct ps; [done|discriminate]. }
  set (bestEval := foldl _ (snd r0) others).
  eexists. split; [reflexivity|]. split.
  - assert (Hb : exists r, r ∈ r0 :: others /\ bestEval = snd r).
    { destruct (best_is_some_result others (snd r0)) as [H1|(r & Hr & H1)].
      - exists r0. split; [left|done].
      - exists r. split; [by right|done]. }
    destruct Hb as (r & Hr & Hbest).
    assert (Hin : In r (List.filter
                          (fun r => isZero (compareHands (snd r) bestEval))
                          (r0 :: others))).
    { apply filter_In. split; [by apply list_elem_of_In|].
      by rewrite Hbest, compareHands_refl. }
    intros Hnil. rewrite Hnil in Hin. done.
  - intros w Hw. apply list_elem_of_In, filter_In in Hw as [Hw _].
    rewrite <- Hseats. apply list_elem_of_fmap. exists w. split; [done|].
    by apply list_elem_of_In.
Qed.

(** ** Distribution *)

Lemma sameTable_refl g : sameTable g g.
Proof.
  split; [done|]. induction (players g); constructor; done.
Qed.

Lemma sameTable_trans g1 g2 g3 : sameTable g1 g2 -> sameTable g2 g3 -> sameTable g1 g3.
Proof.
  intros [Hc1 H1] [Hc2 H2]. split; [congruence|].
  eapply Forall2_trans; [|exact H1|exact H2].
  intros p q r [? ?] [? ?]. split; congruence.
Qed.

Lemma sameTable_credit g i a :
  sameTable g (updPlayer i (fun p => setChips (chips p + a) p) g).
Proof.
  split; [done|]. simpl. apply Forall2_same_length_lookup_2.
  - by rewrite length_alter.
  - intros j p q Hp Hq. destruct (decide (i = j)) as [<-|Hne].
    + rewrite list_lookup_alter_eq, Hp in Hq. simpl in Hq. by injection Hq as <-.
    + rewrite list_lookup_alter_ne in Hq by done. by simplify_eq.
Qed.

Lemma sumChips_credit g i a :
  (i < length (players g))%nat ->
  sumChips (players (updPlayer i (fun p => setChips (chips p + a) p) g))
  = sumChips (players g) + a.
Proof.
  intros Hi. apply lookup_lt_is_Some in Hi as [p Hp]. simpl.
  rewrite (sumChips_alter _ _ p) by done. simpl. lia.
Qed.

Lemma deref_sameTable ps ps' seats :
  Forall2 (fun p p' => isFolded p' = isFolded p /\ hand p' = hand p) ps ps' ->
  Forall2 (fun sp sp' => fst sp' = fst sp /\ isFolded (snd sp') = isFolded (snd sp)
                         /\ hand (snd sp') = hand (snd sp))
          (deref ps seats) (deref ps' seats).
Proof.
  intros HF. unfold deref. induction seats as [|i seats IH]; simpl; [constructor|].
  destruct (ps !! i) as [p|] eqn:Hp.
  - destruct (Forall2_lookup_l _ _ _ _ _ HF Hp) as (p' & -> & ? & ?).
    simpl. by constructor.
  - assert (ps' !! i = None) as ->; [|done].
    apply lookup_ge_None. apply lookup_ge_None in Hp.
    by rewrite <- (Forall2_length _ _ _ HF).
Qed.

Lemma liveEligible_sameTable g g' pot :
  sameTable g g' ->
  Forall2 (fun sp sp' => fst sp' = fst sp /\ isFolded (snd sp') = isFolded (snd sp)
                         /\ hand (snd sp') = hand (snd sp))
          (liveEligible g pot) (liveEligible g' pot).
Proof.
  intros [_ HF]. unfold liveEligible.
  pose proof (deref_sameTable _ _ (Pot.eligiblePlayers pot) HF) as HD.
  induction HD as [|sp sp' l l' Hsp _ IH]; simpl; [constructor|].
  destruct Hsp as (Hs & Hf & Hh). rewrite Hf.
  destruct (negb _); [by constructor|done].
Qed.

Lemma potReady_sameTable g g' pot : sameTable g g' -> potReady g pot -> potReady g' pot.
Proof.
  intros Hsame (Hamt & Hne & Hshow).
  pose proof (liveEligible_sameTable g g' pot Hsame) as HF.
  pose proof (Forall2_length _ _ _ HF) as Hlen.
  split_and!; [done| |].
  - intros Hnil. rewrite Hnil in Hlen. by destruct (liveEligible g pot).
  - intros H2. rewrite <- Hlen in H2. destruct (Hshow H2) as [Hcc Hcards].
    destruct Hsame as [-> _]. split; [done|].
    clear -HF Hcards. induction HF as [|sp sp' l l' (_ & _ & Hh) _ IH];
      [constructor|].
    apply Forall_cons in Hcards as [Hsp Hcards]. constructor; [|by apply IH].
    by rewrite Hh.
Qed.

Lemma sumAwards_app a b : sumAwards (a ++ b) = sumAwards a + sumAwards b.
Proof.
  unfold sumAwards. induction a as [|x a IH]; simpl; [done|]. rewrite IH. lia.
Qed.

(** Paying the winners of one pot, starting at position [index]. *)
Lemma payWinners_spec potId share remainder winners :
  forall index g,
    (forall w, w ∈ winners -> (fst w < length (players g))%nat) ->
    exists g' ds,
      payWinners potId share remainder index winners g = (g', ds) /\
      ds = splitAwards potId share remainder index winners /\
      sameTable g g' /\
      sumChips (players g') = sumChips (players g) + sumAwards ds /\
      sumAwards ds
      = Z.of_nat (length winners) * share
        + Z.max 0 (Z.min remainder (Z.of_nat index + Z.of_nat (length winners))
                   - Z.of_nat index) /\
      Forall (fun d => PotDistribution.potId d = potId /\
                       (PotDistribution.amount d = share \/
                        PotDistribution.amount d = share + 1) /\
                       PotDistribution.player d ∈ map fst winners) ds.
Proof.
  induction winners as [|[seat ev] winners IH]; intros index g Hseats.
  - exists g, []. split_and!; [done|done|apply sameTable_refl| | |constructor];
      unfold sumAwards; simpl; lia.
  - cbn [payWinners].
    set (amt := share + (if Z.of_nat index <? remainder then 1 else 0)).
    set (g1 := updPlayer seat _ g).
    assert (Hseat : (seat < length (players g))%nat)
      by (apply (Hseats (seat, ev)); left).
    destruct (IH (S index) g1) as (g' & ds & -> & Hawards & Hsame & Hchips & Hsum & Hds).
    { intros w Hw. subst g1. simpl. rewrite length_alter. apply Hseats. by right. }
    eexists _, _. split; [reflexivity|].
    split_and!.
    + simpl. by rewrite Hawards.
    + eapply sameTable_trans; [apply sameTable_credit|exact Hsame].
    + rewrite Hchips. subst g1. rewrite sumChips_credit by done.
      unfold sumAwards. simpl. fold (sumAwards ds). lia.
    + unfold sumAwards. simpl. fold (sumAwards ds). rewrite Hsum. subst amt.
      destruct (Z.ltb_spec (Z.of_nat index) remainder); simpl length; lia.
    + constructor.
      * simpl. split_and!; [done| |left].
        subst amt. destruct (_ <? _); [right|left]; lia.
      * eapply Forall_impl; [exact Hds|]. intros d (? & ? & ?).
        split_and!; [done|done|]. simpl. by right.
Qed.

(** [SHOWDOWN] looks at seats, hole cards and folded flags only. *)
Lemma filter_live_related ps ps' :
  Forall2 (fun sp sp' : nat * Player =>
             fst sp' = fst sp /\ isFolded (snd sp') = isFolded (snd sp)
             /\ hand (snd sp') = hand (snd sp)) ps ps' ->
  Forall2 (fun sp sp' : nat * Player =>
             fst sp' = fst sp /\ isFolded (snd sp') = isFolded (snd sp)
             /\ hand (snd sp') = hand (snd sp))
          (List.filter (fun sp => negb (isFolded (snd sp))) ps)
          (List.filter (fun sp => negb (isFolded (snd sp))) ps').
Proof.
  induction 1 as [|sp sp' l l' Hsp _ IH]; simpl; [constructor|].
  destruct Hsp as (Hs & Hf & Hh). rewrite Hf.
  destruct (negb _); [by constructor|done].
Qed.

Lemma mapM_inv {X Y Z'} (f : X -> Result Y) (k : list Y -> Result Z') l z :
  (ys ← mapM f l; k ys) = Ok z -> exists ys, mapM f l = Ok ys /\ k ys = Ok z.
Proof. destruct (mapM f l) as [ys|e]; simpl; [eauto|discriminate]. Qed.

Lemma SHOWDOWN_sameTable ps ps' community winners :
  Forall2 (fun sp sp' : nat * Player =>
             fst sp' = fst sp /\ isFolded (snd sp') = isFolded (snd sp)
             /\ hand (snd sp') = hand (snd sp)) ps ps' ->
  SHOWDOWN ps' community = Ok winners -> SHOWDOWN ps community = Ok winners.
Proof.
  intros HF. apply filter_live_related in HF. unfold SHOWDOWN.
  destruct (_ || _); [done|]. rewrite (Forall2_length _ _ _ HF).
  destruct (_ =? 0)%nat; [done|].
  intros H. apply mapM_inv in H as (results & Hres & Hrest).
  match goal with
  | |- (_ ← mapM ?f _; _) = _ => assert (Hmap : mapM f (List.filter
                 (fun sp => negb (isFolded (snd sp))) ps) = Ok results)
  end.
  { clear Hrest. revert results Hres.
    induction HF as [|sp sp' l l' (Hs & _ & Hh) _ IH]; intros results; [done|].
    cbn [mapM]. rewrite Hh, Hs.
    destruct (negb _); [discriminate|].
    destruct (evaluateBestHand _) as [e|]; [|discriminate]. simpl.
    destruct (mapM _ l') as [rs|]; [|discriminate]. simpl.
    intros [= <-]. by rewrite (IH rs eq_refl). }
  rewrite Hmap. exact Hrest.
Qed.

Lemma paidFairly_sameTable g g' pot ds :
  sameTable g g' -> paidFairly g' pot ds -> paidFairly g pot ds.
Proof.
  intros Hsame (Hsum & Hin & Hspread & Hone & Hsplit).
  pose proof (liveEligible_sameTable g g' pot Hsame) as HF.
  assert (Hseats : map fst (liveEligible g' pot) = map fst (liveEligible g pot)).
  { clear -HF. induction HF as [|sp sp' l l' (Hs & _) _ IH]; simpl; [done|].
    by rewrite Hs, IH. }
  split_and!; [done| |done| |].
  - intros d Hd. rewrite <- Hseats. by apply Hin.
  - intros w p Hw. rewrite Hw in HF.
    inversion HF as [|? [w' p'] ? l' (Hs & _) Hrest Heq1 Heq2]; subst.
    inversion Hrest; subst. simpl in Hs. subst w'. by eapply Hone.
  - intros H2. rewrite (Forall2_length _ _ _ HF) in H2.
    destruct (Hsplit H2) as (winners & Hshow & Hds). exists winners.
    split; [|done]. destruct Hsame as [Hcc _]. rewrite <- Hcc.
    by eapply SHOWDOWN_sameTable.
Qed.

Lemma distributeSinglePot_spec g pot :
  potReady g pot ->
  exists g' r,
    distributeSinglePot g pot = Ok (g', r) /\
    sameTable g g' /\
    PotResult.totalDistributed r = Pot.amount pot /\
    sumChips (players g') = sumChips (players g) + Pot.amount pot /\
    paidFairly g pot (PotResult.distributions r).
Proof.
  intros (Hamt & Hne & Hshow). unfold distributeSinglePot.
  fold (liveEligible g pot).
  assert (Hvalid : forall sp, sp ∈ liveEligible g pot ->
                              (fst sp < length (players g))%nat).
  { intros [i p] Hsp. apply list_elem_of_In, filter_In in Hsp as [Hsp _].
    apply list_elem_of_In in Hsp. unfold deref in Hsp.
    apply list_elem_of_omap in Hsp as (k & _ & Hk).
    destruct (players g !! k) eqn:E; [|discriminate]. simpl in Hk.
    injection Hk as <- <-. simpl. by apply lookup_lt_Some in E. }
  assert (Hlive : Forall (fun sp => negb (isFolded (snd sp)) = true)
                         (liveEligible g pot)).
  { apply Forall_forall. intros sp Hsp.
    by apply list_elem_of_In, filter_In in Hsp as [_ Hsp]. }
  destruct (liveEligible g pot) as [|[w p] [|sp2 rest]] eqn:Elive; [done| |].
  - eexists _, _. split; [reflexivity|]. simpl.
    split_and!; [apply sameTable_credit|done| |].
    + apply sumChips_credit. apply (Hvalid (w, p)). left.
    + unfold paidFairly. rewrite Elive. split_and!.
      * unfold sumAwards. simpl. lia.
      * intros d ->%list_elem_of_singleton. simpl. split; [done|left].
      * intros d1 d2 ->%list_elem_of_singleton ->%list_elem_of_singleton. lia.
      * by intros w' p' [= <- <-].
      * simpl. lia.
  - destruct (SHOWDOWN_returns ((w, p) :: sp2 :: rest) (communityCards g))
      as (winners & Hrun & Hwne & Hwin); [done|done|apply Hshow; simpl; lia|].
    rewrite Hrun. simpl.
    set (count := Z.of_nat (length winners)).
    destruct (payWinners_spec (Pot.id pot) (Pot.amount pot / count)
                (Z.rem (Pot.amount pot) count) winners 0 g)
      as (g' & ds & -> & Hawards & Hsame & Hchips & Hsum & Hds).
    { intros wn Hwn. specialize (Hwin wn Hwn).
      apply list_elem_of_fmap in Hwin as (sp & -> & Hsp). by apply Hvalid. }
    assert (Hcount : 0 < count).
    { subst count. destruct winners; [done|simpl; lia]. }
    assert (Htotal : sumAwards ds = Pot.amount pot).
    { rewrite Hsum. fold count. rewrite Z.rem_mod_nonneg by lia.
      pose proof (Z.mod_pos_bound (Pot.amount pot) count Hcount).
      pose proof (Z.div_mod (Pot.amount pot) count ltac:(lia)). lia. }
    eexists _, _. split; [reflexivity|]. simpl.
    split_and!; [done|done|lia|].
    rewrite Forall_forall in Hds. unfold paidFairly. rewrite Elive.
    split_and!; [done| | |done|by intros _; exists winners].
    + intros d Hd. destruct (Hds d Hd) as (? & _ & Hp). split; [done|].
      apply list_elem_of_fmap in Hp as (wn & -> & Hwn). by apply Hwin.
    + intros d1 d2 H1 H2. destruct (Hds d1 H1) as (_ & Ha1 & _).
      destruct (Hds d2 H2) as (_ & Ha2 & _). lia.
Qed.

(** A pot that nobody can be paid from is passed over. *)
Lemma distributeSinglePot_orphan g pot :
  liveEligible g pot = [] ->
  distributeSinglePot g pot = Ok (g, PotResult.mk [] 0 "No eligible players for pot").
Proof. intros Hnone. unfold distributeSinglePot. fold (liveEligible g pot). by rewrite Hnone. Qed.

Lemma livePots_cons g pot pots :
  livePots g (pot :: pots)
  = if (length (liveEligible g pot) =? 0)%nat then livePots g pots
    else pot :: livePots g pots.
Proof. unfold livePots. simpl. by destruct (_ =? 0)%nat. Qed.


Lemma distributeEach_spec g pots :
  forall g1 ds0 t0,
    sameTable g g1 ->
    Forall (fun pot => liveEligible g pot = [] \/ potReady g pot) pots ->
    exists g' perPot,
      distributeEach pots g1 ds0 t0
      = Ok (g', (ds0 ++ concat perPot)%list, t0 + sumPots (livePots g pots)) /\
      sameTable g g' /\
      sumChips (players g') = sumChips (players g1) + sumPots (livePots g pots) /\
      Forall2 (settled g) pots perPot.
Proof.
  induction pots as [|pot pots IH]; intros g1 ds0 t0 Hsame Hready.
  - exists g1, []. simpl. rewrite app_nil_r.
    replace (sumPots (livePots g [])) with 0 by done. rewrite !Z.add_0_r.
    split_and!; [done|done|done|constructor].
  - apply Forall_cons in Hready as [Hpot Hready]. cbn [distributeEach].
    rewrite livePots_cons.
    pose proof (Forall2_length _ _ _ (liveEligible_sameTable g g1 pot Hsame)) as Hlen.
    destruct Hpot as [Hnone|Hpot].
    + assert (Hnone1 : liveEligible g1 pot = []).
      { rewrite Hnone in Hlen. by destruct (liveEligible g1 pot). }
      rewrite (distributeSinglePot_orphan _ _ Hnone1). simpl.
      destruct (IH g1 (ds0 ++ [])%list (t0 + 0) Hsame Hready)
        as (g' & perPot & -> & Hsame' & Hchips' & Hfair').
      exists g', ([] :: perPot). rewrite Hnone. simpl.
      rewrite app_nil_r, Z.add_0_r.
      split_and!; [done|done|done|]. constructor; [|done]. by split.
    + destruct (distributeSinglePot_spec g1 pot (potReady_sameTable _ _ _ Hsame Hpot))
        as (g2 & r & -> & Hsame2 & Htotal & Hchips & Hfair).
      simpl.
      destruct (IH g2 (ds0 ++ PotResult.distributions r)%list
                   (t0 + PotResult.totalDistributed r)
                   (sameTable_trans _ _ _ Hsame Hsame2) Hready)
        as (g' & perPot & -> & Hsame' & Hchips' & Hfair').
      exists g', (PotResult.distributions r :: perPot).
      destruct Hpot as (_ & Hne & _).
      destruct (liveEligible g pot) eqn:Elive; [done|]. simpl length. simpl Nat.eqb.
      cbv iota.
      split_and!.
      * simpl concat. rewrite <- app_assoc.
        replace (sumPots (pot :: livePots g pots))
          with (Pot.amount pot + sumPots (livePots g pots)) by done.
        rewrite Htotal. by rewrite Z.add_assoc.
      * done.
      * rewrite Hchips', Hchips. unfold sumPots. simpl.
        fold (sumPots (livePots g pots)). lia.
      * constructor; [|done]. split; [by rewrite Elive|]. intros _.
        exact (paidFairly_sameTable _ _ _ _ Hsame Hfair).
Qed.

Lemma sumAwards_concat pots perPot g :
  Forall2 (settled g) pots perPot ->
  sumAwards (concat perPot) = sumPots (livePots g pots).
Proof.
  induction 1 as [|pot ds pots perPot [Hskip Hpaid] _ IH]; [done|].
  rewrite livePots_cons. simpl concat. rewrite sumAwards_app, IH.
  destruct (liveEligible g pot) eqn:Elive.
  - by rewrite (Hskip eq_refl).
  - destruct (Hpaid ltac:(done)) as (Hsum & _). rewrite Hsum.
    unfold sumPots. simpl. done.
Qed.

(** ** Who is credited *)

Lemma awardedTo_app i a b : awardedTo i (a ++ b) = awardedTo i a + awardedTo i b.
Proof. unfold awardedTo. by rewrite List.filter_app, sumAwards_app. Qed.

Lemma awardedTo_cons i d ds :
  awardedTo i (d :: ds)
  = (if bool_decide (PotDistribution.player d = i) then PotDistribution.amount d
     else 0) + awardedTo i ds.
Proof. unfold awardedTo. simpl. by destruct (bool_decide _). Qed.

Lemma credit_nothing (p : Player) : setChips (chips p + 0) p = p.
Proof. destruct p. unfold setChips. simpl. by rewrite Z.add_0_r. Qed.

Lemma credit_twice (a b : Z) (p : Player) :
  setChips (chips (setChips (chips p + a) p) + b) (setChips (chips p + a) p)
  = setChips (chips p + (a + b)) p.
Proof. destruct p. unfold setChips. simpl. by rewrite Z.add_assoc. Qed.

Lemma credit_no_awards (ps : list Player) j :
  ps !! j = (fun p => setChips (chips p + awardedTo j []) p) <$> ps !! j.
Proof.
  destruct (ps !! j) as [p|]; [|done].
  cbv beta iota delta [fmap option_fmap option_map]. f_equal. symmetry.
  apply credit_nothing.
Qed.

(** Crediting seat [seat] and then every seat according to [ds] credits
    every seat according to the award to [seat] followed by [ds]. *)
Lemma credit_then_awards (ps ps' : list Player) seat amount d ds :
  PotDistribution.player d = seat -> PotDistribution.amount d = amount ->
  (forall j, ps' !! j
             = (fun p => setChips (chips p + awardedTo j ds) p)
                 <$> alter (fun p => setChips (chips p + amount) p) seat ps !! j) ->
  forall j, ps' !! j
            = (fun p => setChips (chips p + awardedTo j (d :: ds)) p) <$> ps !! j.
Proof.
  intros Hseat Hamount Hps' j. rewrite Hps', awardedTo_cons, Hseat, Hamount.
  destruct (decide (seat = j)) as [->|Hne].
  - rewrite list_lookup_alter_eq, bool_decide_eq_true_2 by done.
    destruct (ps !! j) as [p|]; [|done].
    cbv beta iota delta [fmap option_fmap option_map]. f_equal. apply credit_twice.
  - rewrite list_lookup_alter_ne, bool_decide_eq_false_2 by done.
    by rewrite Z.add_0_l.
Qed.

Lemma payWinners_credit potId share remainder winners :
  forall index g g' ds,
    payWinners potId share remainder index winners g = (g', ds) ->
    g' = setPlayers (players g') g /\
    forall j, players g' !! j
              = (fun p => setChips (chips p + awardedTo j ds) p) <$> players g !! j.
Proof.
  induction winners as [|[seat ev] winners IH]; intros index g g' ds Hrun.
  - simpl in Hrun. injection Hrun as <- <-. split; [by destruct g|].
    intros j. apply credit_no_awards.
  - cbn [payWinners] in Hrun.
    destruct (payWinners potId share remainder (S index) winners _)
      as [g2 ds2] eqn:Hrest.
    injection Hrun as <- <-.
    destruct (IH _ _ _ _ Hrest) as [Hframe Hcredit]. split.
    + rewrite Hframe at 1. reflexivity.
    + by eapply credit_then_awards.
Qed.

Lemma distributeSinglePot_credit g pot g' r :
  distributeSinglePot g pot = Ok (g', r) ->
  g' = setPlayers (players g') g /\
  forall j, players g' !! j
            = (fun p => setChips (chips p + awardedTo j (PotResult.distributions r)) p)
                <$> players g !! j.
Proof.
  unfold distributeSinglePot.
  destruct (List.filter _ _) as [|[winner w] [|sp2 rest]].
  - intros [= <- <-]. split; [by destruct g|].
    intros j. apply credit_no_awards.
  - intros [= <- <-]. split; [reflexivity|]. simpl.
    eapply credit_then_awards; [reflexivity|reflexivity|].
    intros j. apply credit_no_awards.
  - destruct (SHOWDOWN _ _) as [winners|]; [|discriminate]. simpl.
    destruct (payWinners _ _ _ _ _ _) as [g1 ds] eqn:Hpay.
    intros [= <- <-]. simpl. by eapply payWinners_credit.
Qed.

Lemma distributeEach_credit pots :
  forall g ds0 t0 g' ds t,
    distributeEach pots g ds0 t0 = Ok (g', ds, t) ->
    exists awards,
      ds = (ds0 ++ awards)%list /\
      g' = setPlayers (players g') g /\
      forall j, players g' !! j
                = (fun p => setChips (chips p + awardedTo j awards) p)
                    <$> players g !! j.
Proof.
  induction pots as [|pot pots IH]; intros g ds0 t0 g' ds t Hrun.
  - simpl in Hrun. injection Hrun as <- <- <-. exists [].
    rewrite app_nil_r. split_and!; [done|by destruct g|].
    intros j. apply credit_no_awards.
  - cbn [distributeEach] in Hrun.
    destruct (distributeSinglePot g pot) as [[g1 r]|] eqn:Hpot; [|discriminate].
    simpl in Hrun.
    destruct (distributeSinglePot_credit _ _ _ _ Hpot) as [Hframe1 Hcredit1].
    destruct (IH _ _ _ _ _ _ Hrun) as (awards & -> & Hframe & Hcredit).
    exists (PotResult.distributions r ++ awards)%list.
    split_and!; [by rewrite app_assoc| |].
    + rewrite Hframe at 1. rewrite Hframe1 at 1. reflexivity.
    + intros j. rewrite Hcredit, Hcredit1, awardedTo_app.
      destruct (players g !! j) as [p|]; [|done].
      cbv beta iota delta [fmap option_fmap option_map]. f_equal. apply credit_twice.
Qed.

(** C3 (as stated in the specification).  Not every list of pots is paid out
    in full: a pot without an eligible player who has not folded is skipped,
    so 0 of its 30 chips are distributed; and a contested pot cannot be paid
    before the flop, where [SHOWDOWN] throws. *)
Lemma distributeAllPots_skips_orphan_pot :
  (exists g' result,
      distributeAllPots blindsFolded [orphanPot] = Ok (g', result) /\
      PotResult.totalDistributed result = 0 /\
      PotResult.distributions result = [] /\
      sumChips (players g') = sumChips (players blindsFolded) /\
      sumPots [orphanPot] = 30) /\
  distributeAllPots headsUpCalled [preflopPot]
  = Throw (Error COMMUNITY_CARDS_INVALID_COUNT).
Proof.
  split; [|by vm_compute].
  eexists _, _. split; [by vm_compute|]. split_and!; reflexivity.
Qed.

(** C3 (amended).  Chip amounts are whole numbers.  Take any list of pots in
    which every pot either has no eligible player who has not folded, or can
    be paid out: a non-negative amount and, if contested, three to five
    community cards and two hole cards per contender without duplicates.
    [distributeAllPots] returns; it passes over the pots nobody can be paid
    from, which get no award and move no chips, and distributes exactly the
    total of the other pots, in [totalDistributed] and in the awards it
    lists.  Every award is added to the stack of the player it names and
    nothing else changes: each seat ends with its chips plus the awards
    listed for it, all other player fields are as before, and of the game
    state only the pot field, which is zeroed.  Pot by pot, a single eligible
    non-folded player receives the whole pot; otherwise the pot goes to the
    winners of [SHOWDOWN] among the eligible non-folded players, each
    receiving the even share and the first [amount mod winners] of them, in
    the order of the showdown result, one chip more, so that the awards add
    up to the pot and differ from one another by at most 1 chip. *)
Theorem distributeAllPots_exact (g : GameState) (pots : list Pot.t) :
  Forall (fun pot => liveEligible g pot = [] \/ potReady g pot) pots ->
  exists g' result perPot,
    distributeAllPots g pots = Ok (g', result) /\
    PotResult.totalDistributed result = sumPots (livePots g pots) /\
    sumAwards (PotResult.distributions result) = sumPots (livePots g pots) /\
    sumChips (players g') = sumChips (players g) + sumPots (livePots g pots) /\
    g' = setPot 0 (setPlayers (players g') g) /\
    length (players g') = length (players g) /\
    (forall i p,
        players g !! i = Some p ->
        players g' !! i
        = Some (setChips (chips p + awardedTo i (PotResult.distributions result)) p)) /\
    PotResult.distributions result = concat perPot /\
    Forall2 (settled g) pots perPot.
Proof.
  intros Hready. unfold distributeAllPots.
  destruct (distributeEach_spec g pots g [] 0 (sameTable_refl g) Hready)
    as (g' & perPot & Hrun & Hsame & Hchips & Hfair).
  destruct (distributeEach_credit _ _ _ _ _ _ _ Hrun) as (awards & Hds & Hframe & Hcredit).
  simpl in Hds. rewrite Hrun.
  simpl. eexists _, _, perPot. split; [reflexivity|]. simpl.
  split_and!; [lia|by eapply sumAwards_concat|done| | | |done|done].
  - rewrite Hframe at 1. reflexivity.
  - destruct Hsame as [_ HF]. symmetry. by eapply Forall2_length.
  - intros i p Hp. by rewrite Hcredit, Hds, Hp.
Qed.

(** Settles [potReady] for a pot and a state given in full. *)
Ltac concrete_potReady :=
  match goal with
  | |- potReady ?g ?pot =>
      let live := eval vm_compute in (liveEligible g pot) in
      unfold potReady; change (liveEligible g pot) with live;
      split_and!;
      [ done
      | discriminate
      | simpl length; intros Hcontested;
        first
          [ exfalso; lia
          | split; [simpl; lia|];
            repeat (apply Forall_cons; split;
                    [split; [reflexivity
                            |apply (bool_decide_unpack _); vm_compute; reflexivity]|]);
            apply Forall_nil_2 ] ]
  end.

Lemma distributeAllPots_exact_witness :
  exists g' result,
    distributeAllPots riverShowdown (createAllPots riverShowdown) = Ok (g', result) /\
    PotResult.totalDistributed result = 600 /\
    sumChips (players g') = sumChips (players riverShowdown) + 600.
Proof.
  assert (Hpots : createAllPots riverShowdown
                  = [Pot.mk "pot-0" 300 [0; 1]%nat true 100;
                     Pot.mk "pot-1" 300 [1]%nat false 250])
    by (vm_compute; reflexivity).
  rewrite Hpots.
  destruct (distributeAllPots_exact riverShowdown
              [Pot.mk "pot-0" 300 [0; 1]%nat true 100;
               Pot.mk "pot-1" 300 [1]%nat false 250])
    as (g' & result & perPot & Hrun & Htotal & _ & Hchips & _).
  - repeat (apply Forall_cons; split; [right; concrete_potReady|]). apply Forall_nil_2.
  - exists g', result. split; [exact Hrun|]. split; [exact Htotal|exact Hchips].
Defined.

(** ** The split of a fractional pot *)

Lemma Qtrunc_whole (z n : Z) : 0 < n -> Qtrunc (inject_Z z / inject_Z n) = Z.quot z n.
Proof.
  intros Hn. unfold Qtrunc.
  assert (Hn' : ~ (inject_Z n == 0)%Q).
  { intros H. unfold Qeq in H. simpl in H. lia. }
  destruct (Qle_bool 0 (inject_Z z / inject_Z n)) eqn:E.
  - apply Qle_bool_iff in E.
    assert (0 <= z).
    { apply Qmult_le_r with (z := inject_Z n) in E; [|unfold Qlt; simpl; lia].
      rewrite Qmult_0_l in E. 
      assert (Heq : (inject_Z z / inject_Z n * inject_Z n == inject_Z z)%Q) by (field; done).
      rewrite Heq in E. unfold Qle in E. simpl in E. lia. }
    rewrite <- Zdiv_Qdiv. symmetry. apply Z.quot_div_nonneg; lia.
  - assert (z < 0).
    { destruct (Z_lt_le_dec z 0) as [?|Hz]; [done|]. exfalso.
      assert (Qle_bool 0 (inject_Z z / inject_Z n) = true); [|congruence].
      apply Qle_bool_iff. apply Qle_shift_div_l; [unfold Qlt; simpl; lia|].
      rewrite Qmult_0_l. unfold Qle. simpl. lia. }
    unfold Qceiling.
    assert (Heq : (- (inject_Z z / inject_Z n) == inject_Z (- z) / inject_Z n)%Q).
    { rewrite inject_Z_opp. field. done. }
    rewrite (Qfloor_comp _ _ Heq), <- Zdiv_Qdiv.
    rewrite <- (Z.opp_involutive z) at 2. rewrite Z.quot_opp_l by lia.
    f_equal. symmetry. apply Z.quot_div_nonneg; lia.
Qed.

Lemma inject_Z_lt_iff a b : (inject_Z a < inject_Z b)%Q <-> a < b.
Proof. unfold Qlt. simpl. lia. Qed.

(** On a whole amount the split on rationals is the one of the integer
    model: the amounts that [payWinners] credits. *)
Lemma splitShares_whole (z : Z) (n : nat) :
  (0 < n)%nat ->
  splitShares (inject_Z z) n
  = map (fun index =>
           z / Z.of_nat n + (if Z.of_nat index <? Z.rem z (Z.of_nat n) then 1 else 0))
        (seq 0 n).
Proof.
  intros Hn. unfold splitShares. apply map_ext. intros index.
  rewrite <- Zdiv_Qdiv. f_equal.
  rewrite Qtrunc_whole by lia.
  assert (Hrem : (inject_Z z - inject_Z (Z.of_nat n) * inject_Z (Z.quot z (Z.of_nat n))
                  == inject_Z (Z.rem z (Z.of_nat n)))%Q).
  { rewrite <- inject_Z_mult. unfold Qminus. rewrite <- inject_Z_opp, <- inject_Z_plus.
    rewrite (Z.rem_eq z (Z.of_nat n)) by lia. reflexivity. }
  destruct (Qlt_le_dec _ _) as [Hlt|Hle]; destruct (Z.ltb_spec (Z.of_nat index)
                                                      (Z.rem z (Z.of_nat n))); try done.
  - rewrite Hrem in Hlt. unfold Qlt in Hlt. simpl in Hlt. lia.
  - rewrite Hrem in Hle. unfold Qle in Hle. simpl in Hle. lia.
Qed.

(** The number of positions below a non-negative bound. *)
Lemma count_below (r : QArith_base.Q) (m : nat) :
  (0 <= r)%Q ->
  sumZ (map (fun index => if Qlt_le_dec (inject_Z (Z.of_nat index)) r then 1 else 0)
            (seq 0 m))
  = Z.min (Z.of_nat m) (Qceiling r).
Proof.
  intros Hr. induction m as [|m IH].
  - simpl. assert (0 <= Qceiling r); [|lia].
    rewrite <- (Qceiling_Z 0). by apply Qceiling_resp_le.
  - rewrite seq_S, map_app. unfold sumZ in *. rewrite foldr_app. simpl.
    assert (Hshift : forall l a, foldr Z.add a l = foldr Z.add 0 l + a).
    { clear. induction l as [|x l IH]; intros a; simpl; [lia|]. rewrite IH. lia. }
    rewrite Hshift, IH.
    destruct (Qlt_le_dec _ _) as [Hlt|Hle].
    + assert (Z.of_nat m < Qceiling r); [|lia].
      apply (proj1 (inject_Z_lt_iff _ _)).
      eapply Qlt_le_trans; [exact Hlt|apply Qle_ceiling].
    + assert (Qceiling r <= Z.of_nat m); [|lia].
      rewrite <- (Qceiling_Z (Z.of_nat m)). by apply Qceiling_resp_le.
Qed.

Lemma sumZ_shares (share : Z) (f : nat -> Z) (l : list nat) :
  sumZ (map (fun index => share + f index) l)
  = Z.of_nat (length l) * share + sumZ (map f l).
Proof. unfold sumZ. induction l as [|x l IH]; simpl; [lia|]. rewrite IH. lia. Qed.

Lemma Qceiling_unique (x : QArith_base.Q) (c : Z) :
  (inject_Z (c - 1) < x)%Q -> (x <= inject_Z c)%Q -> Qceiling x = c.
Proof.
  intros Hlo Hhi.
  pose proof (Qle_ceiling x) as H1. pose proof (Qceiling_lt x) as H2.
  assert (c - 1 < Qceiling x).
  { apply (proj1 (inject_Z_lt_iff _ _)). eapply Qlt_le_trans; [exact Hlo|exact H1]. }
  assert (Qceiling x - 1 < c).
  { apply (proj1 (inject_Z_lt_iff _ _)). eapply Qlt_le_trans; [exact H2|exact Hhi]. }
  lia.
Qed.

(** X30.  The arithmetic of a contested pot in distributeSinglePot
    (Math.floor(amount / n), amount % n, one extra chip for the first
    positions below the remainder) hands out, for any non-negative amount
    and n >= 1 winners, the amount rounded up to the next whole number:
    exactly the pot when the amount is whole, more than the pot when it is
    fractional. *)
Theorem split_hands_out_ceiling (amount : QArith_base.Q) (n : nat) :
  (0 <= amount)%Q -> (0 < n)%nat ->
  sumZ (splitShares amount n) = Qceiling amount.
Proof.
  intros Hamount Hn. unfold splitShares.
  set (count := inject_Z (Z.of_nat n)).
  assert (Hcount : (0 < count)%Q) by (unfold count, Qlt; simpl; lia).
  assert (Hx : (0 <= amount / count)%Q).
  { apply Qle_shift_div_l; [done|]. by rewrite Qmult_0_l. }
  unfold Qtrunc. apply Qle_bool_iff in Hx as Hb. rewrite Hb.
  set (q := Qfloor (amount / count)).
  set (r := (amount - count * inject_Z q)%Q).
  assert (Hq1 : (inject_Z q <= amount / count)%Q) by apply Qfloor_le.
  assert (Hq2 : (amount / count < inject_Z (q + 1))%Q) by apply Qlt_floor.
  assert (Hmul : (amount / count * count == amount)%Q).
  { field. intros H0. rewrite H0 in Hcount. by apply Qlt_irrefl in Hcount. }
  assert (Hr1 : (0 <= r)%Q).
  { unfold r. apply Qmult_le_r with (z := count) in Hq1; [|done].
    rewrite Hmul in Hq1. lra. }
  assert (Hr2 : (r < count)%Q).
  { unfold r. apply Qmult_lt_r with (z := count) in Hq2; [|done].
    rewrite Hmul in Hq2. rewrite inject_Z_plus in Hq2.
    change (inject_Z 1) with 1%Q in Hq2. lra. }
  rewrite (sumZ_shares q
             (fun index => if Qlt_le_dec (inject_Z (Z.of_nat index)) r then 1 else 0)).
  rewrite count_below by done. rewrite length_seq.
  assert (Hceil : Qceiling r <= Z.of_nat n).
  { rewrite <- (Qceiling_Z (Z.of_nat n)). apply Qceiling_resp_le.
    by apply Qlt_le_weak. }
  rewrite Z.min_r by done. symmetry. apply Qceiling_unique.
  - pose proof (Qceiling_lt r) as Hlt.
    replace (Z.of_nat n * q + Qceiling r - 1) with (Z.of_nat n * q + (Qceiling r - 1))
      by lia.
    rewrite inject_Z_plus, inject_Z_mult. fold count. unfold r in *.
    clearbody count. lra.
  - pose proof (Qle_ceiling r) as Hle.
    rewrite inject_Z_plus, inject_Z_mult. fold count. unfold r in *. lra.
Qed.

Lemma split_hands_out_ceiling_witness :
  splitShares (161 # 2) 2 = [41; 40] /\ sumZ (splitShares (161 # 2) 2) = 81.
Proof.
  split; [reflexivity|].
  rewrite (split_hands_out_ceiling (161 # 2) 2); [reflexivity| |lia].
  unfold Qle. simpl. lia.
Defined.

(** ** Shuffling *)

Lemma transpose_involutive i j k : transpose i j (transpose i j k) = k.
Proof. unfold transpose. repeat case_decide; congruence. Qed.

#[local] Instance transpose_inj i j : Inj (=) (=) (transpose i j).
Proof.
  intros k1 k2 H. rewrite <- (transpose_involutive i j k1), H.
  apply transpose_involutive.
Qed.

Lemma swapAt_lookup {T} (l : list T) i j a b k :
  l !! i = Some a -> l !! j = Some b ->
  swapAt l i j !! k = l !! transpose i j k.
Proof.
  intros Hi Hj. unfold swapAt, transpose. rewrite Hi, Hj.
  pose proof (lookup_lt_Some _ _ _ Hi). pose proof (lookup_lt_Some _ _ _ Hj).
  destruct (decide (k = j)) as [->|Hkj].
  - rewrite list_lookup_insert_eq by (by rewrite length_insert). done.
  - rewrite list_lookup_insert_ne by done. destruct (decide (k = i)) as [->|Hki].
    + by rewrite list_lookup_insert_eq.
    + by rewrite list_lookup_insert_ne.
Qed.

Lemma swapAt_Permutation {T} (l : list T) i j : swapAt l i j ≡ₚ l.
Proof.
  destruct (l !! i) as [a|] eqn:Hi; [destruct (l !! j) as [b|] eqn:Hj|].
  - apply Permutation_inj. split; [apply swapAt_length|].
    exists (transpose i j). split; [apply _|]. intros k. by eapply swapAt_lookup.
  - unfold swapAt. by rewrite Hi, Hj.
  - unfold swapAt. by rewrite Hi.
Qed.

Lemma shuffle_Permutation {T} pick (l : list T) : shuffle pick l ≡ₚ l.
Proof.
  unfold shuffle. generalize (length l - 1)%nat. intros n. revert l.
  induction n as [|n IH]; intros l; simpl; [done|].
  by rewrite IH, swapAt_Permutation.
Qed.

(** ** The cards a simulation draws from *)

Lemma ALL_CARDS_NoDup : NoDup ALL_CARDS.
Proof. apply (bool_decide_unpack _). by vm_compute. Qed.

Lemma ALL_CARDS_complete (c : Card) : c ∈ ALL_CARDS.
Proof. apply list_elem_of_In. destruct c as [[] []]; vm_compute; tauto. Qed.

Lemma filter_split_length {T} (f : T -> bool) l :
  (length (List.filter f l) + length (List.filter (fun x => negb (f x)) l)
   = length l)%nat.
Proof. induction l as [|x l IH]; simpl; [done|]. destruct (f x); simpl; lia. Qed.

Lemma NoDup_List_filter {T} (f : T -> bool) l : NoDup l -> NoDup (List.filter f l).
Proof.
  induction 1 as [|x l Hx Hnd IH]; simpl; [constructor|].
  destruct (f x); [|done]. constructor; [|done].
  intros Hin. apply Hx. by apply list_elem_of_In, filter_In in Hin as [?%list_elem_of_In _].
Qed.

Lemma unusedCards_spec used :
  NoDup used ->
  NoDup (unusedCards used) /\
  (forall c, c ∈ unusedCards used -> c ∉ used) /\
  (length (unusedCards used) + length used = 52)%nat.
Proof.
  intros Hnd. unfold unusedCards. split_and!.
  - apply NoDup_List_filter, ALL_CARDS_NoDup.
  - intros c Hc Hused. apply list_elem_of_In, filter_In in Hc as [_ Hc].
    apply negb_true_iff, bool_decide_eq_false in Hc. apply Hc.
    apply list_elem_of_fmap. by exists c.
  - set (f := fun card => bool_decide (cardToKey card ∈ map cardToKey used)).
    pose proof (filter_split_length f ALL_CARDS) as Hsplit.
    change (length ALL_CARDS) with 52%nat in Hsplit.
    assert (Hsame : List.filter f ALL_CARDS ≡ₚ used).
    { apply NoDup_Permutation; [apply NoDup_List_filter, ALL_CARDS_NoDup|done|].
      intros c. rewrite list_elem_of_In, filter_In. split.
      - intros [_ Hc]. apply bool_decide_eq_true in Hc.
        apply list_elem_of_fmap in Hc as (c' & Hk & Hc').
        by apply cardToKey_inj in Hk as ->.
      - intros Hc. split; [apply list_elem_of_In, ALL_CARDS_complete|].
        apply bool_decide_eq_true, list_elem_of_fmap. by exists c. }
    rewrite <- (Permutation_length Hsame). subst f. cbv beta in Hsplit. lia.
Qed.

(** ** The equity simulator *)

Lemma draw_defined (sh : list Card) n :
  (n <= length sh)%nat -> MonteCarloSimulation.draw sh 0 n = map Some (take n sh).
Proof.
  intros Hn. unfold MonteCarloSimulation.draw. apply list_eq. intros i.
  rewrite !list_lookup_fmap. destruct (decide (i < n)%nat) as [Hi|Hi].
  - rewrite lookup_seq_lt by done. rewrite lookup_take_lt by done. simpl.
    destruct (lookup_lt_is_Some_2 sh i ltac:(lia)) as [c ->]. done.
  - rewrite lookup_seq_ge by lia. rewrite lookup_take_ge by lia. done.
Qed.

Lemma dealOpponents_defined (sh : list Card) idx n :
  (idx + 2 * n <= length sh)%nat ->
  exists hands : list (Card * Card),
    MonteCarloSimulation.dealOpponents sh idx n
    = map (fun h => [Some (fst h); Some (snd h)]) hands /\
    length hands = n /\
    Forall (fun h => exists a, (idx <= a)%nat /\
                               sh !! a = Some (fst h) /\ sh !! S a = Some (snd h))
           hands.
Proof.
  revert idx. induction n as [|n IH]; intros idx Hlen.
  - exists []. by split_and!.
  - destruct (IH (S (S idx)) ltac:(lia)) as (hands & Heq & Hl & HF).
    destruct (lookup_lt_is_Some_2 sh idx ltac:(lia)) as [c1 H1].
    destruct (lookup_lt_is_Some_2 sh (S idx) ltac:(lia)) as [c2 H2].
    exists ((c1, c2) :: hands). simpl. rewrite H1, H2, Heq, Hl.
    split_and!; [done|done|]. constructor.
    + exists idx. by split_and!.
    + eapply Forall_impl; [exact HF|]. intros h (a & ? & ? & ?).
      exists a. split_and!; [lia|done|done].
Qed.

(** An opponent's two cards, the known community cards and the drawn ones
    are seven distinct cards. *)
Lemma opponent_cards_distinct (sh cc : list Card) missing a c1 c2 :
  NoDup sh -> NoDup cc -> (forall c, c ∈ sh -> c ∉ cc) ->
  sh !! a = Some c1 -> sh !! S a = Some c2 -> (missing <= a)%nat ->
  NoDup ([c1; c2] ++ cc ++ take missing sh).
Proof.
  intros Hsh Hcc Hdisj H1 H2 Ha.
  assert (Htake : forall c k, sh !! k = Some c -> (missing <= k)%nat ->
                              c ∉ take missing sh).
  { intros c k Hk Hmk Hin. apply list_elem_of_lookup in Hin as [j Hj].
    apply lookup_take_Some in Hj as [Hj Hjm].
    pose proof (NoDup_lookup _ _ _ _ Hsh Hk Hj). lia. }
  apply NoDup_app. split_and!.
  - apply NoDup_cons. split; [|apply NoDup_singleton].
    intros Heq. apply list_elem_of_singleton in Heq as ->.
    pose proof (NoDup_lookup _ _ _ _ Hsh H1 H2). lia.
  - intros c Hc Hin. apply elem_of_app in Hin as [Hin|Hin].
    + apply (Hdisj c); [|done].
      apply elem_of_cons in Hc as [->|Hc];
        [|apply list_elem_of_singleton in Hc as ->];
        by eapply list_elem_of_lookup_2.
    + apply elem_of_cons in Hc as [->|Hc];
        [|apply list_elem_of_singleton in Hc as ->].
      * by apply (Htake c1 a).
      * apply (Htake c2 (S a)); [done|lia|done].
  - apply NoDup_app. split_and!; [done| |].
    + intros c Hc Hin. apply (Hdisj c); [|done].
      apply list_elem_of_lookup in Hin as [j Hj].
      apply lookup_take_Some in Hj as [Hj _]. by eapply list_elem_of_lookup_2.
    + rewrite <- (take_drop missing sh) in Hsh. by apply NoDup_app in Hsh as [? _].
Qed.

Section SingleSimulation.
Variables (pick : nat -> nat) (playerCards communityCards : list Card).
Hypothesis Hcards : cardsInContract playerCards communityCards.

Let shuffled : list Card :=
  shuffle pick (unusedCards (playerCards ++ communityCards)).
Let missing : nat := (5 - length communityCards)%nat.

Lemma shuffled_facts :
  NoDup shuffled /\
  (forall c, c ∈ shuffled -> c ∉ (playerCards ++ communityCards)%list) /\
  (length shuffled + length communityCards = 50)%nat.
Proof.
  destruct Hcards as (H2 & _ & Hnd).
  destruct (unusedCards_spec _ Hnd) as (Hn & Hd & Hl).
  unfold shuffled. split_and!.
  - by rewrite shuffle_Permutation.
  - intros c. rewrite shuffle_Permutation. apply Hd.
  - rewrite shuffle_length. rewrite length_app in Hl. lia.
Qed.

Lemma player_evaluation_returns :
  exists e,
    evaluateBestHand
      (map Some playerCards
       ++ (map Some communityCards ++ MonteCarloSimulation.draw shuffled 0 missing))
    = Ok e.
Proof.
  destruct shuffled_facts as (Hnd & Hdisj & Hlen).
  destruct Hcards as (H2 & [H3 H5] & Hused).
  rewrite draw_defined by (unfold missing; lia).
  rewrite <- !map_app. apply evaluateBestHand_distinct.
  - rewrite !length_app, length_take. unfold missing. lia.
  - rewrite app_assoc. apply NoDup_app. split_and!; [done| |].
    + intros c Hc Hin. apply (Hdisj c); [|done].
      apply list_elem_of_lookup in Hin as [j Hj].
      apply lookup_take_Some in Hj as [Hj _]. by eapply list_elem_of_lookup_2.
    + rewrite <- (take_drop missing shuffled) in Hnd.
      by apply NoDup_app in Hnd as [? _].
Qed.

Lemma opponent_evaluations_return (numOpponents : Z) :
  numOpponents <= 22 ->
  exists es,
    mapM (fun opponentCards =>
            evaluateBestHand
              (opponentCards
               ++ (map Some communityCards
                   ++ MonteCarloSimulation.draw shuffled 0 missing)))
         (MonteCarloSimulation.dealOpponents shuffled missing (Z.to_nat numOpponents))
    = Ok es /\
    length es = Z.to_nat numOpponents.
Proof.
  intros Hmax.
  destruct shuffled_facts as (Hnd & Hdisj & Hlen).
  destruct Hcards as (H2 & [H3 H5] & Hused).
  rewrite draw_defined by (unfold missing; lia).
  destruct (dealOpponents_defined shuffled missing (Z.to_nat numOpponents))
    as (hands & -> & Hl & HF); [unfold missing; lia|].
  rewrite <- Hl. clear Hl. induction HF as [|h hands (a & Ha & H1 & H2') _ IH].
  - by exists [].
  - destruct IH as (es & Hes & Hlen').
    cbn [map mapM]. rewrite <- map_app.
    change [Some (fst h); Some (snd h)] with (map Some [fst h; snd h]).
    rewrite <- map_app.
    destruct (evaluateBestHand_distinct
                ([fst h; snd h] ++ communityCards ++ take missing shuffled))
      as [e ->].
    + rewrite !length_app, length_take. unfold missing. simpl. lia.
    + apply (opponent_cards_distinct shuffled communityCards missing a);
        try done.
      * by apply NoDup_app in Hused as (_ & _ & ?).
      * intros c Hc Hin. apply (Hdisj c Hc). apply elem_of_app. by right.
    + simpl. rewrite <- map_app in Hes. rewrite Hes. simpl.
      exists (e :: es). split; [done|]. simpl. by rewrite Hlen'.
Qed.

Lemma runSingleSimulation_returns (numOpponents : Z) :
  1 <= numOpponents <= 22 ->
  exists r,
    MonteCarloSimulation.runSingleSimulation pick playerCards communityCards
      (unusedCards (playerCards ++ communityCards)) numOpponents = Ok r.
Proof.
  intros [Hlo Hhi]. unfold MonteCarloSimulation.runSingleSimulation.
  fold shuffled. fold missing.
  destruct player_evaluation_returns as [e ->].
  destruct (opponent_evaluations_return numOpponents Hhi) as (es & -> & Hlen).
  simpl. destruct es as [|e0 es]; [simpl in Hlen; lia|]. by eexists.
Qed.

Lemma runSingleSimulation_no_opponent (numOpponents : Z) :
  numOpponents <= 0 ->
  MonteCarloSimulation.runSingleSimulation pick playerCards communityCards
    (unusedCards (playerCards ++ communityCards)) numOpponents
  = Throw (TypeError "b is undefined").
Proof.
  intros Hn. unfold MonteCarloSimulation.runSingleSimulation.
  fold shuffled. fold missing.
  destruct player_evaluation_returns as [e ->].
  replace (Z.to_nat numOpponents) with 0%nat by lia. done.
Qed.
End SingleSimulation.

Lemma trials_return rand playerCards communityCards availableCards numOpponents :
  (forall pick, exists r,
      MonteCarloSimulation.runSingleSimulation pick playerCards communityCards
        availableCards numOpponents = Ok r) ->
  forall n i c, exists c',
    MonteCarloSimulation.trials rand n i playerCards communityCards availableCards
      numOpponents c = Ok c'.
Proof.
  intros Hone. induction n as [|n IH]; intros i c; simpl; [by eexists|].
  destruct (Hone (rand i)) as [r ->]. simpl. apply IH.
Qed.

Lemma trials_throw rand playerCards communityCards availableCards numOpponents e :
  (forall pick,
      MonteCarloSimulation.runSingleSimulation pick playerCards communityCards
        availableCards numOpponents = Throw e) ->
  forall n i c, n <> 0%nat ->
    MonteCarloSimulation.trials rand n i playerCards communityCards availableCards
      numOpponents c = Throw e.
Proof.
  intros Hone [|n] i c Hn; [done|]. simpl. by rewrite Hone.
Qed.

Lemma runSimulationSync_returns rand playerCards communityCards numOpponents :
  cardsInContract playerCards communityCards ->
  1 <= numOpponents <= 22 ->
  exists result,
    MonteCarloSimulation.runSimulationSync rand playerCards communityCards
      (unusedCards (playerCards ++ communityCards)) numOpponents = Ok result.
Proof.
  intros Hcards Hn. unfold MonteCarloSimulation.runSimulationSync.
  destruct (trials_return rand playerCards communityCards
              (unusedCards (playerCards ++ communityCards)) numOpponents
              (fun pick => runSingleSimulation_returns pick _ _ Hcards _ Hn)
              MonteCarloSimulation.SIMULATION_COUNT 0%nat
              (MonteCarloSimulation.mkCounters 0 0 0
                 MonteCarloSimulation.emptyTally MonteCarloSimulation.emptyTally))
    as [c ->].
  by eexists.
Qed.

Lemma runSimulationSync_no_opponent rand playerCards communityCards numOpponents :
  cardsInContract playerCards communityCards ->
  numOpponents <= 0 ->
  MonteCarloSimulation.runSimulationSync rand playerCards communityCards
    (unusedCards (playerCards ++ communityCards)) numOpponents
  = Throw (TypeError "b is undefined").
Proof.
  intros Hcards Hn. unfold MonteCarloSimulation.runSimulationSync.
  rewrite (trials_throw rand playerCards communityCards
             (unusedCards (playerCards ++ communityCards)) numOpponents _
             (fun pick => runSingleSimulation_no_opponent pick _ _ Hcards _ Hn));
    [done|]. unfold MonteCarloSimulation.SIMULATION_COUNT. lia.
Qed.

(** [runSimulation], with its validation and its cache around the
    synchronous run. *)
Lemma runSimulation_unfold cache rand playerCards communityCards numOpponents :
  MonteCarloSimulation.runSimulation cache rand playerCards communityCards
    numOpponents
  = if negb (length playerCards =? 2)%nat then
      Throw (Error MonteCarloSimulation.PLAYER_EXACTLY_TWO_CARDS)
    else if (length communityCards <? 3)%nat || (5 <? length communityCards)%nat
    then Throw (Error MonteCarloSimulation.COMMUNITY_CARDS_3_TO_5)
    else
      match MonteCarloSimulation.cacheGet cache
              (MonteCarloSimulation.createCacheKey playerCards communityCards
                 numOpponents) with
      | Some cached => Ok (cached, cache)
      | None =>
          result ← MonteCarloSimulation.runSimulationSync rand playerCards
                     communityCards (unusedCards (playerCards ++ communityCards))
                     numOpponents;
          let cache1 :=
            MonteCarloSimulation.cacheSet cache
              (MonteCarloSimulation.createCacheKey playerCards communityCards
                 numOpponents) result in
          Ok (result, if (100 <? length cache1)%nat then tail cache1 else cache1)
      end.
Proof. reflexivity. Qed.

(** *** Errors raised below the validation *)

Lemma groupAt_throws grouped k e :
  groupAt grouped k = Throw e -> isValidationError e = false.
Proof. unfold groupAt. destruct (grouped !! k); [done|]. by intros [= <-]. Qed.

Lemma firstTwoCounts_throws grouped c0 c1 e :
  firstTwoCounts grouped c0 c1 = Throw e -> isValidationError e = false.
Proof.
  unfold firstTwoCounts.
  destruct (groupAt grouped 0) as [g0|e0] eqn:E0; simpl;
    [|intros [= <-]; by eapply groupAt_throws].
  destruct (snd g0 =? c0); [|done].
  destruct (groupAt grouped 1) as [g1|e1] eqn:E1; simpl;
    [done|intros [= <-]; by eapply groupAt_throws].
Qed.

Lemma evaluateFive_throws cards e :
  evaluateFive cards = Throw e -> isValidationError e = false.
Proof.
  unfold evaluateFive. destruct (checkSTRAIGHT _) as [isSTRAIGHT high].
  destruct (isSTRAIGHT && _); [done|].
  set (grouped := sortBy byCountThenValue _).
  destruct (groupAt grouped 0) as [g0|e0] eqn:E0; simpl;
    [|intros [= <-]; by eapply groupAt_throws].
  destruct (snd g0 =? 4).
  { destruct (groupAt grouped 1) as [g1|e1] eqn:E1; simpl;
      [done|intros [= <-]; by eapply groupAt_throws]. }
  destruct (firstTwoCounts grouped 3 2) as [[|]|e1] eqn:E1; simpl;
    [| |intros [= <-]; by eapply firstTwoCounts_throws].
  { destruct (groupAt grouped 1) as [g1|e2] eqn:E2; simpl;
      [done|intros [= <-]; by eapply groupAt_throws]. }
  destruct (every _ _); [done|]. destruct isSTRAIGHT; [done|].
  destruct (snd g0 =? 3); [done|].
  destruct (firstTwoCounts grouped 2 2) as [[|]|e2] eqn:E2; simpl;
    [| |intros [= <-]; by eapply firstTwoCounts_throws].
  - destruct (groupAt grouped 1) as [g1|e3] eqn:E3; simpl;
      [|intros [= <-]; by eapply groupAt_throws].
    destruct (List.find _ _); [done|]. by intros [= <-].
  - by destruct (snd g0 =? 2).
Qed.

Lemma bestOf_throws combos : forall best e,
  bestOf best combos = Throw e -> isValidationError e = false.
Proof.
  induction combos as [|combo combos IH]; intros best e; simpl; [done|].
  destruct (evaluateFive combo) as [e5|e0] eqn:E5; simpl;
    [|intros [= <-]; by eapply evaluateFive_throws].
  destruct best as [b|]; [destruct (isPositive _)|]; apply IH.
Qed.

Lemma scanDuplicates_throws cards : forall seen e,
  scanDuplicates seen cards = Throw e -> isValidationError e = false.
Proof.
  induction cards as [|[c|] cards IH]; intros seen e; simpl; [done| |by intros [= <-]].
  destruct (bool_decide _); [by intros [= <-]|].
  destruct (scanDuplicates _ cards) as [cs|e0] eqn:E; simpl; [done|].
  intros [= <-]. by eapply IH.
Qed.

Lemma evaluateBestHand_throws cards e :
  evaluateBestHand cards = Throw e -> isValidationError e = false.
Proof.
  unfold evaluateBestHand. destruct (_ <? 5)%nat; [by intros [= <-]|].
  destruct (7 <? _)%nat; [by intros [= <-]|].
  destruct (scanDuplicates [] cards) as [cs|e0] eqn:E; simpl;
    [|intros [= <-]; by eapply scanDuplicates_throws].
  destruct (bestOf None _) as [[b|]|e1] eqn:E1; simpl;
    [done|by intros [= <-]|intros [= <-]; by eapply bestOf_throws].
Qed.

Lemma mapM_throws {X Y} (f : X -> Result Y) (l : list X) e :
  (forall x e', f x = Throw e' -> isValidationError e' = false) ->
  mapM f l = Throw e -> isValidationError e = false.
Proof.
  intros Hf. induction l as [|x l IH]; simpl; [done|].
  destruct (f x) as [y|e0] eqn:E; simpl; [|intros [= <-]; by eapply Hf].
  destruct (mapM f l) as [ys|e1]; simpl; [done|]. intros [= <-]. by apply IH.
Qed.

Lemma runSingleSimulation_throws pick playerCards communityCards availableCards
    numOpponents e :
  MonteCarloSimulation.runSingleSimulation pick playerCards communityCards
    availableCards numOpponents = Throw e ->
  isValidationError e = false.
Proof.
  unfold MonteCarloSimulation.runSingleSimulation.
  destruct (evaluateBestHand _) as [ph|e0] eqn:E0; simpl;
    [|intros [= <-]; by eapply evaluateBestHand_throws].
  destruct (mapM _ _) as [[|first others]|e1] eqn:E1; simpl;
    [by intros [= <-]|done|].
  intros [= <-]. eapply mapM_throws; [|exact E1].
  intros x e'. apply evaluateBestHand_throws.
Qed.

Lemma trials_throws rand n : forall i playerCards communityCards availableCards
    numOpponents c e,
  MonteCarloSimulation.trials rand n i playerCards communityCards availableCards
    numOpponents c = Throw e ->
  isValidationError e = false.
Proof.
  induction n as [|n IH]; intros i pc cc ac k c e; simpl; [done|].
  destruct (MonteCarloSimulation.runSingleSimulation _ _ _ _ _) as [r|e0] eqn:E;
    simpl; [apply IH|]. intros [= <-]. by eapply runSingleSimulation_throws.
Qed.

Lemma runSimulationSync_throws rand playerCards communityCards availableCards
    numOpponents e :
  MonteCarloSimulation.runSimulationSync rand playerCards communityCards
    availableCards numOpponents = Throw e ->
  isValidationError e = false.
Proof.
  unfold MonteCarloSimulation.runSimulationSync.
  destruct (MonteCarloSimulation.trials _ _ _ _ _ _ _ _) as [c|e0] eqn:E; simpl;
    [done|]. intros [= <-]. by eapply trials_throws.
Qed.

(** *** The contract *)

(** C9.  Two hole cards, a flop and [numOpponents = 0] satisfy the stated
    contract, and this is the call made for a viewer whose opponents have all
    folded; yet the simulation fails.  With no opponent hand dealt,
    [opponentEvaluations[0]] is [undefined], and [compareHands] reads the
    rank of [undefined] in the first trial.  A negative [numOpponents] is not
    met with a validation error either: it fails in the same way. *)
Lemma runSimulation_fails_without_opponents :
  cardsInContract pocketAces dryFlop /\
  MonteCarloSimulation.runSimulation [] (fun _ _ => 0%nat) pocketAces dryFlop 0
  = Throw (TypeError "b is undefined") /\
  MonteCarloSimulation.runSimulation [] (fun _ _ => 0%nat) pocketAces dryFlop (-1)
  = Throw (TypeError "b is undefined").
Proof.
  split_and!; [|vm_compute; reflexivity|vm_compute; reflexivity].
  split_and!; [reflexivity|simpl; lia|simpl; lia|].
  apply (bool_decide_unpack _). vm_compute. reflexivity.
Qed.

(** The bounds of the theorem below are needed: the 47 cards left do not
    serve 23 opponents, and a hole card that is also on the board is
    reported as a duplicate. *)
Lemma runSimulation_out_of_cards :
  MonteCarloSimulation.runSimulation [] (fun _ _ => 0%nat) pocketAces dryFlop 23
  = Throw (TypeError "card is undefined") /\
  MonteCarloSimulation.runSimulation [] (fun _ _ => 0%nat)
    [mkCard A SPADES; mkCard R9 HEARTS] dryFlop 1
  = Throw (Error DUPLICATE_CARD).
Proof. split_and!; vm_compute; reflexivity. Qed.

(** X29.  runSimulation raises its hole-card validation error exactly when
    there are not 2 hole cards, and its community-card validation error
    exactly when there are 2 hole cards and fewer than 3 or more than 5
    community cards, whatever numOpponents, the cache and the random source
    are; with 2 hole cards and 3 to 5 community cards, all distinct, and 1
    to 22 opponents it returns a prediction. *)
Theorem runSimulation_contract (cache : MonteCarloSimulation.Cache)
    (rand : nat -> nat -> nat) (playerCards communityCards : list Card)
    (numOpponents : Z) :
  (MonteCarloSimulation.runSimulation cache rand playerCards communityCards
     numOpponents
   = Throw (Error MonteCarloSimulation.PLAYER_EXACTLY_TWO_CARDS)
   <-> length playerCards <> 2%nat) /\
  (MonteCarloSimulation.runSimulation cache rand playerCards communityCards
     numOpponents
   = Throw (Error MonteCarloSimulation.COMMUNITY_CARDS_3_TO_5)
   <-> length playerCards = 2%nat /\
       ((length communityCards < 3)%nat \/ (5 < length communityCards)%nat)) /\
  (cardsInContract playerCards communityCards ->
   1 <= numOpponents <= 22 ->
   exists result cache',
     MonteCarloSimulation.runSimulation cache rand playerCards communityCards
       numOpponents
     = Ok (result, cache')).
Proof.
  rewrite runSimulation_unfold.
  assert (Hdeep : forall e,
             match MonteCarloSimulation.cacheGet cache
                     (MonteCarloSimulation.createCacheKey playerCards communityCards
                        numOpponents) with
             | Some cached => Ok (cached, cache)
             | None =>
                 result ← MonteCarloSimulation.runSimulationSync rand playerCards
                            communityCards (unusedCards (playerCards ++ communityCards))
                            numOpponents;
                 let cache1 :=
                   MonteCarloSimulation.cacheSet cache
                     (MonteCarloSimulation.createCacheKey playerCards communityCards
                        numOpponents) result in
                 Ok (result, if (100 <? length cache1)%nat then tail cache1 else cache1)
             end = Throw e ->
             isValidationError e = false).
  { intros e. destruct (MonteCarloSimulation.cacheGet _ _); [done|].
    destruct (MonteCarloSimulation.runSimulationSync _ _ _ _ _) as [r|e0] eqn:E;
      simpl; [done|]. intros [= <-]. by eapply runSimulationSync_throws. }
  destruct (Nat.eqb_spec (length playerCards) 2) as [H2|H2];
    cbv beta iota delta [negb].
  - destruct (Nat.ltb_spec (length communityCards) 3) as [H3|H3];
      [|destruct (Nat.ltb_spec 5 (length communityCards)) as [H5|H5]];
      cbv beta iota delta [orb].
    + split_and!; [split; [discriminate|done]|split; [by auto|done]|].
      intros (_ & ? & _). lia.
    + split_and!; [split; [discriminate|done]|split; [by auto|done]|].
      intros (_ & ? & _). lia.
    + split_and!.
      * split; [|done]. intros Hrun. by apply Hdeep in Hrun.
      * split; [|intros [_ [?|?]]; lia]. intros Hrun. by apply Hdeep in Hrun.
      * intros Hcards Hn.
        destruct (MonteCarloSimulation.cacheGet _ _); [by eexists _, _|].
        destruct (runSimulationSync_returns rand _ _ _ Hcards Hn) as [result ->].
        by eexists _, _.
  - split_and!; [done|split; [discriminate|by intros [? _]]|].
    by intros (? & _).
Qed.

Lemma runSimulation_contract_witness :
  exists result cache',
    MonteCarloSimulation.runSimulation [] (fun _ _ => 0%nat) pocketAces dryFlop 1
    = Ok (result, cache').
Proof.
  refine (proj2 (proj2 (runSimulation_contract [] (fun _ _ => 0%nat)
                          pocketAces dryFlop 1)) _ _).
  - split_and!; [reflexivity|simpl; lia|simpl; lia|].
    apply (bool_decide_unpack _). vm_compute. reflexivity.
  - lia.
Defined.

(** ** Combinations *)

Lemma elem_of_getCombinations {T} (arr : list T) (k : nat) (combo : list T) :
  combo ∈ getCombinations arr k <-> combo `sublist_of` arr /\ length combo = k.
Proof.
  revert arr combo. induction k as [|k IHk]; intros arr combo.
  - assert (getCombinations arr 0 = [[]]) as -> by (by destruct arr).
    rewrite list_elem_of_singleton. split.
    + intros ->. split; [apply sublist_nil_l|done].
    + intros [_ H]. by apply nil_length_inv in H.
  - induction arr as [|first rest IHarr] in combo |- *.
    + simpl. split; [by intros ?%elem_of_nil|].
      intros [Hs Hl]. apply sublist_nil_r in Hs. subst. done.
    + cbn [getCombinations].
      destruct (Nat.ltb_spec (length (first :: rest)) (S k)) as [Hlt|Hge].
      * split; [by intros ?%elem_of_nil|]. intros [Hs Hl].
        apply sublist_length in Hs. lia.
      * rewrite elem_of_app, list_elem_of_fmap, sublist_cons_r. split.
        -- intros [H|(c & -> & Hc)].
           ++ apply IHarr in H as [? ?]. split; [by left|done].
           ++ apply IHk in Hc as [? ?]. split; [right; eauto|simpl; lia].
        -- intros [[Hs|(c & -> & Hs)] Hl].
           ++ left. apply IHarr. done.
           ++ right. exists c. split; [done|]. apply IHk. simpl in Hl.
              split; [done|lia].
Qed.

(** X1.  getCombinations(arr, k) lists exactly the sub-sequences of arr with
    k elements, in the order of arr: a list is among the combinations if and
    only if it is a sub-sequence of arr of length k, and when arr has no
    repeated element no combination is listed twice. *)
Theorem getCombinations_sublists {T} (arr : list T) (k : nat) :
  (forall combo, combo ∈ getCombinations arr k <->
                 combo `sublist_of` arr /\ length combo = k) /\
  (NoDup arr -> NoDup (getCombinations arr k)).
Proof.
  split; [apply elem_of_getCombinations|].
  revert arr. induction k as [|k IHk]; intros arr Hnd.
  - assert (getCombinations arr 0 = [[]]) as -> by (by destruct arr).
    apply NoDup_singleton.
  - induction arr as [|first rest IHarr]; [constructor|].
    cbn [getCombinations]. destruct (_ <? _)%nat; [constructor|].
    apply NoDup_cons in Hnd as [Hfirst Hnd].
    apply NoDup_app. split_and!.
    + by apply IHarr.
    + intros c Hc (c' & -> & _)%list_elem_of_fmap.
      apply elem_of_getCombinations in Hc as [Hs _].
      apply Hfirst. eapply elem_of_sublist; [|exact Hs]. left.
    + apply NoDup_fmap_2; [|by apply IHk]. by intros ? ? [= ->].
Qed.

Lemma getCombinations_sublists_witness :
  NoDup (getCombinations [1; 2; 3; 4] 2).
Proof.
  apply (proj2 (getCombinations_sublists [1; 2; 3; 4] 2)).
  apply (bool_decide_unpack _). vm_compute. reflexivity.
Defined.

(** ** evaluateFive does not depend on the order of the cards *)

Lemma isFlushHand_all_equal cards :
  isFlushHand cards = true <->
  forall c1 c2, c1 ∈ cards -> c2 ∈ cards -> suit c1 = suit c2.
Proof.
  split.
  - intros [s Hs]%isFlushHand_sameSuit c1 c2 H1 H2.
    rewrite Forall_forall in Hs. by rewrite (Hs _ H1), (Hs _ H2).
  - intros H. unfold isFlushHand, every. apply forallb_forall.
    intros s Hs. apply bool_decide_eq_true.
    apply in_map_iff in Hs as (c & <- & Hc). apply list_elem_of_In in Hc.
    destruct cards as [|c0 cards]; [by apply elem_of_nil in Hc|].
    simpl. f_equal. apply H; [done|left].
Qed.

Lemma isFlushHand_perm cards cards' :
  cards ≡ₚ cards' -> isFlushHand cards = isFlushHand cards'.
Proof.
  intros Hp.
  destruct (isFlushHand cards) eqn:E1, (isFlushHand cards') eqn:E2; try done.
  - rewrite isFlushHand_all_equal in E1.
    assert (isFlushHand cards' = true); [|congruence].
    apply isFlushHand_all_equal. intros c1 c2 H1 H2.
    rewrite <- Hp in H1, H2. by apply E1.
  - rewrite isFlushHand_all_equal in E2.
    assert (isFlushHand cards = true); [|congruence].
    apply isFlushHand_all_equal. intros c1 c2 H1 H2.
    rewrite Hp in H1, H2. by apply E2.
Qed.

(** X2.  evaluateFive does not depend on the order of its cards: two hands
    that are permutations of one another get the same category and the same
    tiebreaker (or fail alike). *)
Theorem evaluateFive_order_irrelevant (cards cards' : list Card) :
  cards ≡ₚ cards' -> evaluateFive cards = evaluateFive cards'.
Proof.
  intros Hp. rewrite !evaluateFive_classify.
  rewrite (isFlushHand_perm _ _ Hp).
  rewrite (rankValuesOf_perm (map rank cards) (map rank cards')); [done|].
  by rewrite Hp.
Qed.

Lemma evaluateFive_order_irrelevant_witness :
  evaluateFive [mkCard K HEARTS; mkCard R9 CLUBS; mkCard K SPADES;
                mkCard R9 HEARTS; mkCard R2 DIAMONDS]
  = evaluateFive [mkCard R2 DIAMONDS; mkCard R9 HEARTS; mkCard R9 CLUBS;
                  mkCard K SPADES; mkCard K HEARTS].
Proof.
  apply evaluateFive_order_irrelevant.
  apply (bool_decide_unpack _). vm_compute. reflexivity.
Defined.

(** ** compareHands as an order *)

Lemma compareTiebreakers_asym a b :
  isPositive (compareTiebreakers a b) = true ->
  isNegative (compareTiebreakers b a) = true.
Proof.
  revert b. induction a as [|x a IH]; intros b; simpl; [done|].
  destruct b as [|y b]; simpl; [done|].
  rewrite (Z.eqb_sym y x). destruct (Z.eqb_spec x y) as [->|Hne]; [apply IH|].
  simpl. intros H. apply Z.ltb_lt in H. apply Z.ltb_lt. lia.
Qed.

Lemma compareTiebreakers_trans a b c :
  isPositive (compareTiebreakers a b) = true ->
  isPositive (compareTiebreakers b c) = true ->
  isPositive (compareTiebreakers a c) = true.
Proof.
  revert b c. induction a as [|x a IH]; intros b c; simpl; [done|].
  destruct b as [|y b]; simpl; [done|]. destruct c as [|z c]; simpl; [done|].
  destruct (Z.eqb_spec x y), (Z.eqb_spec y z), (Z.eqb_spec x z);
    simpl; rewrite ?Z.ltb_lt; try lia.
  apply IH.
Qed.

(** The step of a running maximum: what did not beat the old best does not
    beat the hand that replaced it. *)
Lemma compareTiebreakers_replaced e b c :
  isPositive (compareTiebreakers e b) = true ->
  isPositive (compareTiebreakers c b) = false ->
  isPositive (compareTiebreakers c e) = false.
Proof.
  revert b c. induction e as [|x e IH]; intros b c; simpl; [done|].
  destruct b as [|y b]; simpl; [done|]. destruct c as [|z c]; simpl; [done|].
  destruct (Z.eqb_spec x y), (Z.eqb_spec z y), (Z.eqb_spec z x);
    simpl; rewrite ?Z.ltb_lt, ?Z.ltb_ge; try lia.
  apply IH.
Qed.

Lemma compareHands_replaced e b c :
  isPositive (compareHands e b) = true ->
  isPositive (compareHands c b) = false ->
  isPositive (compareHands c e) = false.
Proof.
  unfold compareHands.
  set (ie := indexOf (handRank e) hierarchy).
  set (ib := indexOf (handRank b) hierarchy).
  set (ic := indexOf (handRank c) hierarchy).
  destruct (Z.eqb_spec (ie - ib) 0), (Z.eqb_spec (ic - ib) 0),
    (Z.eqb_spec (ic - ie) 0); simpl; rewrite ?Z.ltb_lt, ?Z.ltb_ge; try lia.
  apply compareTiebreakers_replaced.
Qed.

(** X3.  compareHands orders evaluated hands consistently: a hand ties
    itself; if a beats b then b loses to a; beating is transitive; and a
    hand of a lower category in the hierarchy loses to a hand of a higher
    one whatever the tiebreakers, in both directions of the comparison. *)
Theorem compareHands_strict_order :
  (forall a, compareHands a a = Some 0) /\
  (forall a b, isPositive (compareHands a b) = true ->
               isNegative (compareHands b a) = true) /\
  (forall a b c, isPositive (compareHands a b) = true ->
                 isPositive (compareHands b c) = true ->
                 isPositive (compareHands a c) = true) /\
  (forall a b, indexOf (handRank a) hierarchy < indexOf (handRank b) hierarchy ->
               isNegative (compareHands a b) = true /\
               isPositive (compareHands b a) = true).
Proof.
  split_and!.
  - apply compareHands_refl.
  - intros a b. unfold compareHands.
    set (ia := indexOf (handRank a) hierarchy).
    set (ib := indexOf (handRank b) hierarchy).
    destruct (Z.eqb_spec (ia - ib) 0), (Z.eqb_spec (ib - ia) 0);
      simpl; rewrite ?Z.ltb_lt; try lia.
    apply compareTiebreakers_asym.
  - intros a b c. unfold compareHands.
    set (ia := indexOf (handRank a) hierarchy).
    set (ib := indexOf (handRank b) hierarchy).
    set (ic := indexOf (handRank c) hierarchy).
    destruct (Z.eqb_spec (ia - ib) 0), (Z.eqb_spec (ib - ic) 0),
      (Z.eqb_spec (ia - ic) 0); simpl; rewrite ?Z.ltb_lt; try lia.
    apply compareTiebreakers_trans.
  - intros a b Hlt. unfold compareHands.
    set (ia := indexOf (handRank a) hierarchy) in *.
    set (ib := indexOf (handRank b) hierarchy) in *.
    destruct (Z.eqb_spec (ia - ib) 0), (Z.eqb_spec (ib - ia) 0);
      simpl; rewrite ?Z.ltb_lt; lia.
Qed.

Lemma compareHands_strict_order_witness :
  isNegative (compareHands (mkEval ONEPAIR [9; 14; 8; 3]) (mkEval ONEPAIR [9; 14; 10; 2]))
  = true.
Proof.
  apply (proj1 (proj2 compareHands_strict_order)). vm_compute. reflexivity.
Defined.

(** ** evaluateBestHand: input checks *)

Lemma scanDuplicates_duplicate seen cs :
  ~ (NoDup cs /\ forall c, c ∈ cs -> cardToKey c ∉ seen) ->
  scanDuplicates seen (map Some cs) = Throw (Error DUPLICATE_CARD).
Proof.
  revert seen. induction cs as [|c cs IH]; intros seen Hbad.
  - exfalso. apply Hbad. split; [constructor|by intros ? ?%elem_of_nil].
  - cbn [map scanDuplicates]. case_bool_decide as Hseen; [done|].
    rewrite IH; [done|]. intros [Hnd Hkeys]. apply Hbad. split.
    + apply NoDup_cons. split; [|done]. intros Hc.
      apply (Hkeys c Hc). left.
    + intros c' [->|Hc']%elem_of_cons; [done|].
      intros Hin. apply (Hkeys c' Hc'). by right.
Qed.

(** X4.  evaluateBestHand rejects fewer than 5 cards with 'Need at least 5
    cards', more than 7 with 'Too many cards (n); maximum is 7.', and 5 to 7
    cards containing a repeated card with 'Duplicate card detected'; on 5 to
    7 distinct cards it returns an evaluation. *)
Theorem evaluateBestHand_input_checks (cs : list Card) :
  ((length cs < 5)%nat ->
   evaluateBestHand (map Some cs) = Throw (Error NEED_AT_LEAST_FIVE_CARDS)) /\
  ((7 < length cs)%nat ->
   evaluateBestHand (map Some cs)
   = Throw (Error ("Too many cards (" +:+ numToString (Z.of_nat (length cs))
                   +:+ "); maximum is 7."))) /\
  ((5 <= length cs <= 7)%nat -> ~ NoDup cs ->
   evaluateBestHand (map Some cs) = Throw (Error DUPLICATE_CARD)) /\
  ((5 <= length cs <= 7)%nat -> NoDup cs ->
   exists e, evaluateBestHand (map Some cs) = Ok e).
Proof.
  split_and!.
  - intros H. unfold evaluateBestHand. rewrite length_map.
    by destruct (Nat.ltb_spec (length cs) 5); [|lia].
  - intros H. unfold evaluateBestHand. rewrite length_map.
    destruct (Nat.ltb_spec (length cs) 5); [lia|].
    by destruct (Nat.ltb_spec 7 (length cs)); [|lia].
  - intros [Hlo Hhi] Hdup. unfold evaluateBestHand. rewrite length_map.
    destruct (Nat.ltb_spec (length cs) 5); [lia|].
    destruct (Nat.ltb_spec 7 (length cs)); [lia|].
    rewrite scanDuplicates_duplicate; [done|]. by intros [? _].
  - apply evaluateBestHand_distinct.
Qed.

Lemma evaluateBestHand_input_checks_witness :
  evaluateBestHand
    (map Some [mkCard A SPADES; mkCard K SPADES; mkCard Q SPADES; mkCard J SPADES;
               mkCard A SPADES; mkCard R2 HEARTS])
  = Throw (Error DUPLICATE_CARD).
Proof.
  apply (proj1 (proj2 (proj2 (evaluateBestHand_input_checks _)))).
  - simpl. lia.
  - intros H. apply NoDup_ListNoDup in H.
    inversion H as [|? ? Hin _]; subst. apply Hin. vm_compute. tauto.
Defined.

(** ** evaluateBestHand returns the best five-card hand *)

Lemma bestOf_max combos :
  forall (seen : list EvaluatedHand) b r,
    (forall c, c ∈ seen -> isPositive (compareHands c b) = false) ->
    bestOf (Some b) combos = Ok r ->
    exists b',
      r = Some b' /\
      (forall c, c ∈ seen -> isPositive (compareHands c b') = false) /\
      (forall combo, combo ∈ combos ->
         exists e, evaluateFive combo = Ok e /\
                   isPositive (compareHands e b') = false) /\
      (b' = b \/ exists combo, combo ∈ combos /\ evaluateFive combo = Ok b').
Proof.
  induction combos as [|combo combos IH]; intros seen b r Hseen Hrun.
  - simpl in Hrun. injection Hrun as <-. exists b.
    split_and!; [done|done|by intros ? ?%elem_of_nil|by left].
  - cbn [bestOf] in Hrun.
    destruct (evaluateFive combo) as [e|] eqn:He; [|discriminate].
    simpl in Hrun. destruct (isPositive (compareHands e b)) eqn:Hpos.
    + destruct (IH (e :: seen) e r) as (b' & -> & Hs & Hall & Hfrom); [|done|].
      { intros c [->|Hc]%elem_of_cons.
        - by rewrite compareHands_refl.
        - eapply compareHands_replaced; [exact Hpos|by apply Hseen]. }
      exists b'. split_and!; [done| | |].
      * intros c Hc. apply Hs. by right.
      * intros combo' [->|Hin]%elem_of_cons; [|by apply Hall].
        exists e. split; [done|]. apply Hs. left.
      * right. destruct Hfrom as [->|(combo' & Hin & Hev)].
        -- exists combo. split; [left|done].
        -- exists combo'. split; [by right|done].
    + destruct (IH (e :: seen) b r) as (b' & -> & Hs & Hall & Hfrom); [|done|].
      { intros c [->|Hc]%elem_of_cons; [done|by apply Hseen]. }
      exists b'. split_and!; [done| | |].
      * intros c Hc. apply Hs. by right.
      * intros combo' [->|Hin]%elem_of_cons; [|by apply Hall].
        exists e. split; [done|]. apply Hs. left.
      * destruct Hfrom as [->|(combo' & Hin & Hev)]; [by left|right].
        exists combo'. split; [by right|done].
Qed.

(** X5.  On 5 to 7 distinct cards evaluateBestHand returns the evaluation of
    one of the 5-card sub-hands, and no 5-card sub-hand evaluates to a hand
    that beats it. *)
Theorem evaluateBestHand_is_best (cs : list Card) :
  (5 <= length cs <= 7)%nat -> NoDup cs ->
  exists best,
    evaluateBestHand (map Some cs) = Ok best /\
    (exists combo, combo `sublist_of` cs /\ length combo = 5%nat /\
                   evaluateFive combo = Ok best) /\
    (forall combo, combo `sublist_of` cs -> length combo = 5%nat ->
       exists e, evaluateFive combo = Ok e /\
                 isPositive (compareHands e best) = false).
Proof.
  intros Hlen Hnd.
  destruct (evaluateBestHand_distinct cs Hlen Hnd) as [best Hrun].
  exists best. split; [done|].
  unfold evaluateBestHand in Hrun. rewrite length_map in Hrun.
  destruct (Nat.ltb_spec (length cs) 5); [lia|].
  destruct (Nat.ltb_spec 7 (length cs)); [lia|].
  rewrite scanDuplicates_NoDup in Hrun;
    [|done|intros c _ Hc; by apply elem_of_nil in Hc].
  simpl in Hrun.
  assert (Hcombos : forall combo, combo ∈ getCombinations cs 5 <->
                      combo `sublist_of` cs /\ length combo = 5%nat)
    by (intros; apply elem_of_getCombinations).
  destruct (getCombinations cs 5) as [|combo0 combos] eqn:Ecombos.
  { simpl in Hrun. discriminate. }
  cbn [bestOf] in Hrun.
  destruct (evaluateFive combo0) as [e0|] eqn:He0; [|discriminate].
  simpl in Hrun.
  destruct (bestOf (Some e0) combos) as [r|] eqn:Hbest; [|discriminate].
  simpl in Hrun.
  destruct (bestOf_max combos [e0] e0 r) as (b' & -> & Hs & Hc & Hfrom);
    [|done|].
  { intros c ->%list_elem_of_singleton. by rewrite compareHands_refl. }
  injection Hrun as ->. split.
  - destruct Hfrom as [->|(combo & Hin & Hev)].
    + exists combo0. destruct (proj1 (Hcombos combo0)) as [? ?]; [left|done].
    + exists combo. destruct (proj1 (Hcombos combo)) as [? ?]; [by right|done].
  - intros combo Hsub Hl.
    pose proof (proj2 (Hcombos combo) (conj Hsub Hl)) as Hin.
    apply elem_of_cons in Hin as [->|Hin].
    + exists e0. split; [done|]. apply Hs. left.
    + by apply Hc.
Qed.

Lemma evaluateBestHand_is_best_witness :
  exists best,
    evaluateBestHand
      (map Some [mkCard A SPADES; mkCard A HEARTS; mkCard R2 CLUBS;
                 mkCard R7 DIAMONDS; mkCard R9 HEARTS; mkCard K CLUBS;
                 mkCard R3 SPADES]) = Ok best.
Proof.
  destruct (evaluateBestHand_is_best
              [mkCard A SPADES; mkCard A HEARTS; mkCard R2 CLUBS;
               mkCard R7 DIAMONDS; mkCard R9 HEARTS; mkCard K CLUBS;
               mkCard R3 SPADES]) as (best & Hrun & _).
  - simpl. lia.
  - apply (bool_decide_unpack _). vm_compute. reflexivity.
  - exists best. exact Hrun.
Defined.

(** ** SHOWDOWN: nobody beats a winner *)

Lemma compareTiebreakers_tied w b c :
  isZero (compareTiebreakers w b) = true ->
  isPositive (compareTiebreakers c b) = false ->
  isPositive (compareTiebreakers c w) = false.
Proof.
  revert b c. induction w as [|x w IH]; intros b c; simpl.
  - intros _ _. by destruct c.
  - destruct b as [|y b]; simpl; [done|]. destruct c as [|z c]; simpl; [done|].
    destruct (Z.eqb_spec x y), (Z.eqb_spec z y), (Z.eqb_spec z x);
      simpl; rewrite ?Z.ltb_ge, ?Z.eqb_eq; try lia.
    apply IH.
Qed.

Lemma compareHands_tied w b c :
  isZero (compareHands w b) = true ->
  isPositive (compareHands c b) = false ->
  isPositive (compareHands c w) = false.
Proof.
  unfold compareHands.
  set (iw := indexOf (handRank w) hierarchy).
  set (ib := indexOf (handRank b) hierarchy).
  set (ic := indexOf (handRank c) hierarchy).
  destruct (Z.eqb_spec (iw - ib) 0), (Z.eqb_spec (ic - ib) 0),
    (Z.eqb_spec (ic - iw) 0); simpl; rewrite ?Z.ltb_ge, ?Z.eqb_eq; try lia.
  apply compareTiebreakers_tied.
Qed.

Lemma running_best_unbeaten (results : list (nat * EvaluatedHand)) :
  forall (seen : list EvaluatedHand) init,
    (forall c, c ∈ seen -> isPositive (compareHands c init) = false) ->
    forall c, c ∈ seen \/ c ∈ map snd results ->
      isPositive
        (compareHands c
           (foldl (fun best r =>
                     if isPositive (compareHands (snd r) best) then snd r else best)
                  init results)) = false.
Proof.
  induction results as [|r results IH]; intros seen init Hseen c Hc.
  - simpl. destruct Hc as [Hc|Hc]; [by apply Hseen|by apply elem_of_nil in Hc].
  - cbn [foldl]. destruct (isPositive (compareHands (snd r) init)) eqn:Hpos.
    + apply (IH (snd r :: seen)).
      * intros c' [->|Hc']%elem_of_cons; [by rewrite compareHands_refl|].
        eapply compareHands_replaced; [exact Hpos|by apply Hseen].
      * destruct Hc as [Hc|Hc]; [left; by right|].
        simpl in Hc. apply elem_of_cons in Hc as [->|Hc]; [left; left|by right].
    + apply (IH (snd r :: seen)).
      * intros c' [->|Hc']%elem_of_cons; [done|by apply Hseen].
      * destruct Hc as [Hc|Hc]; [left; by right|].
        simpl in Hc. apply elem_of_cons in Hc as [->|Hc]; [left; left|by right].
Qed.

Lemma mapM_Forall2 {X Y} (f : X -> Result Y) l ys :
  mapM f l = Ok ys -> Forall2 (fun x y => f x = Ok y) l ys.
Proof.
  revert ys. induction l as [|x l IH]; intros ys; simpl.
  - intros [= <-]. constructor.
  - destruct (f x) as [y|] eqn:Hy; [|discriminate]. simpl.
    destruct (mapM f l) as [ys'|]; [|discriminate]. simpl.
    intros [= <-]. constructor; [done|by apply IH].
Qed.

Lemma filter_filter_same {X} (f : X -> bool) l :
  List.filter f (List.filter f l) = List.filter f l.
Proof.
  induction l as [|x l IH]; simpl; [done|].
  destruct (f x) eqn:E; simpl; [by rewrite E, IH|done].
Qed.

Lemma compareTiebreakers_zero_trans a b c :
  isZero (compareTiebreakers a b) = true ->
  isZero (compareTiebreakers b c) = true ->
  isZero (compareTiebreakers a c) = true.
Proof.
  revert b c. induction a as [|x a IH]; intros [|y b] [|z c]; simpl; try done.
  destruct (Z.eqb_spec x y) as [->|Hxy].
  - destruct (Z.eqb_spec y z) as [->|Hyz]; [apply IH|].
    intros _ H. apply Z.eqb_eq in H. lia.
  - intros H. apply Z.eqb_eq in H. lia.
Qed.

Lemma compareHands_zero_trans a b c :
  isZero (compareHands a b) = true ->
  isZero (compareHands b c) = true ->
  isZero (compareHands a c) = true.
Proof.
  unfold compareHands.
  set (ia := indexOf (handRank a) hierarchy).
  set (ib := indexOf (handRank b) hierarchy).
  set (ic := indexOf (handRank c) hierarchy).
  destruct (Z.eqb_spec (ia - ib) 0), (Z.eqb_spec (ib - ic) 0),
    (Z.eqb_spec (ia - ic) 0); simpl; rewrite ?Z.eqb_eq; try lia.
  apply compareTiebreakers_zero_trans.
Qed.

Lemma SHOWDOWN_contenders ps community :
  SHOWDOWN ps community
  = SHOWDOWN (List.filter (fun sp => negb (isFolded (snd sp))) ps) community.
Proof. unfold SHOWDOWN. by rewrite filter_filter_same. Qed.

(** X6.  With 3 to 5 community cards and at least one player who has not
    folded, each of them holding two hole cards distinct from one another
    and from the board, SHOWDOWN returns a non-empty list of winners; every
    winner is a non-folded player listed with the evaluation of their best
    hand, no non-folded player's best hand beats a winner's, and every non-
    folded player whose best hand ties a winner's is a winner too. *)
Theorem SHOWDOWN_winners_unbeaten (ps : list (nat * Player)) (community : list Card) :
  (3 <= length community <= 5)%nat ->
  (exists sp, sp ∈ ps /\ isFolded (snd sp) = false) ->
  (forall sp, sp ∈ ps -> isFolded (snd sp) = false ->
     length (hand (snd sp)) = 2%nat /\ NoDup (hand (snd sp) ++ community)) ->
  exists winners,
    SHOWDOWN ps community = Ok winners /\
    winners <> [] /\
    forall w, w ∈ winners ->
      (exists p, (fst w, p) ∈ ps /\ isFolded p = false /\
                 evaluateBestHand (map Some (hand p ++ community)) = Ok (snd w)) /\
      (forall sp, sp ∈ ps -> isFolded (snd sp) = false ->
         exists e, evaluateBestHand (map Some (hand (snd sp) ++ community)) = Ok e /\
                   isPositive (compareHands e (snd w)) = false /\
                   (isZero (compareHands e (snd w)) = true ->
                    (fst sp, e) ∈ winners)).
Proof.
  intros Hcc (sp0 & Hsp0 & Hlive0) Hcards.
  set (contenders := List.filter (fun sp => negb (isFolded (snd sp))) ps).
  assert (Hin : forall sp, sp ∈ contenders <-> sp ∈ ps /\ isFolded (snd sp) = false).
  { intros sp. subst contenders. rewrite list_elem_of_In, filter_In,
      <- list_elem_of_In, negb_true_iff. done. }
  destruct (SHOWDOWN_returns contenders community) as (winners & Hrun & Hne & _).
  { intros Hnil. assert (sp0 ∈ contenders) as H0 by (by apply Hin).
    rewrite Hnil in H0. by apply elem_of_nil in H0. }
  { apply Forall_forall. intros sp [_ Hsp]%Hin. by rewrite Hsp. }
  { split; [done|]. apply Forall_forall. intros sp [Hsp Hl]%Hin. by apply Hcards. }
  unfold contenders in Hrun. rewrite <- SHOWDOWN_contenders in Hrun.
  exists winners. split; [done|]. split; [done|].
  unfold SHOWDOWN in Hrun. fold contenders in Hrun.
  destruct (_ || _); [discriminate|]. destruct (_ =? 0)%nat; [discriminate|].
  apply mapM_inv in Hrun as (results & Hres & Hrest).
  apply mapM_Forall2 in Hres.
  destruct results as [|r0 others]; [discriminate|].
  match type of Hrest with
  | Ok (List.filter ?f ?l) = _ =>
      assert (Hwin : winners = List.filter f l) by congruence
  end.
  clear Hrest. subst winners.
  set (bestEval := foldl _ (snd r0) others).
  assert (Hbest : forall r, r ∈ r0 :: others ->
                    isPositive (compareHands (snd r) bestEval) = false).
  { intros r Hr. subst bestEval. apply (running_best_unbeaten others [snd r0]).
    - intros c ->%list_elem_of_singleton. by rewrite compareHands_refl.
    - apply elem_of_cons in Hr as [->|Hr]; [left; left|right].
      apply list_elem_of_fmap. by exists r. }
  intros w Hw. apply list_elem_of_In, filter_In in Hw as [Hw Hzero].
  apply list_elem_of_In in Hw. split.
  - apply list_elem_of_lookup in Hw as [k Hk].
    destruct (Forall2_lookup_r _ _ _ _ _ Hres Hk) as (sp & Hsp & Hev).
    apply list_elem_of_lookup_2 in Hsp. apply Hin in Hsp as [Hsp Hlive].
    destruct (Hcards sp Hsp Hlive) as [H2 _]. rewrite H2 in Hev. simpl in Hev.
    destruct (evaluateBestHand _) as [e|] eqn:He; [|discriminate].
    simpl in Hev. injection Hev as <-. simpl.
    exists (snd sp). split_and!; [by destruct sp|done|done].
  - intros sp Hsp Hlive.
    assert (Hc : sp ∈ contenders) by (by apply Hin).
    apply list_elem_of_lookup in Hc as [k Hk].
    destruct (Forall2_lookup_l _ _ _ _ _ Hres Hk) as (r & Hr & Hev).
    destruct (Hcards sp Hsp Hlive) as [H2 _]. rewrite H2 in Hev. simpl in Hev.
    destruct (evaluateBestHand _) as [e|] eqn:He; [|discriminate].
    simpl in Hev. injection Hev as <-. exists e. split; [done|]. split.
    + eapply compareHands_tied; [exact Hzero|].
      apply (Hbest (fst sp, e)). by eapply list_elem_of_lookup_2.
    + intros Htie. apply list_elem_of_In, filter_In. split.
      * apply list_elem_of_In. by eapply list_elem_of_lookup_2.
      * simpl. by eapply compareHands_zero_trans.
Qed.

Lemma SHOWDOWN_winners_unbeaten_witness :
  exists winners,
    SHOWDOWN (deref (players riverShowdown) [0; 1; 2]%nat)
             (communityCards riverShowdown) = Ok winners /\
    winners <> [].
Proof.
  destruct (SHOWDOWN_winners_unbeaten
              (deref (players riverShowdown) [0; 1; 2]%nat)
              (communityCards riverShowdown)) as (winners & Hrun & Hne & _).
  - simpl. lia.
  - eexists. split; [apply (list_elem_of_lookup_2 _ 0%nat); reflexivity|done].
  - intros sp Hsp Hlive. vm_compute in Hsp.
    apply elem_of_cons in Hsp as [->|Hsp];
      [split; [reflexivity|apply (bool_decide_unpack _); vm_compute; reflexivity]|].
    apply elem_of_cons in Hsp as [->|Hsp];
      [split; [reflexivity|apply (bool_decide_unpack _); vm_compute; reflexivity]|].
    apply elem_of_cons in Hsp as [->|Hsp]; [discriminate|].
    by apply elem_of_nil in Hsp.
  - exists winners. split; [exact Hrun|exact Hne].
Defined.

(** ** The deck *)

(** X7.  Deck.shuffle only reorders: the shuffled cards are a permutation of
    the cards given, whatever the random choices, so a freshly shuffled deck
    holds each of the 52 cards exactly once. *)
Theorem shuffled_deck_is_complete (pick : nat -> nat) :
  (forall cards : list Card, shuffle pick cards ≡ₚ cards) /\
  freshDeck pick ≡ₚ ALL_CARDS /\
  NoDup (freshDeck pick) /\
  (forall c : Card, c ∈ freshDeck pick).
Proof.
  assert (Hp : freshDeck pick ≡ₚ ALL_CARDS) by apply shuffle_Permutation.
  split_and!.
  - intros cards. apply shuffle_Permutation.
  - done.
  - rewrite Hp. apply ALL_CARDS_NoDup.
  - intros c. rewrite Hp. apply ALL_CARDS_complete.
Qed.

(** ** Dealing hole cards *)

Lemma cardsInHands_deal ps i p c :
  ps !! i = Some p ->
  cardsInHands (alter (fun q => setHand (hand q ++ [c])%list q) i ps)
  ≡ₚ c :: cardsInHands ps.
Proof.
  unfold cardsInHands. revert i. induction ps as [|q ps IH]; intros i Hi; [done|].
  destruct i as [|i]; simpl in *.
  - injection Hi as ->. rewrite <- app_assoc. simpl.
    symmetry. apply Permutation_middle.
  - rewrite (IH i Hi). by rewrite Permutation_middle.
Qed.

Lemma dealRound_conserves seats :
  forall cards ps cards' ps',
    dealRound seats (cards, ps) = Ok (cards', ps') ->
    (cardsInHands ps' ++ cards')%list ≡ₚ (cardsInHands ps ++ cards)%list.
Proof.
  induction seats as [|i seats IH]; intros cards ps cards' ps' Hrun.
  - simpl in Hrun. by injection Hrun as <- <-.
  - cbn [dealRound] in Hrun. simpl in Hrun.
    destruct (ps !! i) as [p|] eqn:Hp; [|by apply IH].
    destruct (length (hand p) <? 2)%nat; [|by apply IH].
    destruct cards as [|c rest]; [discriminate|]. simpl in Hrun.
    rewrite (IH _ _ _ _ Hrun), (cardsInHands_deal _ _ _ _ Hp).
    simpl. by rewrite Permutation_middle.
Qed.

Lemma dealToPlayers_conserves (seats : list nat) (cards cards' : list Card)
    (ps ps' : list Player) :
  dealToPlayers seats (cards, ps) = Ok (cards', ps') ->
  (cardsInHands ps' ++ cards')%list ≡ₚ (cardsInHands ps ++ cards)%list /\
  length ps' = length ps.
Proof.
  assert (Hlen : forall seats cards ps cards' ps',
             dealRound seats (cards, ps) = Ok (cards', ps') ->
             length ps' = length ps).
  { clear. induction seats as [|i seats IH]; intros cards ps cards' ps' Hrun.
    - simpl in Hrun. by injection Hrun as <- <-.
    - cbn [dealRound] in Hrun. simpl in Hrun.
      destruct (ps !! i) as [p|]; [|by eapply IH].
      destruct (length (hand p) <? 2)%nat; [|by eapply IH].
      destruct cards as [|c rest]; [discriminate|]. simpl in Hrun.
      rewrite (IH _ _ _ _ Hrun). by rewrite length_alter. }
  unfold dealToPlayers. destruct seats as [|i seats].
  - intros [= <- <-]. done.
  - intros Hrun.
    destruct (dealRound (i :: seats) (cards, ps)) as [[cards1 ps1]|] eqn:H1;
      [|discriminate].
    cbv beta iota delta [mbind Result_bind] in Hrun. split.
    + rewrite (dealRound_conserves _ _ _ _ _ Hrun).
      apply (dealRound_conserves _ _ _ _ _ H1).
    + rewrite (Hlen _ _ _ _ _ Hrun). apply (Hlen _ _ _ _ _ H1).
Qed.

(** One pass over seats that can all take a card. *)
Lemma dealRound_spec seats :
  forall cards ps,
    NoDup seats ->
    (forall i, i ∈ seats ->
       exists p, ps !! i = Some p /\ (length (hand p) < 2)%nat) ->
    (length seats <= length cards)%nat ->
    exists ps',
      dealRound seats (cards, ps) = Ok (drop (length seats) cards, ps') /\
      (forall k i, seats !! k = Some i ->
         exists p c, ps !! i = Some p /\ cards !! k = Some c /\
                     ps' !! i = Some (setHand (hand p ++ [c])%list p)) /\
      (forall j, j ∉ seats -> ps' !! j = ps !! j).
Proof.
  induction seats as [|i seats IH]; intros cards ps Hnd Hseats Hlen.
  - exists ps. simpl. rewrite drop_0. split_and!; [done| |done].
    intros k i Hk. by rewrite lookup_nil in Hk.
  - apply NoDup_cons in Hnd as [Hi Hnd].
    destruct (Hseats i ltac:(left)) as (p & Hp & Hh).
    destruct cards as [|c rest]; [simpl in Hlen; lia|].
    cbn [dealRound]. simpl. rewrite Hp.
    destruct (Nat.ltb_spec (length (hand p)) 2); [|lia].
    set (ps1 := alter _ i ps).
    assert (Hother : forall j, j <> i -> ps1 !! j = ps !! j).
    { intros j Hj. subst ps1. by rewrite list_lookup_alter_ne. }
    destruct (IH rest ps1 Hnd) as (ps' & -> & Hdealt & Hrest).
    { intros j Hj. rewrite Hother; [apply Hseats; by right|].
      intros ->. done. }
    { simpl in Hlen. lia. }
    exists ps'. split_and!; [done| |].
    + intros [|k] j Hk; simpl in Hk.
      * injection Hk as <-. exists p, c. split_and!; [done|done|].
        rewrite Hrest by done. subst ps1.
        by rewrite list_lookup_alter_eq, Hp.
      * destruct (Hdealt k j Hk) as (q & c' & Hq & Hc' & Hq').
        exists q, c'. split_and!; [|done|done].
        rewrite <- Hother; [done|]. intros ->.
        apply Hi. by eapply list_elem_of_lookup_2.
    + intros j Hj. rewrite not_elem_of_cons in Hj. destruct Hj as [Hji Hj].
      rewrite Hrest by done. by apply Hother.
Qed.

Lemma dealToPlayers_spec (seats : list nat) (cards : list Card)
    (ps : list Player) :
  NoDup seats ->
  (forall i, i ∈ seats -> exists p, ps !! i = Some p /\ hand p = []) ->
  (2 * length seats <= length cards)%nat ->
  exists ps',
    dealToPlayers seats (cards, ps) = Ok (drop (2 * length seats) cards, ps') /\
    (forall k i, seats !! k = Some i ->
       exists p c1 c2,
         ps !! i = Some p /\ cards !! k = Some c1 /\
         cards !! (length seats + k)%nat = Some c2 /\
         ps' !! i = Some (setHand [c1; c2] p)) /\
    (forall j, j ∉ seats -> ps' !! j = ps !! j).
Proof.
  intros Hnd Hempty Hlen. unfold dealToPlayers.
  destruct seats as [|i0 seats0] eqn:Eseats.
  { exists ps. simpl. rewrite drop_0. split_and!; [done| |done].
    intros k i Hk. by rewrite lookup_nil in Hk. }
  rewrite <- Eseats in *. clear Eseats i0 seats0.
  destruct (dealRound_spec seats cards ps Hnd) as (ps1 & -> & Hd1 & Hr1).
  { intros i Hi. destruct (Hempty i Hi) as (p & Hp & Hh).
    exists p. rewrite Hh. split; [done|simpl; lia]. }
  { lia. }
  simpl.
  destruct (dealRound_spec seats (drop (length seats) cards) ps1 Hnd)
    as (ps2 & -> & Hd2 & Hr2).
  { intros i Hi. apply list_elem_of_lookup in Hi as [k Hk].
    destruct (Hd1 k i Hk) as (p & c & Hp & Hc & Hp1).
    destruct (Hempty i (list_elem_of_lookup_2 _ _ _ Hk)) as (p0 & Hp0 & Hh).
    assert (p0 = p) as -> by congruence.
    eexists. split; [exact Hp1|]. simpl. rewrite Hh. simpl. lia. }
  { rewrite length_drop. lia. }
  exists ps2. rewrite drop_drop.
  replace (length seats + length seats)%nat with (2 * length seats)%nat by lia.
  split_and!; [done| |].
  - intros k i Hk.
    destruct (Hd1 k i Hk) as (p & c1 & Hp & Hc1 & Hp1).
    destruct (Hd2 k i Hk) as (p1 & c2 & Hp1' & Hc2 & Hp2).
    rewrite Hp1 in Hp1'. injection Hp1' as <-.
    destruct (Hempty i (list_elem_of_lookup_2 _ _ _ Hk)) as (p0 & Hp0 & Hh).
    assert (p0 = p) as -> by congruence.
    rewrite lookup_drop in Hc2.
    exists p, c1, c2. split_and!; [done|done|done|].
    rewrite Hp2. simpl. rewrite Hh. done.
  - intros j Hj. rewrite Hr2, Hr1 by done. done.
Qed.

Lemma dealRound_short seats :
  forall cards ps,
    NoDup seats ->
    (forall i, i ∈ seats ->
       exists p, ps !! i = Some p /\ (length (hand p) < 2)%nat) ->
    (length cards < length seats)%nat ->
    dealRound seats (cards, ps) = Throw (Error "No more cards in the deck").
Proof.
  induction seats as [|i seats IH]; intros cards ps Hnd Hseats Hlen;
    [simpl in Hlen; lia|].
  apply NoDup_cons in Hnd as [Hi Hnd].
  destruct (Hseats i ltac:(left)) as (p & Hp & Hh).
  cbn [dealRound]. simpl. rewrite Hp.
  destruct (Nat.ltb_spec (length (hand p)) 2); [|lia].
  destruct cards as [|c rest]; [done|]. simpl.
  apply IH; [done| |simpl in Hlen; lia].
  intros j Hj. rewrite list_lookup_alter_ne by (intros ->; done).
  apply Hseats. by right.
Qed.

(** X8.  dealToPlayers on distinct players with empty hands deals two cards
    to each, one round at a time: the player at position k of the list
    receives card k and card n+k from the top of the deck (n players), the
    deck loses exactly its first 2n cards and nobody else is touched; with
    fewer than 2n cards in the deck it fails with 'No more cards in the
    deck'. *)
Theorem dealToPlayers_two_each (seats : list nat) (cards : list Card)
    (ps : list Player) :
  NoDup seats ->
  (forall i, i ∈ seats -> exists p, ps !! i = Some p /\ hand p = []) ->
  ((2 * length seats <= length cards)%nat ->
   exists ps',
     dealToPlayers seats (cards, ps) = Ok (drop (2 * length seats) cards, ps') /\
     (forall k i, seats !! k = Some i ->
        exists p c1 c2,
          ps !! i = Some p /\ cards !! k = Some c1 /\
          cards !! (length seats + k)%nat = Some c2 /\
          ps' !! i = Some (setHand [c1; c2] p)) /\
     (forall j, j ∉ seats -> ps' !! j = ps !! j)) /\
  ((length cards < 2 * length seats)%nat ->
   dealToPlayers seats (cards, ps) = Throw (Error "No more cards in the deck")).
Proof.
  intros Hnd Hempty. split; [by apply dealToPlayers_spec|].
  intros Hshort. unfold dealToPlayers.
  destruct seats as [|i0 seats0] eqn:Eseats; [simpl in Hshort; lia|].
  rewrite <- Eseats in *. clear Eseats i0 seats0.
  assert (Hone : forall i, i ∈ seats ->
                   exists p, ps !! i = Some p /\ (length (hand p) < 2)%nat).
  { intros i Hi. destruct (Hempty i Hi) as (p & Hp & Hh).
    exists p. rewrite Hh. split; [done|simpl; lia]. }
  destruct (decide (length cards < length seats)%nat) as [Hlt|Hge].
  { by rewrite dealRound_short. }
  destruct (dealRound_spec seats cards ps Hnd Hone ltac:(lia)) as (ps1 & -> & Hd1 & _).
  simpl. apply dealRound_short; [done| |rewrite length_drop; lia].
  intros i Hi. apply list_elem_of_lookup in Hi as [k Hk].
  destruct (Hd1 k i Hk) as (p & c & Hp & Hc & Hp1).
  destruct (Hempty i (list_elem_of_lookup_2 _ _ _ Hk)) as (p0 & Hp0 & Hh).
  assert (p0 = p) as -> by congruence.
  eexists. split; [exact Hp1|]. simpl. rewrite Hh. simpl. lia.
Qed.

Lemma dealToPlayers_two_each_witness :
  exists ps',
    dealToPlayers [0; 1]%nat (fiveCards, twoEmptySeats)
    = Ok ([mkCard R7 DIAMONDS], ps').
Proof.
  destruct (dealToPlayers_two_each [0; 1]%nat fiveCards twoEmptySeats) as [Hdeal _].
  - apply (bool_decide_unpack _). vm_compute. reflexivity.
  - intros i Hi. apply elem_of_cons in Hi as [->|Hi]; [by eexists|].
    apply elem_of_cons in Hi as [->|Hi]; [by eexists|].
    by apply elem_of_nil in Hi.
  - destruct Hdeal as (ps' & Hrun & _); [simpl; lia|].
    exists ps'. exact Hrun.
Defined.

(** ** Community cards *)

(** X9.  dealCommunityCards deals a street exactly when asked for the flop
    (count 3) on an empty board or for one card on a board of 3 or 4: it
    burns the top card of the deck, appends the next 3 (flop) or 1 (turn,
    river) cards to the board, keeps the rest as the deck and sets the
    street's message, or fails with 'No more cards in the deck' when the
    deck is too short; for any other count or board the state is returned
    unchanged. *)
Theorem dealCommunityCards_deals_from_top (count : Z) (g : GameState) :
  (forall k text,
      (count = 3 /\ length (communityCards g) = 0%nat /\ k = 3%nat /\ text = FLOP_DEALT) \/
      (count = 1 /\ length (communityCards g) = 3%nat /\ k = 1%nat /\ text = TURN_DEALT) \/
      (count = 1 /\ length (communityCards g) = 4%nat /\ k = 1%nat /\ text = RIVER_DEALT) ->
      (forall burned dealt rest,
          deck g = burned :: (dealt ++ rest)%list -> length dealt = k ->
          dealCommunityCards count g
          = Ok (setDeck rest
                  (setMessage text
                     (setCommunityCards (communityCards g ++ dealt)%list g)))) /\
      ((length (deck g) <= k)%nat ->
       dealCommunityCards count g = Throw (Error "No more cards in the deck"))) /\
  (~ (count = 3 /\ length (communityCards g) = 0%nat) ->
   ~ (count = 1 /\ (length (communityCards g) = 3%nat \/
                    length (communityCards g) = 4%nat)) ->
   dealCommunityCards count g = Ok g).
Proof.
  unfold dealCommunityCards, dealFLOP, dealTURN, dealRIVER, burnOne, dealOne.
  split.
  - intros k text [(-> & Hn & -> & ->)|[(-> & Hn & -> & ->)|(-> & Hn & -> & ->)]];
      rewrite Hn; simpl; split.
    + intros burned [|c1 [|c2 [|c3 [|? ?]]]] rest Hd Hk; try discriminate.
      by rewrite Hd.
    + intros Hshort. by destruct (deck g) as [|b [|c1 [|c2 [|c3 rest]]]];
        simpl in *; try lia.
    + intros burned [|c1 [|? ?]] rest Hd Hk; try discriminate. by rewrite Hd.
    + intros Hshort. by destruct (deck g) as [|b [|c1 rest]]; simpl in *; try lia.
    + intros burned [|c1 [|? ?]] rest Hd Hk; try discriminate. by rewrite Hd.
    + intros Hshort. by destruct (deck g) as [|b [|c1 rest]]; simpl in *; try lia.
  - intros Hflop Hstreet.
    assert (Hsame : setDeck (deck g) g = g) by by destruct g.
    destruct (Z.eqb_spec count 3) as [->|H3];
      [destruct (Nat.eqb_spec (length (communityCards g)) 0) as [H0|H0]|]; simpl.
    + tauto.
    + by rewrite Hsame.
    + destruct (Z.eqb_spec count 1) as [->|H1]; [|by rewrite Hsame].
      destruct (Nat.eqb_spec (length (communityCards g)) 3) as [Hl3|Hl3]; [tauto|].
      destruct (Nat.eqb_spec (length (communityCards g)) 4) as [Hl4|Hl4]; [tauto|].
      by rewrite Hsame.
Qed.

Lemma dealCommunityCards_deals_from_top_witness :
  dealCommunityCards 1 flopDealt
  = Ok (setDeck [mkCard R3 SPADES]
          (setMessage TURN_DEALT
             (setCommunityCards
                [mkCard R2 CLUBS; mkCard R7 DIAMONDS; mkCard R9 HEARTS;
                 mkCard K DIAMONDS] flopDealt))).
Proof.
  apply (proj1 (proj1 (dealCommunityCards_deals_from_top 1 flopDealt) 1%nat TURN_DEALT
                  (or_intror (or_introl (conj eq_refl (conj eq_refl
                                                         (conj eq_refl eq_refl))))))
               (mkCard R5 CLUBS) [mkCard K DIAMONDS] [mkCard R3 SPADES]);
    reflexivity.
Defined.

(** X10.  Dealing flop, turn and river in turn from an empty board uses
    eight cards from the top of the deck: cards 2, 3, 4 become the flop,
    card 6 the turn and card 8 the river, cards 1, 5 and 7 are burned, the
    remaining cards stay as the deck, and players and pot are untouched. *)
Theorem board_after_three_streets (g : GameState)
    (b1 f1 f2 f3 b2 t b3 r : Card) (rest : list Card) :
  communityCards g = [] ->
  deck g = b1 :: f1 :: f2 :: f3 :: b2 :: t :: b3 :: r :: rest ->
  exists g1 g2 g3,
    dealCommunityCards 3 g = Ok g1 /\
    dealCommunityCards 1 g1 = Ok g2 /\
    dealCommunityCards 1 g2 = Ok g3 /\
    communityCards g1 = [f1; f2; f3] /\
    communityCards g2 = [f1; f2; f3; t] /\
    communityCards g3 = [f1; f2; f3; t; r] /\
    deck g3 = rest /\
    players g3 = players g /\ pot g3 = pot g.
Proof.
  intros Hcc Hd. unfold dealCommunityCards. rewrite Hcc, Hd. simpl.
  eexists _, _, _. split; [reflexivity|]. simpl.
  split; [reflexivity|]. simpl. split; [reflexivity|]. simpl. done.
Qed.

Lemma board_after_three_streets_witness :
  exists g3,
    (g1 ← dealCommunityCards 3 beforeTheFlop;
     g2 ← dealCommunityCards 1 g1; dealCommunityCards 1 g2) = Ok g3 /\
    communityCards g3
    = [mkCard R3 SPADES; mkCard R4 SPADES; mkCard R5 SPADES; mkCard R7 SPADES;
       mkCard R9 SPADES].
Proof.
  destruct (board_after_three_streets beforeTheFlop
              (mkCard R2 SPADES) (mkCard R3 SPADES) (mkCard R4 SPADES)
              (mkCard R5 SPADES) (mkCard R6 SPADES) (mkCard R7 SPADES)
              (mkCard R8 SPADES) (mkCard R9 SPADES)
              [mkCard R10 SPADES; mkCard J SPADES] eq_refl eq_refl)
    as (g1 & g2 & g3 & H1 & H2 & H3 & _ & _ & Hcc & _).
  exists g3. rewrite H1. simpl. rewrite H2. simpl. by rewrite H3.
Defined.

(** ** What the validator accepts *)

Lemma find_findIndex {T} (f : T -> bool) l x :
  List.find f l = Some x -> exists i, findIndex f l = Some i /\ l !! i = Some x.
Proof.
  induction l as [|y l IH]; simpl; [discriminate|].
  destruct (f y).
  - intros [= ->]. by exists 0%nat.
  - intros H. destruct (IH H) as (i & -> & Hi). by exists (S i).
Qed.

Lemma getAllowedActions_allIn g p :
  role p <> VIEWER -> isAllIn p = true -> getAllowedActions g p = [Fold; Check].
Proof.
  intros Hr Ha. unfold getAllowedActions.
  by rewrite bool_decide_eq_false_2, Ha by done.
Qed.

(** X11.  An action that validatePlayerAction accepts comes from a player
    found by id who is neither a viewer nor folded, its type is one of that
    player's allowed actions, the validation reports exactly
    getAllowedActions for the player, and canPlayerPerformAction agrees. *)
Theorem valid_action_is_allowed (g : GameState) (action : Action) :
  isValid (validatePlayerAction g action) = true ->
  exists p,
    findPlayer g (playerId action) = Some p /\
    role p <> VIEWER /\ isFolded p = false /\
    allowedActions (validatePlayerAction g action) = getAllowedActions g p /\
    actionType action ∈ getAllowedActions g p /\
    canPlayerPerformAction g (playerId action) (actionType action) = true.
Proof.
  intros Hv. unfold canPlayerPerformAction. unfold validatePlayerAction in *.
  destruct (findPlayer g (playerId action)) as [p|] eqn:Hfind; [|discriminate].
  exists p. case_bool_decide as Hrole; [discriminate|].
  destruct (isFolded p) eqn:Hf; [discriminate|].
  match type of Hv with
  | isValid ?X = true =>
      assert (allowedActions X = getAllowedActions g p /\
              includes (actionType action) (getAllowedActions g p) = true)
        as [H1 H2]
  end.
  { destruct (isAllIn p) eqn:Ha.
    - rewrite (getAllowedActions_allIn g p Hrole Ha).
      destruct (actionType action); try discriminate; done.
    - destruct (chips p =? 0) eqn:Hc; [discriminate|]. cbv zeta in *.
      unfold validateFold, validateCheck, validateCall, validateRaise,
        validateAllIn in *.
      destruct (actionType action);
        repeat match type of Hv with
               | isValid (if ?c then _ else _) = true => destruct c eqn:?
               end;
        cbn [isValid allowedActions] in *; try discriminate; try done.
      split; [done|]. by apply negb_false_iff. }
  split_and!; [done|done|done|done| |done].
  by apply bool_decide_eq_true in H2.
Qed.

Lemma valid_action_is_allowed_witness :
  canPlayerPerformAction headsUpAfterBlinds "1" Call = true.
Proof.
  destruct (valid_action_is_allowed headsUpAfterBlinds (mkAction "1" Call None))
    as (p & _ & _ & _ & _ & _ & H).
  - vm_compute. reflexivity.
  - exact H.
Defined.

(** ** The bounds of a raise *)

Lemma includes_Raise g p :
  mayAct p ->
  includes Raise (getAllowedActions g p)
  = (getMinimumRaise g <=? chips p + currentBet p).
Proof.
  intros (Hr & _ & Ha & Hc). unfold getAllowedActions.
  rewrite bool_decide_eq_false_2 by done. rewrite Ha.
  apply Z.eqb_neq in Hc. rewrite Hc. cbv zeta.
  destruct (getMinimumRaise g <=? chips p + currentBet p);
    destruct (Z.max 0 (getHighestCurrentBet g - currentBet p) =? 0);
    reflexivity.
Qed.

(** X12.  For a player who may act (seated, not folded, not all-in, with
    chips), a Raise is accepted exactly when it carries a non-zero amount
    between the minRaise and the maxRaise that getActionRequirements reports
    for that player. *)
Theorem raise_accepted_within_requirements (g : GameState) (ident : string)
    (p : Player) (amt : option Z) :
  findPlayer g ident = Some p -> mayAct p ->
  (isValid (validatePlayerAction g (mkAction ident Raise amt)) = true <->
   exists v, amt = Some v /\ v <> 0 /\
             ActionRequirements.minRaise (getActionRequirements g ident) <= v
             <= ActionRequirements.maxRaise (getActionRequirements g ident)).
Proof.
  intros Hfind Hmay. pose proof (includes_Raise g p Hmay) as Hinc.
  destruct Hmay as (Hr & Hf & Ha & Hc).
  unfold validatePlayerAction, getActionRequirements. simpl. rewrite Hfind.
  rewrite bool_decide_eq_false_2 by done. rewrite Hf, Ha.
  apply Z.eqb_neq in Hc. rewrite Hc. simpl.
  unfold validateRaise. rewrite Hinc. simpl amount.
  destruct (Z.leb_spec (getMinimumRaise g) (chips p + currentBet p)) as [Hle|Hlt];
    simpl.
  - destruct amt as [v|]; simpl.
    + destruct (Z.eqb_spec v 0) as [->|Hv]; simpl.
      * split; [discriminate|]. by intros (v & [= <-] & ? & _).
      * destruct (Z.ltb_spec v (getMinimumRaise g)); simpl.
        -- split; [discriminate|]. intros (v' & [= <-] & _ & ? & _). lia.
        -- destruct (Z.ltb_spec (chips p + currentBet p) v); simpl.
           ++ split; [discriminate|]. intros (v' & [= <-] & _ & _ & ?). lia.
           ++ split; [|done]. intros _. exists v. done.
    + split; [discriminate|]. by intros (v & ? & _).
  - split; [discriminate|]. intros (v & _ & _ & ? & ?). lia.
Qed.

Lemma raise_accepted_within_requirements_witness :
  isValid (validatePlayerAction headsUpAfterBlinds (mkAction "1" Raise (Some 60)))
  = true.
Proof.
  apply (raise_accepted_within_requirements headsUpAfterBlinds "1"
           (mkPlayer "1" "Bob" [mkCard R7 HEARTS; mkCard R7 CLUBS] 990 10 10 false
                     DEALER false false) (Some 60)).
  - reflexivity.
  - unfold mayAct. simpl. split_and!; done.
  - exists 60. vm_compute. split_and!; (done || discriminate).
Defined.

(** ** The pot and the contributions *)

Lemma sumTotalBets_alter ps i p f :
  ps !! i = Some p ->
  sumTotalBets (alter f i ps) = sumTotalBets ps - totalBet p + totalBet (f p).
Proof.
  unfold sumTotalBets. revert i. induction ps as [|q ps IH]; intros [|i] H;
    simpl in *; try discriminate.
  - injection H as ->. lia.
  - specialize (IH _ H). unfold alter in IH. lia.
Qed.

Lemma sumTotalBets_alter_same ps i f :
  (forall p, totalBet (f p) = totalBet p) ->
  sumTotalBets (alter f i ps) = sumTotalBets ps.
Proof.
  intros Hf. unfold sumTotalBets. revert i.
  induction ps as [|q ps IH]; intros [|i]; simpl; try done.
  - by rewrite Hf.
  - specialize (IH i). unfold alter in IH. by rewrite IH.
Qed.

Lemma sumTotalBets_map_same ps f :
  (forall p, totalBet (f p) = totalBet p) ->
  sumTotalBets (map f ps) = sumTotalBets ps.
Proof.
  intros Hf. unfold sumTotalBets. induction ps as [|q ps IH]; simpl; [done|].
  by rewrite Hf, IH.
Qed.

Lemma totalBet_reopenFor a p : totalBet (reopenFor a p) = totalBet p.
Proof. unfold reopenFor. by destruct (_ && _). Qed.

Lemma processValidatedAction_potBeyondBets g action :
  potBeyondBets (processValidatedAction g action) = potBeyondBets g.
Proof.
  unfold processValidatedAction. destruct (findSeat _ _) as [i|]; [|done].
  unfold potBeyondBets.
  destruct (actionType action).
  - unfold processFold. destruct (players g !! i); [|done]. simpl.
    by rewrite sumTotalBets_alter_same.
  - unfold processCheck. destruct (players g !! i); [|done]. simpl.
    by rewrite sumTotalBets_alter_same.
  - unfold processCall. destruct (players g !! i) as [p|] eqn:Hp; [|done].
    set (c := Z.min _ _).
    destruct (chips p - c =? 0); simpl;
      rewrite ?(sumTotalBets_alter_same _ _ (setIsAllIn true)) by done;
      rewrite (sumTotalBets_alter _ _ p) by done; simpl; lia.
  - unfold processRaise. destruct (players g !! i) as [p|] eqn:Hp; [|done].
    destruct (noAmount (amount action)); [done|].
    set (t := Z.min _ _).
    destruct (chips p - (t - currentBet p) =? 0); simpl;
      rewrite ?(sumTotalBets_alter_same _ _ (setIsAllIn true)) by done;
      rewrite sumTotalBets_map_same by apply totalBet_reopenFor;
      rewrite (sumTotalBets_alter _ _ p) by done; simpl; lia.
  - unfold processAllIn. destruct (players g !! i) as [p|] eqn:Hp; [|done].
    destruct (getHighestCurrentBet g <? currentBet p + chips p); simpl;
      rewrite ?sumTotalBets_map_same by apply totalBet_reopenFor;
      rewrite (sumTotalBets_alter _ _ p) by done; simpl; lia.
Qed.

Lemma handleAutomaticWin_potBeyondBets g :
  potBeyondBets (fst (handleAutomaticWin g)) = potBeyondBets g.
Proof.
  unfold handleAutomaticWin. by destruct (getActivePlayersOfGame g) as [|? [|? ?]].
Qed.

(** X13.  Every betting step adds the same amount to the pot and to the
    acting player's totalBet: pot minus the sum of all totalBet is unchanged
    by processValidatedAction and by a whole processAction, so a pot that
    equals the sum of the players' totalBet stays equal to it. *)
Theorem pot_tracks_total_bets (g : GameState) (action : Action) :
  potBeyondBets (processValidatedAction g action) = potBeyondBets g /\
  potBeyondBets (ActionResult.gameState (processAction g action)) = potBeyondBets g /\
  (pot g = sumTotalBets (players g) ->
   pot (ActionResult.gameState (processAction g action))
   = sumTotalBets (players (ActionResult.gameState (processAction g action)))).
Proof.
  assert (Hact : potBeyondBets (ActionResult.gameState (processAction g action))
                 = potBeyondBets g).
  { unfold processAction.
    pose proof (handleAutomaticWin_potBeyondBets g) as H1.
    destruct (handleAutomaticWin g) as [g1 [[w text]|]]; simpl in *; [done|].
    destruct (isValid _); simpl; [|done].
    pose proof (processValidatedAction_potBeyondBets g1 action) as H2.
    pose proof (handleAutomaticWin_potBeyondBets (processValidatedAction g1 action))
      as H3.
    destruct (actionType action); simpl; try congruence;
      destruct (handleAutomaticWin _) as [g3 [[w text]|]]; simpl in *; congruence. }
  split_and!; [apply processValidatedAction_potBeyondBets|done|].
  unfold potBeyondBets in Hact. lia.
Qed.

Lemma pot_tracks_total_bets_witness :
  pot (ActionResult.gameState
         (processAction headsUpAfterBlinds (mkAction "1" Raise (Some 60))))
  = sumTotalBets
      (players (ActionResult.gameState
                  (processAction headsUpAfterBlinds (mkAction "1" Raise (Some 60))))).
Proof.
  apply (proj2 (proj2 (pot_tracks_total_bets headsUpAfterBlinds
                         (mkAction "1" Raise (Some 60))))).
  reflexivity.
Defined.

(** ** Chips only move forward *)

Lemma currentBet_le_highest g i p :
  players g !! i = Some p -> isFolded p = false ->
  currentBet p <= getHighestCurrentBet g.
Proof.
  unfold getHighestCurrentBet. generalize (players g). intros ps. revert i.
  induction ps as [|q ps IH]; intros [|i] H Hf; simpl in *; try discriminate.
  - injection H as ->. rewrite Hf. lia.
  - specialize (IH _ H Hf). lia.
Qed.

Lemma valid_action_actor g action :
  isValid (validatePlayerAction g action) = true ->
  exists i actor,
    findSeat g (playerId action) = Some i /\
    players g !! i = Some actor /\
    findPlayer g (playerId action) = Some actor /\
    role actor <> VIEWER /\ isFolded actor = false.
Proof.
  intros Hv. unfold validatePlayerAction in Hv.
  destruct (findPlayer g (playerId action)) as [p|] eqn:Hfind; [|discriminate].
  case_bool_decide as Hrole; [discriminate|].
  destruct (isFolded p) eqn:Hf; [discriminate|].
  destruct (find_findIndex _ _ _ Hfind) as (i & Hi & Hp).
  exists i, p. done.
Qed.

Lemma valid_raise_bounds g action actor :
  isValid (validatePlayerAction g action) = true ->
  actionType action = Raise ->
  findPlayer g (playerId action) = Some actor ->
  noAmount (amount action) = false /\
  getMinimumRaise g <= amountOr0 (amount action)
  <= chips actor + currentBet actor.
Proof.
  intros Hv Ht Hfind. unfold validatePlayerAction in Hv.
  rewrite Hfind, Ht in Hv.
  destruct (bool_decide (role actor = VIEWER)); [discriminate|].
  destruct (isFolded actor); [discriminate|].
  destruct (isAllIn actor); [discriminate|].
  destruct (chips actor =? 0); [discriminate|].
  unfold validateRaise in Hv.
  destruct (negb (includes Raise _)); [discriminate|].
  destruct (noAmount (amount action)); [discriminate|]. simpl in Hv.
  destruct (Z.ltb_spec (amountOr0 (amount action)) (getMinimumRaise g));
    [discriminate|].
  destruct (Z.ltb_spec (chips actor + currentBet actor) (amountOr0 (amount action)));
    [discriminate|]. split; [done|lia].
Qed.

Lemma paysIn_refl p : 0 <= chips p -> paysIn p p.
Proof. intros H. unfold paysIn. split_and!; (done || lia). Qed.

Lemma paysIn_reopenFor a p : 0 <= chips p -> paysIn p (reopenFor a p).
Proof.
  intros H. unfold reopenFor. destruct (_ && _); [|by apply paysIn_refl].
  unfold paysIn. simpl. split_and!; (done || lia).
Qed.

(** Reads a player object back from the store a processor produced. *)
Ltac read_back Hp Hp' :=
  simpl in Hp';
  repeat first
    [ rewrite list_lookup_alter_eq in Hp'
    | rewrite list_lookup_alter_ne in Hp' by done
    | rewrite list_lookup_fmap in Hp' ];
  rewrite Hp in Hp'; simpl in Hp'; injection Hp' as <-.

(** X14.  When stacks are non-negative and lastRaise is non-negative, a
    validated action never takes chips out of the pot and never gives a
    player chips: the pot does not shrink, every player's stack stays non-
    negative and does not grow, chips plus totalBet is unchanged for every
    player, and ids, roles and hole cards stay as they were. *)
Theorem valid_action_pays_in (g : GameState) (action : Action) :
  isValid (validatePlayerAction g action) = true ->
  0 <= lastRaise g ->
  (forall p, p ∈ players g -> 0 <= chips p) ->
  pot g <= pot (processValidatedAction g action) /\
  Forall2 paysIn (players g) (players (processValidatedAction g action)).
Proof.
  intros Hv Hlast Hchips.
  destruct (valid_action_actor g action Hv) as (i & actor & Hseat & Hi & Hfind & _ & Hnf).
  assert (Hactor : 0 <= chips actor).
  { apply Hchips. by eapply list_elem_of_lookup_2. }
  pose proof (currentBet_le_highest g i actor Hi Hnf) as Hhigh.
  assert (Hrel : forall g',
             length (players g') = length (players g) ->
             (forall j p p', players g !! j = Some p -> players g' !! j = Some p' ->
                             paysIn p p') ->
             Forall2 paysIn (players g) (players g')).
  { intros g' Hlen Hall. by apply Forall2_same_length_lookup_2. }
  assert (Hpos : forall j p, players g !! j = Some p -> 0 <= chips p).
  { intros j p Hp. apply Hchips. by eapply list_elem_of_lookup_2. }
  unfold processValidatedAction. rewrite Hseat.
  destruct (actionType action) eqn:Ht.
  - unfold processFold. rewrite Hi. split; [simpl; lia|].
    apply Hrel; [simpl; by rewrite length_alter|].
    intros j p p' Hp Hp'. destruct (decide (i = j)) as [<-|Hij]; read_back Hp Hp'.
    + unfold paysIn. simpl. pose proof (Hpos _ _ Hp). split_and!; (done || lia).
    + apply paysIn_refl. by eapply Hpos.
  - unfold processCheck. rewrite Hi. split; [simpl; lia|].
    apply Hrel; [simpl; by rewrite length_alter|].
    intros j p p' Hp Hp'. destruct (decide (i = j)) as [<-|Hij]; read_back Hp Hp'.
    + unfold paysIn. simpl. pose proof (Hpos _ _ Hp). split_and!; (done || lia).
    + apply paysIn_refl. by eapply Hpos.
  - unfold processCall. rewrite Hi.
    set (c := Z.min _ _). assert (Hc : 0 <= c <= chips actor) by (subst c; lia).
    destruct (chips actor - c =? 0); (split; [simpl; lia|]);
      (apply Hrel; [simpl; by rewrite ?length_alter|]);
      intros j p p' Hp Hp'; (destruct (decide (i = j)) as [<-|Hij]; read_back Hp Hp';
        [assert (p = actor) as -> by congruence; unfold paysIn; simpl;
         split_and!; (done || lia)
        |apply paysIn_refl; by eapply Hpos]).
  - destruct (valid_raise_bounds g action actor Hv Ht Hfind) as [Hamt [Hlo Hhi]].
    unfold getMinimumRaise in Hlo.
    unfold processRaise. rewrite Hi, Hamt.
    set (t := Z.min _ _).
    assert (Ht' : currentBet actor <= t <= chips actor + currentBet actor)
      by (subst t; lia).
    destruct (chips actor - (t - currentBet actor) =? 0);
      (split; [simpl; lia|]);
      (apply Hrel; [simpl; by rewrite ?length_alter, length_map, length_alter|]);
      intros j p p' Hp Hp'; (destruct (decide (i = j)) as [<-|Hij]; read_back Hp Hp';
        [assert (p = actor) as -> by congruence;
         unfold reopenFor; destruct (_ && _); unfold paysIn; simpl;
         split_and!; (done || lia)
        |apply paysIn_reopenFor; by eapply Hpos]).
  - unfold processAllIn. rewrite Hi.
    destruct (getHighestCurrentBet g <? currentBet actor + chips actor);
      (split; [simpl; lia|]);
      (apply Hrel; [simpl; by rewrite ?length_map, length_alter|]);
      intros j p p' Hp Hp'; (destruct (decide (i = j)) as [<-|Hij]; read_back Hp Hp';
        [assert (p = actor) as -> by congruence;
         try (unfold reopenFor; destruct (_ && _)); unfold paysIn; simpl;
         split_and!; (done || lia)
        |first [apply paysIn_reopenFor|apply paysIn_refl]; by eapply Hpos]).
Qed.

Lemma valid_action_pays_in_witness :
  pot headsUpAfterBlinds
  <= pot (processValidatedAction headsUpAfterBlinds (mkAction "1" Raise (Some 60))).
Proof.
  apply (valid_action_pays_in headsUpAfterBlinds (mkAction "1" Raise (Some 60))).
  - vm_compute. reflexivity.
  - simpl. lia.
  - intros p Hp. vm_compute in Hp.
    apply elem_of_cons in Hp as [->|Hp]; [simpl; lia|].
    apply elem_of_cons in Hp as [->|Hp]; [simpl; lia|].
    by apply elem_of_nil in Hp.
Defined.

(** ** A raise has to be answered *)

Lemma every_false {T} (f : T -> bool) l x :
  x ∈ l -> f x = false -> every f l = false.
Proof.
  intros Hx Hf. unfold every. apply not_true_is_false. intros Hall.
  rewrite forallb_forall in Hall. apply list_elem_of_In in Hx.
  rewrite (Hall x Hx) in Hf. discriminate.
Qed.

Lemma elem_of_objects g (f : Player -> bool) j p :
  players g !! j = Some p -> f p = true -> p ∈ objects g (filterIdx f (players g)).
Proof.
  intros Hj Hf. unfold objects. apply list_elem_of_fmap. exists (j, p).
  split; [done|]. by apply elem_of_deref_filterIdx.
Qed.

Lemma unanswered_round_is_open g j p :
  players g !! j = Some p ->
  isFolded p = false -> isAllIn p = false -> role p <> VIEWER ->
  hasActed p = false ->
  isBettingRoundComplete g = false.
Proof.
  intros Hj Hf Ha Hr Hacted. unfold isBettingRoundComplete.
  assert (Hui : p ∈ objects g (getPlayersInUIAction g)).
  { apply (elem_of_objects g _ j); [done|]. unfold isPlayerInUIAction, notViewer.
    by rewrite Hf, bool_decide_eq_false_2. }
  destruct (_ <=? _)%nat.
  - apply (every_false _ _ p); [|done].
    apply list_elem_of_In, filter_In. split; [by apply list_elem_of_In|].
    by rewrite Ha.
  - by rewrite (every_false _ _ p Hui Hacted).
Qed.

(** X15.  After a validated Raise, as long as some other seated player is
    neither folded nor all-in, the betting round is not complete and
    advanceToNextRound refuses to advance with the betting-not-complete
    error. *)
Theorem raise_has_to_be_answered (g : GameState) (action : Action) (j : nat)
    (other : Player) :
  isValid (validatePlayerAction g action) = true ->
  actionType action = Raise ->
  players g !! j = Some other ->
  pid other <> playerId action ->
  isFolded other = false -> isAllIn other = false -> role other <> VIEWER ->
  isBettingRoundComplete (processValidatedAction g action) = false /\
  advanceToNextRound (processValidatedAction g action)
  = Throw (Error BETTING_NOT_COMPLETE).
Proof.
  intros Hv Ht Hj Hother Hf Ha Hr.
  destruct (valid_action_actor g action Hv) as (i & actor & Hseat & Hi & Hfind & _).
  destruct (valid_raise_bounds g action actor Hv Ht Hfind) as [Hamt _].
  assert (Hid : pid actor = playerId action).
  { unfold findPlayer in Hfind. apply find_some in Hfind as [_ Hid].
    by apply String.eqb_eq in Hid. }
  assert (Hij : i <> j) by (intros ->; congruence).
  assert (Hopen : isBettingRoundComplete (processValidatedAction g action) = false).
  { apply (unanswered_round_is_open _ j (reopenFor (pid actor) other)).
    - unfold processValidatedAction. rewrite Hseat, Ht.
      unfold processRaise. rewrite Hi, Hamt.
      destruct (_ =? 0); simpl;
        rewrite ?list_lookup_alter_ne by done;
        rewrite list_lookup_fmap, list_lookup_alter_ne by done;
        by rewrite Hj.
    - by rewrite isFolded_reopenFor.
    - by rewrite isAllIn_reopenFor.
    - unfold reopenFor. by destruct (_ && _).
    - apply reopenFor_other; [congruence|done|done]. }
  split; [done|]. unfold advanceToNextRound. by rewrite Hopen.
Qed.

Lemma raise_has_to_be_answered_witness :
  advanceToNextRound
    (processValidatedAction headsUpAfterBlinds (mkAction "1" Raise (Some 60)))
  = Throw (Error BETTING_NOT_COMPLETE).
Proof.
  apply (proj2 (raise_has_to_be_answered headsUpAfterBlinds
                  (mkAction "1" Raise (Some 60)) 0
                  (mkPlayer "0" "Alice" [mkCard A SPADES; mkCard K SPADES] 980 20 20
                            false BIG_BLIND false false)
                  ltac:(vm_compute; reflexivity) eq_refl eq_refl
                  ltac:(discriminate) eq_refl eq_refl ltac:(discriminate))).
Defined.

(** ** Whose turn it is *)

Lemma seekNextSeat_spec skip ps o :
  forall fuel cur a,
    (cur mod length ps = seatAfter (length ps) o a)%nat ->
    (a < length ps)%nat -> (fuel + a = S (length ps))%nat ->
    (forall d', (1 <= d' <= a)%nat ->
       exists p, ps !! seatAfter (length ps) o d' = Some p /\ skip p = true) ->
    exists d,
      (a < d <= length ps)%nat /\
      seekNextSeat skip ps cur a fuel
      = Ok (if (d <? length ps)%nat then Some (seatAfter (length ps) o d) else None) /\
      ((d < length ps)%nat ->
       exists p, ps !! seatAfter (length ps) o d = Some p /\ skip p = false) /\
      (forall d', (1 <= d' < d)%nat ->
         exists p, ps !! seatAfter (length ps) o d' = Some p /\ skip p = true).
Proof.
  remember (length ps) as n eqn:Hn.
  induction fuel as [|fuel IH]; intros cur a Hcur Ha Hfuel Hseen; [lia|].
  cbn [seekNextSeat]. rewrite <- Hn.
  assert (Hnext : ((cur + 1) mod n = seatAfter n o (S a))%nat).
  { unfold seatAfter in *. rewrite <- Nat.Div0.add_mod_idemp_l, Hcur.
    rewrite Nat.Div0.add_mod_idemp_l. f_equal. lia. }
  destruct (Nat.leb_spec n (S a)) as [Hlast|Hmore].
  - exists n. assert (S a = n) by lia. rewrite Nat.ltb_irrefl.
    split_and!; [lia|lia|done|intros; lia|].
    intros d' Hd'. apply Hseen. lia.
  - rewrite Hnext.
    assert (Hin : (seatAfter n o (S a) < length ps)%nat).
    { unfold seatAfter. rewrite <- Hn. apply Nat.mod_upper_bound. lia. }
    apply lookup_lt_is_Some in Hin as [p Hp]. rewrite Hp.
    destruct (skip p) eqn:Hskip.
    + destruct (IH (seatAfter n o (S a)) (S a)) as (d & Hd & Hrun & Hfound & Hskipped).
      * unfold seatAfter. by rewrite Nat.Div0.mod_mod.
      * lia.
      * lia.
      * intros d' Hd'. destruct (decide (d' = S a)) as [->|Hne]; [eauto|].
        apply Hseen. lia.
      * exists d. split_and!; [lia|lia|done|done|done].
    + exists (S a). destruct (Nat.ltb_spec (S a) n); [|lia].
      split_and!; [lia|lia|done|eauto|].
      intros d' Hd'. apply Hseen. lia.
Qed.

Lemma seekNextSeat_from_current skip ps o :
  ps <> [] ->
  exists d,
    (1 <= d <= length ps)%nat /\
    seekNextSeat skip ps o 0 (S (length ps))
    = Ok (if (d <? length ps)%nat then Some (seatAfter (length ps) o d) else None) /\
    ((d < length ps)%nat ->
     exists p, ps !! seatAfter (length ps) o d = Some p /\ skip p = false) /\
    (forall d', (1 <= d' < d)%nat ->
       exists p, ps !! seatAfter (length ps) o d' = Some p /\ skip p = true).
Proof.
  intros Hne.
  assert (0 < length ps)%nat by (destruct ps; [done|simpl; lia]).
  destruct (seekNextSeat_spec skip ps o (S (length ps)) o 0) as (d & Hd & H1 & H2 & H3).
  - unfold seatAfter. by rewrite Nat.add_0_r.
  - done.
  - lia.
  - intros d' Hd'. lia.
  - exists d. split_and!; [lia|lia|done|done|done].
Qed.

(** X16.  advanceToNextPlayer moves the turn to the first seat after the
    current one, going round the table, whose player is neither folded nor a
    viewer, skipping exactly the folded and viewer seats before it; if none
    of the other seats qualifies the current index is kept. *)
Theorem advanceToNextPlayer_next_seat (g : GameState) :
  players g <> [] ->
  exists d,
    (1 <= d <= length (players g))%nat /\
    advanceToNextPlayer g
    = Ok (setCurrentPlayerIndex
            (if (d <? length (players g))%nat
             then seatAfter (length (players g)) (currentPlayerIndex g) d
             else currentPlayerIndex g) g) /\
    ((d < length (players g))%nat ->
     exists p,
       players g !! seatAfter (length (players g)) (currentPlayerIndex g) d = Some p /\
       isFolded p = false /\ role p <> VIEWER) /\
    (forall d', (1 <= d' < d)%nat ->
       exists p,
         players g !! seatAfter (length (players g)) (currentPlayerIndex g) d' = Some p /\
         (isFolded p = true \/ role p = VIEWER)).
Proof.
  intros Hne.
  destruct (seekNextSeat_from_current foldedOrViewer (players g)
              (currentPlayerIndex g) Hne) as (d & Hd & Hrun & Hfound & Hskipped).
  exists d. unfold advanceToNextPlayer. rewrite Hrun. simpl.
  split_and!; [lia|lia|by destruct (_ <? _)%nat| |].
  - intros Hlt. destruct (Hfound Hlt) as (p & Hp & Hs). exists p.
    unfold foldedOrViewer in Hs. apply orb_false_iff in Hs as [Hf Hv].
    split_and!; [done|done|]. by apply bool_decide_eq_false in Hv.
  - intros d' Hd'. destruct (Hskipped d' Hd') as (p & Hp & Hs). exists p.
    split; [done|]. unfold foldedOrViewer in Hs.
    apply orb_true_iff in Hs as [Hf|Hv]; [by left|right].
    by apply bool_decide_eq_true in Hv.
Qed.

Lemma advanceToNextPlayer_next_seat_witness :
  exists d,
    advanceToNextPlayer riverShowdown
    = Ok (setCurrentPlayerIndex
            (if (d <? 3)%nat then seatAfter 3 0 d else 0%nat) riverShowdown).
Proof.
  destruct (advanceToNextPlayer_next_seat riverShowdown) as (d & _ & Hrun & _).
  - discriminate.
  - exists d. exact Hrun.
Defined.

(** X17.  getNextActivePlayerIndex returns the first seat after the current
    one, going round the table, whose player is not folded, not a viewer and
    either has chips or is all-in, every seat before it failing that test;
    if no other seat qualifies it returns the current index. *)
Theorem getNextActivePlayerIndex_next_seat (g : GameState) :
  players g <> [] ->
  exists d,
    (1 <= d <= length (players g))%nat /\
    getNextActivePlayerIndex g
    = Ok (if (d <? length (players g))%nat
          then seatAfter (length (players g)) (currentPlayerIndex g) d
          else currentPlayerIndex g) /\
    ((d < length (players g))%nat ->
     exists p,
       players g !! seatAfter (length (players g)) (currentPlayerIndex g) d = Some p /\
       isFolded p = false /\ role p <> VIEWER /\
       (chips p <> 0 \/ isAllIn p = true)) /\
    (forall d', (1 <= d' < d)%nat ->
       exists p,
         players g !! seatAfter (length (players g)) (currentPlayerIndex g) d' = Some p /\
         cannotAct p = true).
Proof.
  intros Hne.
  destruct (seekNextSeat_from_current cannotAct (players g)
              (currentPlayerIndex g) Hne) as (d & Hd & Hrun & Hfound & Hskipped).
  exists d. unfold getNextActivePlayerIndex. rewrite Hrun. simpl.
  split_and!; [lia|lia|by destruct (_ <? _)%nat| |done].
  intros Hlt. destruct (Hfound Hlt) as (p & Hp & Hs). exists p.
  unfold cannotAct in Hs. apply orb_false_iff in Hs as [Hs Hc].
  apply orb_false_iff in Hs as [Hf Hv].
  split_and!; [done|done|by apply bool_decide_eq_false in Hv|].
  apply andb_false_iff in Hc as [Hc|Hc].
  - left. by apply Z.eqb_neq.
  - right. by apply negb_false_iff.
Qed.

Lemma getNextActivePlayerIndex_next_seat_witness :
  exists d,
    getNextActivePlayerIndex riverShowdown
    = Ok (if (d <? 3)%nat then seatAfter 3 0 d else 0%nat).
Proof.
  destruct (getNextActivePlayerIndex_next_seat riverShowdown) as (d & _ & Hrun & _).
  - discriminate.
  - exists d. exact Hrun.
Defined.

(** ** Moving to the next street *)









(** ** The button *)

Lemma filterIdxFrom_NoDup {T} (f : T -> bool) k l : NoDup (filterIdxFrom f k l).
Proof.
  revert k. induction l as [|x l IH]; intros k; simpl; [constructor|].
  destruct (f x); [|apply IH]. apply NoDup_cons. split; [|apply IH].
  intros (j & y & Hk & _)%elem_of_filterIdxFrom. lia.
Qed.

Lemma filterIdx_lookup {T} (f : T -> bool) l k i :
  filterIdx f l !! k = Some i -> exists x, l !! i = Some x /\ f x = true.
Proof.
  intros Hk. apply list_elem_of_lookup_2 in Hk.
  apply elem_of_filterIdxFrom in Hk as (j & x & -> & Hj & Hx). eauto.
Qed.

Lemma lookup_assignRole seats k r g i j :
  seats !! k = Some i ->
  players (assignRole seats k r g) !! j
  = if decide (j = i) then setRole r <$> players g !! j else players g !! j.
Proof.
  intros Hk. unfold assignRole. rewrite Hk. simpl.
  destruct (decide (j = i)) as [->|Hne].
  - by rewrite list_lookup_alter_eq.
  - by rewrite list_lookup_alter_ne.
Qed.

Lemma succ_mod_ne d n : (2 <= n)%nat -> (d < n)%nat -> ((d + 1) mod n <> d)%nat.
Proof.
  intros Hn Hd. destruct (decide (d + 1 = n)%nat) as [<-|Hne].
  - rewrite Nat.Div0.mod_same. lia.
  - rewrite Nat.mod_small by lia. lia.
Qed.

Lemma succ2_mod_ne d n :
  (3 <= n)%nat -> (d < n)%nat ->
  ((d + 2) mod n <> d /\ (d + 2) mod n <> (d + 1) mod n)%nat.
Proof.
  intros Hn Hd.
  destruct (decide (d + 2 < n)%nat) as [Hlt|Hge].
  - rewrite (Nat.mod_small (d + 2)), (Nat.mod_small (d + 1)) by lia. lia.
  - destruct (decide (d + 1 < n)%nat) as [Hlt1|Hge1].
    + assert (d + 2 = n)%nat as -> by lia.
      rewrite Nat.Div0.mod_same, Nat.mod_small by lia. lia.
    + assert (d + 1 = n)%nat as Heq by lia.
      replace (d + 2)%nat with (1 + 1 * n)%nat by lia.
      rewrite Nat.Div0.mod_add, Heq, Nat.Div0.mod_same, Nat.mod_small by lia. lia.
Qed.

(** X19.  With at least two non-viewer players, rotateDealerButton changes
    roles only and never makes or unmakes a viewer: afterwards exactly one
    seat is the dealer, the non-viewer seat after the previous dealer (after
    the first non-viewer seat when nobody held the button);
    exactly one seat is the big blind, the next non-viewer seat when two
    players are left and the one after it otherwise; and the small blind is
    the seat between them, present only with three or more players. *)
Theorem rotateDealerButton_roles (g : GameState) :
  (2 <= length (seatedPlayers g))%nat ->
  exists dealer next third,
    seatedPlayers g !! buttonPosition g = Some dealer /\
    seatedPlayers g !! ((buttonPosition g + 1) mod length (seatedPlayers g))%nat
    = Some next /\
    seatedPlayers g !! ((buttonPosition g + 2) mod length (seatedPlayers g))%nat
    = Some third /\
    dealer <> next /\
    ((3 <= length (seatedPlayers g))%nat -> third <> dealer /\ third <> next) /\
    length (players (rotateDealerButton g)) = length (players g) /\
    (forall j p p',
        players g !! j = Some p -> players (rotateDealerButton g) !! j = Some p' ->
        p' = setRole (role p') p /\
        (role p' = VIEWER <-> role p = VIEWER) /\
        (role p' = DEALER <-> j = dealer) /\
        (role p' = BIG_BLIND <->
         j = (if (length (seatedPlayers g) =? 2)%nat then next else third)) /\
        (role p' = SMALL_BLIND <-> (3 <= length (seatedPlayers g))%nat /\ j = next)).
Proof.
  set (seated := seatedPlayers g). set (n := length seated).
  set (d := buttonPosition g). intros Hn.
  assert (Hdef : ((default 0%nat
                     (findIndex (fun p => bool_decide (role p = DEALER))
                                (objects g seated)) + 1) mod n)%nat = d)
    by reflexivity.
  assert (Hd : (d < n)%nat) by (apply Nat.mod_upper_bound; lia).
  assert (Hd1 : ((d + 1) mod n < n)%nat) by (apply Nat.mod_upper_bound; lia).
  assert (Hd2 : ((d + 2) mod n < n)%nat) by (apply Nat.mod_upper_bound; lia).
  destruct (lookup_lt_is_Some_2 seated d Hd) as [dealer Hdealer].
  destruct (lookup_lt_is_Some_2 seated _ Hd1) as [next Hnext].
  destruct (lookup_lt_is_Some_2 seated _ Hd2) as [third Hthird].
  exists dealer, next, third.
  assert (Hnd : NoDup seated) by apply filterIdxFrom_NoDup.
  assert (Hdn : dealer <> next).
  { intros ->. pose proof (NoDup_lookup _ _ _ _ Hnd Hdealer Hnext) as Heq.
    symmetry in Heq. by apply succ_mod_ne in Heq. }
  assert (Hthree : (3 <= n)%nat -> third <> dealer /\ third <> next).
  { intros H3. destruct (succ2_mod_ne d n H3 Hd) as [Ha Hb].
    split; intros ->.
    - by pose proof (NoDup_lookup _ _ _ _ Hnd Hthird Hdealer).
    - by pose proof (NoDup_lookup _ _ _ _ Hnd Hthird Hnext). }
  destruct (filterIdx_lookup _ _ _ _ Hdealer) as (pd & Hpd & Hvd).
  destruct (filterIdx_lookup _ _ _ _ Hnext) as (pn & Hpn & Hvn).
  destruct (filterIdx_lookup _ _ _ _ Hthird) as (pt & Hpt & Hvt).
  split_and!; try done.
  - unfold rotateDealerButton. cbv zeta. fold (seatedPlayers g). fold seated. fold n.
    destruct (Nat.ltb_spec n 2); [lia|]. rewrite !Hdef.
    unfold assignRole. rewrite Hdealer, Hnext, Hthird.
    destruct (n =? 2)%nat; simpl; by rewrite !length_alter, length_map.
  - intros j p p' Hp Hp'.
    set (bb := if (n =? 2)%nat then next else third).
    assert (Hbb : bb <> dealer /\ ((3 <= n)%nat -> bb <> next)).
    { subst bb. destruct (Nat.eqb_spec n 2); [split; [done|lia]|].
      destruct Hthree as [? ?]; [lia|]. done. }
    destruct Hbb as [Hbd Hbn].
    assert (Hviewer : j = dealer \/ j = next \/ j = third -> notViewer p = true).
    { intros [->|[->| ->]]; congruence. }
    assert (Hfinal :
              players (rotateDealerButton g) !! j
              = Some (if notViewer p then
                        setRole (if decide (j = dealer) then DEALER
                                 else if decide (j = bb) then BIG_BLIND
                                 else if decide ((3 <= n)%nat /\ j = next)
                                      then SMALL_BLIND
                                 else NO_ROLE) p
                      else p)).
    { unfold rotateDealerButton. cbv zeta. fold (seatedPlayers g). fold seated. fold n.
      destruct (Nat.ltb_spec n 2); [lia|]. rewrite !Hdef.
      set (g1 := forEachPlayer _ g).
      assert (H1 : players g1 !! j
                   = Some (if notViewer p then setRole NO_ROLE p else p)).
      { subst g1. simpl. by rewrite list_lookup_fmap, Hp. }
      subst bb. destruct (Nat.eqb_spec n 2) as [H2|H2].
      - rewrite (lookup_assignRole _ _ _ _ next) by done.
        rewrite (lookup_assignRole _ _ _ _ dealer) by done.
        rewrite H1.
        repeat case_decide; subst; try done; try lia;
          rewrite ?Hviewer by auto; simpl; try done;
          by destruct (notViewer p).
      - destruct Hthree as [Htd Htn]; [lia|].
        rewrite (lookup_assignRole _ _ _ _ third) by done.
        rewrite (lookup_assignRole _ _ _ _ next) by done.
        rewrite (lookup_assignRole _ _ _ _ dealer) by done.
        rewrite H1.
        repeat case_decide; subst; try done; try lia;
          rewrite ?Hviewer by auto; simpl; try done;
          try (by destruct (notViewer p));
          exfalso; naive_solver lia. }
    rewrite Hfinal in Hp'. injection Hp' as <-.
    unfold notViewer in *.
    destruct (bool_decide (role p = VIEWER)) eqn:Hv; simpl.
    + apply bool_decide_eq_true in Hv.
      assert (j <> dealer /\ j <> next /\ j <> third) as (? & ? & ?).
      { split_and!; intros ->; specialize (Hviewer ltac:(auto));
          simpl in Hviewer; discriminate. }
      assert (j <> bb) by (subst bb; by destruct (n =? 2)%nat).
      split; [by destruct p|]. rewrite Hv.
      split_and!; [done|..];
        (split; [discriminate|try intros [? ?]; intros; congruence]).
    + apply bool_decide_eq_false in Hv.
      split_and!; [done| |..].
      * repeat case_decide; simpl; split; intros; (done || congruence).
      * repeat case_decide; simpl; split; intros; (done || congruence).
      * repeat case_decide; simpl; split; intros; (done || congruence).
      * repeat case_decide; simpl; split; intros;
          try (done || congruence || lia || naive_solver lia).
Qed.

Lemma rotateDealerButton_roles_witness :
  length (players (rotateDealerButton threeHandedAfterBlinds)) = 3%nat.
Proof.
  destruct (rotateDealerButton_roles threeHandedAfterBlinds)
    as (dealer & next & third & _ & _ & _ & _ & _ & Hlen & _).
  - vm_compute. lia.
  - exact Hlen.
Defined.

(** ** The pots of a hand *)

Lemma insertBy_key_sorted {T} (f : T -> Z) x l :
  StronglySorted (fun a b => f a <= f b) l ->
  StronglySorted (fun a b => f a <= f b) (insertBy (fun a b => f a - f b) x l).
Proof.
  induction 1 as [|y ys Hys IH Hy]; simpl.
  - repeat constructor.
  - destruct (Z.leb_spec (f x - f y) 0).
    + constructor; [by constructor|]. constructor; [lia|].
      eapply Forall_impl; [exact Hy|]. simpl. intros; lia.
    + constructor; [done|].
      apply Forall_forall. intros z Hz.
      rewrite insertBy_Permutation in Hz. apply elem_of_cons in Hz as [->|Hz]; [lia|].
      rewrite Forall_forall in Hy. by apply Hy.
Qed.

Lemma sortBy_key_sorted {T} (f : T -> Z) l :
  StronglySorted (fun a b => f a <= f b) (sortBy (fun a b => f a - f b) l).
Proof.
  induction l as [|x l IH]; simpl; [constructor|]. by apply insertBy_key_sorted.
Qed.

Lemma potLevels_wellformed g :
  forall rest i currentLevel potIndex remainingPot pots,
    StronglySorted (fun a b : nat * Player => totalBet (snd a) <= totalBet (snd b)) rest ->
    Forall (fun sp => players g !! fst sp = Some (snd sp) /\ 0 < totalBet (snd sp)) rest ->
    Forall (potWellFormed g) pots ->
    Forall (potWellFormed g)
           (fst (potLevels i rest currentLevel potIndex remainingPot pots)).
Proof.
  induction rest as [|[seat player] rest IH];
    intros i currentLevel potIndex remainingPot pots Hsorted Hrest Hpots; [done|].
  apply StronglySorted_inv in Hsorted as [Hsorted Hhead].
  pose proof Hrest as Hall. apply Forall_cons in Hrest as [[Hseat Hbet] Hrest].
  simpl in Hseat, Hbet.
  cbn [potLevels]. destruct (_ && _); [|by apply IH].
  set (amt := Z.min _ remainingPot).
  set (eligible := map fst (List.filter _ ((seat, player) :: rest))).
  destruct ((0 <? amt) && (0 <? length eligible)%nat) eqn:Hopen; [|by apply IH].
  apply andb_true_iff in Hopen as [Hamt Hel].
  apply Z.ltb_lt in Hamt. apply Nat.ltb_lt in Hel.
  apply IH; [done|done|]. apply Forall_app. split; [done|].
  apply Forall_singleton. unfold potWellFormed. simpl.
  split_and!; [done|done|intros Hnil; rewrite Hnil in Hel; simpl in Hel; lia|].
  intros k Hk. subst eligible.
  apply list_elem_of_fmap in Hk as ([k' q] & -> & Hq). simpl.
  apply list_elem_of_In, filter_In in Hq as [Hq Hlive]. simpl in Hlive.
  apply list_elem_of_In in Hq. exists q.
  rewrite Forall_forall in Hall. destruct (Hall _ Hq) as [Hkq _]. simpl in Hkq.
  split_and!; [done|by apply negb_true_iff|].
  apply elem_of_cons in Hq as [[= -> ->]|Hq]; [lia|].
  rewrite Forall_forall in Hhead. apply (Hhead _ Hq).
Qed.

Lemma createAllPots_Forall_wellformed (g : GameState) :
  Forall (potWellFormed g) (createAllPots g).
Proof.
  unfold createAllPots. destruct (_ || _); [constructor|].
  set (sorted := sortBy _ _).
  assert (Hpots : Forall (potWellFormed g) (fst (potLevels 0 sorted 0 0 (pot g) []))).
  { apply potLevels_wellformed;
      [apply (sortBy_key_sorted (fun sp => totalBet (snd sp)))| |constructor].
    apply Forall_forall. intros [k q] Hk. subst sorted.
    rewrite sortBy_Permutation in Hk.
    apply elem_of_deref_filterIdx in Hk as [Hk Hq]. simpl.
    split; [done|by apply Z.ltb_lt]. }
  destruct (potLevels 0 sorted 0 0 (pot g) []) as [pots rem]. simpl in Hpots.
  destruct (Z.ltb_spec 0 rem); simpl; [|by destruct (0 <? length pots)%nat].
  destruct pots as [|p0 pots]; [done|]. simpl.
  apply Forall_cons in Hpots as [(? & ? & ? & ?) Hpots].
  constructor; [|done]. unfold potWellFormed. simpl. split_and!; (done || lia).
Qed.

Lemma potLevels_levels :
  forall rest i currentLevel potIndex remainingPot pots,
    Forall (fun pot => Pot.maxContribution pot <= currentLevel) pots ->
    StronglySorted Z.lt (map Pot.maxContribution pots) ->
    StronglySorted Z.lt
      (map Pot.maxContribution
           (fst (potLevels i rest currentLevel potIndex remainingPot pots))).
Proof.
  induction rest as [|[seat player] rest IH];
    intros i currentLevel potIndex remainingPot pots Hle Hsorted; [done|].
  cbn [potLevels].
  destruct ((currentLevel <? totalBet player) && (0 <? remainingPot)) eqn:Hc;
    [|by apply IH].
  apply andb_true_iff in Hc as [Hlvl _]. apply Z.ltb_lt in Hlvl.
  assert (Hle' : Forall (fun pot => Pot.maxContribution pot <= totalBet player) pots).
  { eapply Forall_impl; [exact Hle|]. simpl. intros; lia. }
  destruct (_ && _); [|by apply IH].
  apply IH.
  - apply Forall_app. split; [done|]. apply Forall_singleton. simpl. lia.
  - rewrite map_app. apply StronglySorted_app_2; [|done|repeat constructor].
    intros x1 x2 Hx1 ->%list_elem_of_singleton. simpl.
    apply list_elem_of_fmap in Hx1 as (pot & -> & Hpot).
    rewrite Forall_forall in Hle. specialize (Hle _ Hpot). lia.
Qed.

(** X20.  Every pot built by createAllPots has a positive amount at a
    positive contribution level and a non-empty list of eligible players,
    each of whom has not folded and has put in at least that level; the
    levels of successive pots increase strictly. *)
Theorem createAllPots_wellformed (g : GameState) :
  Forall (potWellFormed g) (createAllPots g) /\
  StronglySorted Z.lt (map Pot.maxContribution (createAllPots g)).
Proof.
  split; [apply createAllPots_Forall_wellformed|].
  unfold createAllPots. destruct (_ || _); [constructor|].
  set (sorted := sortBy _ _).
  pose proof (potLevels_levels sorted 0 0 0 (pot g) [] ltac:(constructor)
                ltac:(constructor)) as Hlv.
  destruct (potLevels 0 sorted 0 0 (pot g) []) as [pots rem]. simpl in Hlv.
  destruct (_ && _); [|done]. by destruct pots.
Qed.

(** ** Paying out at the showdown *)
















(** ** The pot nobody is eligible for *)






(** ** A new table *)

(** X23.  The constructor fails with its player-count error unless it is
    given 2 to 9 names; otherwise it seats the players in the order of the
    names with distinct ids, 1000 chips each, empty hands, no bets and no
    flags, an empty board and pot, a shuffled full deck, hand number 0, and
    the roles dealer, (small blind,) big blind on the first seats. *)
Theorem newPokerGame_table (pick : nat -> nat) (playerNames : list string) :
  (~ (2 <= length playerNames <= 9)%nat ->
   newPokerGame pick playerNames = Throw (Error INVALID_PLAYER_COUNT)) /\
  ((2 <= length playerNames <= 9)%nat ->
   exists game,
     newPokerGame pick playerNames = Ok game /\
     handNumber game = 0%nat /\
     pot (gameState game) = 0 /\
     communityCards (gameState game) = [] /\
     deck (gameState game) ≡ₚ ALL_CARDS /\
     map name (players (gameState game)) = playerNames /\
     NoDup (map pid (players (gameState game))) /\
     Forall (fun p => chips p = 1000 /\ hand p = [] /\ currentBet p = 0 /\
                      totalBet p = 0 /\ isFolded p = false /\ isAllIn p = false /\
                      hasActed p = false /\ role p <> VIEWER)
            (players (gameState game)) /\
     sumChips (players (gameState game)) = 1000 * Z.of_nat (length playerNames) /\
     map role (take 3 (players (gameState game)))
     = take (length playerNames)
            (if (length playerNames =? 2)%nat then [DEALER; BIG_BLIND]
             else [DEALER; SMALL_BLIND; BIG_BLIND])).
Proof.
  split.
  - intros Hn. unfold newPokerGame, MIN_PLAYERS, MAX_PLAYERS.
    destruct (Nat.ltb_spec (length playerNames) 2); [done|].
    destruct (Nat.ltb_spec 9 (length playerNames)); [done|]. lia.
  - intros [Hlo Hhi]. unfold newPokerGame, MIN_PLAYERS, MAX_PLAYERS.
    destruct (Nat.ltb_spec (length playerNames) 2); [lia|].
    destruct (Nat.ltb_spec 9 (length playerNames)); [lia|]. simpl orb. cbv iota.
    eexists. split; [reflexivity|]. cbn [handNumber gameState].
    unfold initializeGame.
    cbn [pot communityCards deck players].
    split_and!; [done|done|done|apply shuffle_Permutation|..];
      destruct playerNames as [|n0 [|n1 [|n2 [|n3 [|n4 [|n5 [|n6 [|n7 [|n8 [|n9 ?]]]]]]]]]];
      simpl in Hlo, Hhi; try lia; clear;
      first [ reflexivity
            | apply (bool_decide_unpack _); vm_compute; reflexivity
            | repeat (apply Forall_cons; split;
                      [split_and!; (reflexivity || discriminate)|]);
              apply Forall_nil_2 ].
Qed.

Lemma newPokerGame_table_witness :
  exists game,
    newPokerGame (fun _ => 0%nat) ["Alice"; "Bob"; "Carol"] = Ok game /\
    handNumber game = 0%nat.
Proof.
  destruct (proj2 (newPokerGame_table (fun _ => 0%nat) ["Alice"; "Bob"; "Carol"]))
    as (game & Hrun & Hhand & _).
  - simpl. lia.
  - exists game. split; [exact Hrun|exact Hhand].
Defined.

(** ** The end of a tournament *)

Lemma filter_one_unique {T} (f : T -> bool) l i j x y :
  length (List.filter f l) = 1%nat ->
  l !! i = Some x -> f x = true -> l !! j = Some y -> f y = true -> i = j.
Proof.
  revert i j. induction l as [|z l IH]; intros i j Hlen Hi Hx Hj Hy; [done|].
  simpl in Hlen. destruct (f z) eqn:Hz.
  - simpl in Hlen. assert (Hnone : List.filter f l = []).
    { destruct (List.filter f l); [done|simpl in Hlen; lia]. }
    assert (Hno : forall k w, l !! k = Some w -> f w = true -> False).
    { intros k w Hk Hw.
      assert (Hin : In w (List.filter f l)).
      { apply filter_In. split; [|done]. by eapply list_elem_of_In, list_elem_of_lookup_2. }
      by rewrite Hnone in Hin. }
    destruct i as [|i], j as [|j]; simpl in *; try done.
    + exfalso. by eapply Hno.
    + exfalso. by eapply Hno.
    + exfalso. by eapply (Hno i).
  - destruct i as [|i], j as [|j]; simpl in *; try congruence.
    f_equal. by eapply IH.
Qed.

Lemma filter_filter {T} (f h : T -> bool) l :
  List.filter f (List.filter h l) = List.filter (fun x => f x && h x) l.
Proof.
  induction l as [|x l IH]; simpl; [done|].
  destruct (h x); simpl; rewrite ?andb_false_r, ?andb_true_r; [|done].
  by destruct (f x); rewrite IH.
Qed.

Lemma findIndex_exists {T} (f : T -> bool) l :
  List.filter f l <> [] -> exists i, findIndex f l = Some i.
Proof.
  induction l as [|x l IH]; simpl; [done|].
  destruct (f x); [eauto|]. intros H. destruct (IH H) as [i ->]. eauto.
Qed.

(** X24.  When a tournament winner exists, startNewHand deals nothing: it
    returns the state with gameEnded set, the winner recorded and the
    winner's name in the message, and leaves the hand number alone; the
    winner is the only non-viewer player with chips. *)
Theorem startNewHand_declares_winner (pick : nat -> nat) (game : PokerGame) :
  hasTournamentWinner (gameState game) = true ->
  exists w p,
    getTournamentWinner (gameState game) = Some w /\
    players (gameState game) !! w = Some p /\
    0 < chips p /\ role p <> VIEWER /\
    (forall j q, players (gameState game) !! j = Some q ->
                 0 < chips q -> role q <> VIEWER -> j = w) /\
    startNewHand pick game
    = Ok (mkPokerGame
            (setMessage ("🏆 " +:+ name p +:+ " wins the tournament! 🏆")
               (setGameEnded true (setTournamentWinner (Some w) (gameState game))))
            (handNumber game)).
Proof.
  intros Hwin. unfold startNewHand, getTournamentWinner. rewrite Hwin. simpl negb.
  cbv iota zeta.
  unfold hasTournamentWinner in Hwin. apply andb_true_iff in Hwin as [Hone _].
  apply Nat.eqb_eq in Hone. rewrite filter_filter in Hone.
  destruct (findIndex_exists (fun p => (0 <? chips p) && notViewer p)
              (players (gameState game))) as [w Hw].
  { intros Hnil. by rewrite Hnil in Hone. }
  rewrite Hw. destruct (findIndex_Some _ _ _ Hw) as (p & Hp & Hgood & _).
  apply andb_true_iff in Hgood as [Hchips Hrole].
  apply Z.ltb_lt in Hchips. unfold notViewer in Hrole.
  apply negb_true_iff, bool_decide_eq_false in Hrole.
  exists w, p. split_and!; [done|done|done|done| |].
  - intros j q Hq Hcq Hrq.
    apply (filter_one_unique _ _ _ _ q p Hone Hq); [|done|].
    + apply andb_true_iff. split; [by apply Z.ltb_lt|].
      unfold notViewer. by rewrite bool_decide_eq_false_2.
    + apply andb_true_iff. split; [by apply Z.ltb_lt|].
      unfold notViewer. by rewrite bool_decide_eq_false_2.
  - unfold winnerName. by rewrite Hp.
Qed.

Lemma startNewHand_declares_winner_witness :
  exists w p,
    getTournamentWinner (gameState lastPlayerStanding) = Some w /\
    players (gameState lastPlayerStanding) !! w = Some p /\ 0 < chips p.
Proof.
  destruct (startNewHand_declares_winner (fun _ => 0%nat) lastPlayerStanding)
    as (w & p & Hw & Hp & Hchips & _).
  - vm_compute. reflexivity.
  - exists w, p. split_and!; [exact Hw|exact Hp|exact Hchips].
Defined.

(** ** Starting a hand *)

Lemma rolesOnly_refl q : rolesOnly q q.
Proof. split; [by destruct q|done]. Qed.

Lemma assignRole_rolesOnly g0 g k r :
  r <> VIEWER ->
  Forall2 rolesOnly (players g0) (players g) ->
  Forall2 rolesOnly (players g0)
          (players (assignRole (filterIdx notViewer (players g0)) k r g)).
Proof.
  intros Hr HF. unfold assignRole.
  destruct (filterIdx notViewer (players g0) !! k) as [i|] eqn:Hk; [|done].
  simpl. apply Forall2_alter_r; [done|].
  intros x y Hx Hy [Hy1 Hy2].
  destruct (filterIdx_lookup _ _ _ _ Hk) as (x' & Hx' & Hnv).
  assert (x' = x) as -> by congruence.
  unfold notViewer in Hnv. apply negb_true_iff, bool_decide_eq_false in Hnv.
  split; simpl.
  - rewrite Hy1. done.
  - split; intros; congruence.
Qed.

Lemma rotateDealerButton_rolesOnly g :
  Forall2 rolesOnly (players g) (players (rotateDealerButton g)).
Proof.
  unfold rotateDealerButton. cbv zeta.
  destruct (_ <? 2)%nat.
  { apply Forall_Forall2_diag, Forall_forall. intros q _. apply rolesOnly_refl. }
  assert (H1 : Forall2 rolesOnly (players g)
                 (players (forEachPlayer
                             (fun p => if notViewer p then setRole NO_ROLE p else p) g))).
  { simpl. apply Forall2_fmap_r, Forall_Forall2_diag, Forall_forall.
    intros q _. simpl. unfold notViewer. case_bool_decide as Hv; simpl.
    - apply rolesOnly_refl.
    - split; [done|]. simpl. split; intros; congruence. }
  destruct (_ =? 2)%nat; repeat apply assignRole_rolesOnly; done.
Qed.

Lemma fresh_player_fields (p : Player) :
  let x := resetForNewHand (eliminate p) in
  pid x = pid p /\ name x = name p /\ chips x = chips p /\
  totalBet x = 0 /\ currentBet x = 0 /\ isFolded x = false /\
  hasActed x = false /\ hand x = [] /\
  (role x = VIEWER <-> role p = VIEWER \/ chips p = 0).
Proof.
  unfold eliminate, notViewer.
  destruct (Z.eqb_spec (chips p) 0) as [Hz|Hz];
    destruct (bool_decide (role p = VIEWER)) eqn:Hv; simpl;
    try apply bool_decide_eq_true in Hv; try apply bool_decide_eq_false in Hv;
    split_and!; try done; tauto.
Qed.

Lemma seatedFor_fresh p q :
  0 <= chips p ->
  rolesOnly (resetForNewHand (eliminate p)) q ->
  seatedFor p q /\ totalBet q = 0 /\ hand q = [].
Proof.
  intros Hchips. pose proof (fresh_player_fields p) as Hx. cbv zeta in Hx.
  generalize dependent (resetForNewHand (eliminate p)).
  intros x (Hpid & Hname & Hc & Htb & Hcb & Hf & Ha & Hh & Hrole) [Hq Hv].
  rewrite Hq. unfold seatedFor. simpl. rewrite Hpid, Hname, Hc, Htb, Hcb, Hf, Ha, Hh.
  rewrite Hv, Hrole.
  split_and!; try done; try lia.
Qed.

Lemma setupNewHand_players cards g :
  Forall2 rolesOnly (map (fun p => resetForNewHand (eliminate p)) (players g))
          (players (setupNewHand cards g)) /\
  pot (setupNewHand cards g) = 0 /\
  communityCards (setupNewHand cards g) = [] /\
  winners (setupNewHand cards g) = winners g /\
  smallBlind (setupNewHand cards g) = smallBlind g /\
  bigBlind (setupNewHand cards g) = bigBlind g.
Proof.
  unfold setupNewHand. cbv zeta.
  set (g1 := setDeck _ _). set (g3 := forEachPlayer resetForNewHand _).
  assert (Hps : players g3 = map (fun p => resetForNewHand (eliminate p)) (players g)).
  { subst g3. unfold handlePlayerElimination. cbv zeta.
    destruct (_ <? _)%nat; simpl; by rewrite map_map. }
  assert (Hrest : pot g3 = 0 /\ communityCards g3 = [] /\ winners g3 = winners g /\
                  smallBlind g3 = smallBlind g /\ bigBlind g3 = bigBlind g).
  { subst g3. unfold handlePlayerElimination. cbv zeta.
    by destruct (_ <? _)%nat. }
  rewrite <- Hps. split; [apply rotateDealerButton_rolesOnly|].
  unfold rotateDealerButton, assignRole. cbv zeta.
  destruct (_ <? 2)%nat; [done|].
  destruct (_ =? 2)%nat; repeat (destruct (_ !! _)); done.
Qed.

Lemma postBlind_seated ps0 found blind g :
  Forall2 (fun p q => seatedFor p q /\ hand q = []) ps0 (players g) ->
  pot g = sumTotalBets (players g) ->
  (forall i q, found = Some i -> players g !! i = Some q ->
               totalBet q = 0 /\ role q <> VIEWER) ->
  Forall2 (fun p q => seatedFor p q /\ hand q = []) ps0
          (players (postBlind found blind g)) /\
  pot (postBlind found blind g) = sumTotalBets (players (postBlind found blind g)) /\
  (forall j, found <> Some j ->
             players (postBlind found blind g) !! j = players g !! j) /\
  (forall j q', players (postBlind found blind g) !! j = Some q' ->
                exists q, players g !! j = Some q /\ role q' = role q).
Proof.
  intros HF Hpot Hfound. unfold postBlind.
  destruct found as [i|]; [|split_and!; eauto].
  destruct (players g !! i) as [poster|] eqn:Hi; [|split_and!; eauto].
  destruct (Hfound i poster eq_refl Hi) as [Htb Hrole]. cbv zeta.
  set (F := fun p : Player =>
              setChips (chips p - Z.min (chips poster) blind)
                (setTotalBet (Z.min (chips poster) blind)
                   (setCurrentBet (Z.min (chips poster) blind) p))).
  assert (Hstep : forall G : Player -> Player,
             (forall p, G p = p \/ G p = setIsAllIn true p) ->
             Forall2 (fun p q => seatedFor p q /\ hand q = []) ps0
                     (alter (fun p => G (F p)) i (players g)) /\
             pot g + Z.min (chips poster) blind
             = sumTotalBets (alter (fun p => G (F p)) i (players g)) /\
             (forall j, Some i <> Some j ->
                alter (fun p => G (F p)) i (players g) !! j = players g !! j) /\
             (forall j q', alter (fun p => G (F p)) i (players g) !! j = Some q' ->
                exists q, players g !! j = Some q /\ role q' = role q)).
  { intros G HG.
    assert (HGF : forall p, totalBet (G (F p)) = Z.min (chips poster) blind /\
                            role (G (F p)) = role p /\ chips (G (F p)) = chips p - Z.min (chips poster) blind /\
                            currentBet (G (F p)) = Z.min (chips poster) blind /\
                            pid (G (F p)) = pid p /\ name (G (F p)) = name p /\
                            isFolded (G (F p)) = isFolded p /\
                            hasActed (G (F p)) = hasActed p /\ hand (G (F p)) = hand p).
    { intros p. by destruct (HG (F p)) as [-> | ->]. }
    split_and!.
    - apply Forall2_alter_r; [done|].
      intros p q Hp Hq [Hs Hh]. assert (q = poster) as -> by congruence.
      destruct (HGF poster) as (H1 & H2 & H3 & H4 & H5 & H6 & H7 & H8 & H9).
      destruct Hs as (S1 & S2 & S3 & S4 & S5 & S6 & S7 & S8 & S9).
      split; [|congruence]. unfold seatedFor.
      rewrite H1, H2, H3, H4, H5, H6, H7, H8.
      split_and!; try done; try lia. intros _. specialize (S9 Hrole). lia.
    - rewrite (sumTotalBets_alter _ _ _ _ Hi).
      destruct (HGF poster) as (-> & _). lia.
    - intros j Hj. apply list_lookup_alter_ne. congruence.
    - intros j q' Hq'. destruct (decide (j = i)) as [->|Hne].
      + rewrite list_lookup_alter_eq, Hi in Hq'. simpl in Hq'. injection Hq' as <-.
        exists poster. split; [done|]. by destruct (HGF poster) as (_ & -> & _).
      + rewrite list_lookup_alter_ne in Hq' by done. eauto. }
  destruct (chips poster - Z.min (chips poster) blind =? 0).
  - simpl. rewrite list_alter_alter_eq.
    destruct (Hstep (setIsAllIn true)) as (H1 & H2 & H3 & H4); [by right|].
    split_and!; try done; rewrite <- H2; done.
  - simpl. destruct (Hstep id) as (H1 & H2 & H3 & H4); [by left|].
    split_and!; try done; rewrite <- H2; done.
Qed.

Lemma sumTotalBets_zero ps : Forall (fun q => totalBet q = 0) ps -> sumTotalBets ps = 0.
Proof.
  unfold sumTotalBets. induction 1 as [|q ps Hq _ IH]; simpl; [done|]. lia.
Qed.

Lemma placeBlinds_seated ps0 g :
  Forall2 (fun p q => seatedFor p q /\ totalBet q = 0 /\ hand q = []) ps0 (players g) ->
  pot g = 0 ->
  Forall2 (fun p q => seatedFor p q /\ hand q = []) ps0 (players (placeBlinds g)) /\
  pot (placeBlinds g) = sumTotalBets (players (placeBlinds g)).
Proof.
  intros HF Hpot. unfold placeBlinds. cbv zeta.
  set (isSmall := fun p : Player => _ || _).
  set (s := findIndex isSmall (players g)).
  assert (Hzero : forall i q, players g !! i = Some q -> totalBet q = 0).
  { intros i q Hq. destruct (Forall2_lookup_r _ _ _ _ _ HF Hq) as (p & _ & _ & Hz & _).
    done. }
  destruct (postBlind_seated ps0 s (smallBlind g) g) as (H1 & H2 & H3 & H4).
  { eapply Forall2_impl; [exact HF|]. by intros p q (? & _ & ?). }
  { rewrite Hpot. symmetry. apply sumTotalBets_zero, Forall_forall.
    intros q Hq. apply list_elem_of_lookup_1 in Hq as [i Hq]. by eapply Hzero. }
  { intros i q Hs Hq. split; [by eapply Hzero|].
    destruct (findIndex_Some _ _ _ Hs) as (x & Hx & Hsmall & _).
    assert (x = q) as -> by congruence. subst isSmall. simpl in Hsmall.
    intros Hv. rewrite Hv in Hsmall.
    rewrite !bool_decide_eq_false_2 in Hsmall by done.
    by rewrite andb_false_r in Hsmall. }
  set (g1 := postBlind s (smallBlind g) g) in *.
  destruct (postBlind_seated ps0
              (findIndex (fun p => bool_decide (role p = BIG_BLIND)) (players g))
              (bigBlind g) g1 H1 H2) as (K1 & K2 & _).
  { intros i q' Hb Hq'.
    destruct (findIndex_Some _ _ _ Hb) as (x & Hx & Hbig & _).
    apply bool_decide_eq_true in Hbig.
    assert (Hne : s <> Some i).
    { intros Hs. destruct (findIndex_Some _ _ _ Hs) as (y & Hy & Hsmall & _).
      assert (y = x) as -> by congruence. subst isSmall. simpl in Hsmall.
      rewrite Hbig in Hsmall.
      rewrite !bool_decide_eq_false_2 in Hsmall by done.
      by rewrite andb_false_r in Hsmall. }
    rewrite (H3 i Hne) in Hq'. assert (x = q') as -> by congruence.
    split; [by eapply Hzero|]. congruence. }
  split; [exact K1|exact K2].
Qed.

Lemma postBlind_frame found blind g :
  communityCards (postBlind found blind g) = communityCards g /\
  winners (postBlind found blind g) = winners g.
Proof.
  unfold postBlind. destruct found as [i|]; [|done].
  destruct (players g !! i); [|done]. cbv zeta. by destruct (_ =? 0).
Qed.

Lemma placeBlinds_frame g :
  communityCards (placeBlinds g) = communityCards g /\
  winners (placeBlinds g) = winners g.
Proof.
  unfold placeBlinds. cbv zeta. cbn [communityCards winners setMessage].
  destruct (postBlind_frame
              (findIndex (fun p => bool_decide (role p = BIG_BLIND)) (players g))
              (bigBlind g)
              (postBlind
                 (findIndex
                    (fun p => bool_decide (role p = SMALL_BLIND)
                              || ((length (players g) =? 2)%nat
                                  && bool_decide (role p = DEALER)))
                    (players g))
                 (smallBlind g) g)) as [-> ->].
  apply postBlind_frame.
Qed.

Lemma length_filterIdxFrom {T} (f : T -> bool) k l :
  (length (filterIdxFrom f k l) <= length l)%nat.
Proof.
  revert k. induction l as [|x l IH]; intros k; simpl; [lia|].
  destruct (f x); simpl; specialize (IH (S k)); lia.
Qed.

Lemma cardsInHands_empty ps : Forall (fun q => hand q = []) ps -> cardsInHands ps = [].
Proof.
  unfold cardsInHands. induction 1 as [|q ps Hq _ IH]; simpl; [done|].
  by rewrite Hq, IH.
Qed.

Lemma dealHoleCards_dealt ps0 cards g :
  Forall2 (fun p q => seatedFor p q /\ hand q = []) ps0 (players g) ->
  (2 * length (players g) <= length cards)%nat ->
  exists cards' ps',
    dealHoleCards cards g
    = Ok (setMessage HOLE_CARDS_DEALT (setDeck cards' (setPlayers ps' g))) /\
    Forall2 dealtIn ps0 ps' /\
    (cardsInHands ps' ++ cards')%list ≡ₚ cards /\
    map totalBet ps' = map totalBet (players g).
Proof.
  intros HF Hlen. unfold dealHoleCards.
  set (seats := filterIdx _ (players g)).
  assert (Hseat : forall i, i ∈ seats <->
                    exists q, players g !! i = Some q /\ role q <> VIEWER).
  { intros i. subst seats. unfold filterIdx. rewrite elem_of_filterIdxFrom. split.
    - intros (j & q & -> & Hq & Hf). exists q. split; [done|].
      apply andb_true_iff in Hf as [_ Hf]. unfold notViewer in Hf.
      by apply negb_true_iff, bool_decide_eq_false in Hf.
    - intros (q & Hq & Hrole). exists i, q. split_and!; [done|done|].
      destruct (Forall2_lookup_r _ _ _ _ _ HF Hq) as (p & _ & Hs & _).
      destruct Hs as (_ & _ & _ & _ & _ & _ & _ & _ & Hpos).
      apply andb_true_iff. split.
      + apply orb_true_iff. destruct (Hpos Hrole); [left|right]; by apply Z.ltb_lt.
      + unfold notViewer. by rewrite bool_decide_eq_false_2. }
  destruct (dealToPlayers_spec seats cards (players g)) as (ps' & Hrun & Hdealt & Hrest).
  { apply filterIdxFrom_NoDup. }
  { intros i (q & Hq & _)%Hseat. exists q. split; [done|].
    by destruct (Forall2_lookup_r _ _ _ _ _ HF Hq) as (p & _ & _ & ?). }
  { pose proof (length_filterIdxFrom
                  (fun p => ((0 <? chips p) || (0 <? totalBet p)) && notViewer p)
                  0 (players g)) as Hle.
    fold (filterIdx (fun p => ((0 <? chips p) || (0 <? totalBet p)) && notViewer p)
                    (players g)) in Hle. fold seats in Hle. lia. }
  rewrite Hrun. cbv beta iota delta [mbind Result_bind].
  destruct (dealToPlayers_conserves _ _ _ _ _ Hrun) as [Hperm Hlen'].
  eexists _, ps'. split; [reflexivity|]. split_and!.
  - apply Forall2_same_length_lookup_2.
    { rewrite Hlen'. by eapply Forall2_length. }
    intros i p q' Hp Hq'.
    destruct (Forall2_lookup_l _ _ _ _ _ HF Hp) as (q & Hq & Hs & Hh).
    destruct (decide (role q = VIEWER)) as [Hv|Hv].
    + assert (Hout : i ∉ seats).
      { intros (q1 & Hq1 & Hr1)%Hseat. congruence. }
      rewrite (Hrest i Hout), Hq in Hq'. injection Hq' as <-.
      split; [done|]. rewrite Hh. by rewrite bool_decide_eq_true_2.
    + assert (Hin : i ∈ seats) by (apply Hseat; eauto).
      apply list_elem_of_lookup_1 in Hin as [k Hk].
      destruct (Hdealt k i Hk) as (q1 & c1 & c2 & Hq1 & _ & _ & Hset).
      assert (q1 = q) as -> by congruence.
      rewrite Hset in Hq'. injection Hq' as <-.
      split; [by destruct q|]. simpl. by rewrite bool_decide_eq_false_2.
  - rewrite Hperm, cardsInHands_empty; [done|].
    apply Forall_forall. intros q Hq. apply list_elem_of_lookup_1 in Hq as [i Hq].
    by destruct (Forall2_lookup_r _ _ _ _ _ HF Hq) as (p & _ & _ & ?).
  - apply list_eq. intros i. rewrite !list_lookup_fmap.
    destruct (decide (i ∈ seats)) as [Hin|Hout]; [|by rewrite Hrest].
    apply list_elem_of_lookup_1 in Hin as [k Hk].
    by destruct (Hdealt k i Hk) as (q & c1 & c2 & -> & _ & _ & ->).
Qed.

Lemma seatedFor_chips ps0 ps :
  Forall2 seatedFor ps0 ps -> sumChips ps + sumTotalBets ps = sumChips ps0.
Proof.
  unfold sumChips, sumTotalBets.
  induction 1 as [|p q ps0 ps Hs _ IH]; simpl; [done|].
  destruct Hs as (_ & _ & _ & Hsum & _). lia.
Qed.

(** [startNewHand] on a game that goes on. *)
Lemma startNewHand_unfold (pick : nat -> nat) (game : PokerGame) :
  hasTournamentWinner (gameState game) = false ->
  startNewHand pick game
  = (g4 ← dealHoleCards (freshDeck pick)
            (placeBlinds (setupNewHand (freshDeck pick)
                            (setWinners [] (gameState game))));
     Ok (mkPokerGame (setPREFLOPFirstPlayer (setRound PREFLOP g4))
                     (S (handNumber game)))).
Proof. intros Hwin. unfold startNewHand. by rewrite Hwin. Qed.

Lemma setPREFLOPFirstPlayer_frame (h : GameState) :
  players (setPREFLOPFirstPlayer h) = players h /\
  round (setPREFLOPFirstPlayer h) = round h /\
  communityCards (setPREFLOPFirstPlayer h) = communityCards h /\
  winners (setPREFLOPFirstPlayer h) = winners h /\
  deck (setPREFLOPFirstPlayer h) = deck h /\
  pot (setPREFLOPFirstPlayer h) = pot h.
Proof. unfold setPREFLOPFirstPlayer. by destruct (findIndex _ _). Qed.

(** X25.  When no tournament winner exists (stacks non-negative, at most 26
    seats), startNewHand returns with the hand number increased, round
    PREFLOP, an empty board and no winners. A player is a viewer afterwards
    exactly if they were one or had no chips; every other player holds two
    cards, viewers none; each player's chips plus blind equal their previous
    stack; the pot equals the sum of the blinds posted, so stacks plus pot
    equal the previous stacks; and the hole cards together with the deck are
    the 52 cards, each once. *)
Theorem startNewHand_deals (pick : nat -> nat) (game : PokerGame) :
  hasTournamentWinner (gameState game) = false ->
  Forall (fun p => 0 <= chips p) (players (gameState game)) ->
  (length (players (gameState game)) <= 26)%nat ->
  exists game',
    startNewHand pick game = Ok game' /\
    handNumber game' = S (handNumber game) /\
    round (gameState game') = PREFLOP /\
    communityCards (gameState game') = [] /\
    winners (gameState game') = [] /\
    Forall2 dealtIn (players (gameState game)) (players (gameState game')) /\
    (cardsInHands (players (gameState game')) ++ deck (gameState game'))%list
      ≡ₚ ALL_CARDS /\
    pot (gameState game') = sumTotalBets (players (gameState game')) /\
    sumChips (players (gameState game')) + pot (gameState game')
    = sumChips (players (gameState game)).
Proof.
  intros Hwin Hchips Hlen. rewrite (startNewHand_unfold pick game Hwin).
  pose proof (freshDeck_length pick) as Hlen52.
  assert (Hdeck : freshDeck pick ≡ₚ ALL_CARDS) by apply shuffle_Permutation.
  generalize dependent (freshDeck pick). intros cards Hlen52 Hdeck.
  generalize dependent (handNumber game). intros hand0.
  generalize dependent (gameState game). clear game. intros g _ Hchips Hlen.
  destruct (setupNewHand_players cards (setWinners [] g))
    as (Hroles & Hpot & Hboard & Hwinners & _).
  change (players (setWinners [] g)) with (players g) in Hroles.
  change (winners (setWinners [] g)) with (@nil nat) in Hwinners.
  generalize dependent (setupNewHand cards (setWinners [] g)).
  intros g2 Hroles Hpot Hboard Hwinners.
  assert (Hfresh : Forall2 (fun p q => seatedFor p q /\ totalBet q = 0 /\ hand q = [])
                     (players g) (players g2)).
  { apply (Forall2_fmap_l (fun p => resetForNewHand (eliminate p))) in Hroles.
    apply Forall2_same_length_lookup_2; [by eapply Forall2_length|].
    intros i p q Hp Hq. apply seatedFor_fresh.
    - exact (Forall_lookup_1 _ _ _ _ Hchips Hp).
    - exact (Forall2_lookup_lr _ _ _ _ _ _ Hroles Hp Hq). }
  destruct (placeBlinds_seated (players g) g2 Hfresh Hpot) as [Hseated Hpot3].
  destruct (placeBlinds_frame g2) as [Hboard3 Hwinners3].
  generalize dependent (placeBlinds g2). intros g3 Hseated Hpot3 Hboard3 Hwinners3.
  destruct (dealHoleCards_dealt (players g) cards g3 Hseated)
    as (cards' & ps' & Hrun & Hdealt & Hperm & Htb).
  { rewrite <- (Forall2_length _ _ _ Hseated). lia. }
  rewrite Hrun.
  cbv beta iota delta [mbind Result_bind]. eexists. split; [reflexivity|].
  cbn [handNumber gameState].
  destruct (setPREFLOPFirstPlayer_frame
              (setRound PREFLOP
                 (setMessage HOLE_CARDS_DEALT (setDeck cards' (setPlayers ps' g3)))))
    as (-> & -> & -> & -> & -> & ->).
  cbn [players communityCards winners deck pot round setRound setMessage setDeck
         setPlayers].
  assert (Hsum : sumTotalBets ps' = sumTotalBets (players g3)).
  { unfold sumTotalBets. f_equal. exact Htb. }
  split_and!.
  - reflexivity.
  - reflexivity.
  - by transitivity (communityCards g2).
  - by transitivity (winners g2).
  - exact Hdealt.
  - by transitivity cards.
  - by transitivity (sumTotalBets (players g3)).
  - transitivity (sumChips ps' + sumTotalBets ps').
    + f_equal. by transitivity (sumTotalBets (players g3)).
    + apply seatedFor_chips. eapply Forall2_impl; [exact Hdealt|]. by intros p q [? _].
Qed.

Lemma startNewHand_deals_witness :
  exists game',
    startNewHand (fun _ => 0%nat) (mkPokerGame threeHandedAfterBlinds 3) = Ok game' /\
    handNumber game' = 4%nat.
Proof.
  destruct (startNewHand_deals (fun _ => 0%nat) (mkPokerGame threeHandedAfterBlinds 3))
    as (game' & Hrun & Hhand & _).
  - vm_compute. reflexivity.
  - repeat (apply Forall_cons; split; [vm_compute; discriminate|]). apply Forall_nil_2.
  - vm_compute. lia.
  - exists game'. split; [exact Hrun|exact Hhand].
Defined.

(** ** The cache of the simulator *)

Import MonteCarloSimulation.

Lemma cacheSet_miss cache key v :
  cacheGet cache key = None -> cacheSet cache key v = (cache ++ [(key, v)])%list.
Proof.
  unfold cacheGet. induction cache as [|[k w] cache IH]; simpl; [done|].
  destruct (String.eqb k key); [discriminate|]. intros H. by rewrite IH.
Qed.

Lemma cacheGet_snoc cache key v :
  cacheGet cache key = None -> cacheGet (cache ++ [(key, v)])%list key = Some v.
Proof.
  unfold cacheGet. induction cache as [|[k w] cache IH]; simpl.
  - by rewrite String.eqb_refl.
  - destruct (String.eqb k key); [discriminate|]. apply IH.
Qed.

Lemma cacheGet_tail cache key :
  cacheGet cache key = None -> cacheGet (tail cache) key = None.
Proof.
  unfold cacheGet. destruct cache as [|[k w] cache]; simpl; [done|].
  by destruct (String.eqb k key).
Qed.

(** X26.  A result returned by runSimulation is stored in the cache under
    the key of its input, so the same call on the cache left behind returns
    the same result without simulating, whatever the random source; the
    cache never grows beyond 100 entries (or its previous size). *)
Theorem runSimulation_memoizes (cache : Cache) (rand : nat -> nat -> nat)
    (playerCards communityCards : list Card) (numOpponents : Z)
    (result : PredictionResult.t) (cache' : Cache) :
  runSimulation cache rand playerCards communityCards numOpponents
  = Ok (result, cache') ->
  cacheGet cache' (createCacheKey playerCards communityCards numOpponents)
  = Some result /\
  (forall rand',
      runSimulation cache' rand' playerCards communityCards numOpponents
      = Ok (result, cache')) /\
  (length cache' <= Nat.max (length cache) 100)%nat.
Proof.
  rewrite runSimulation_unfold. intros Hrun.
  assert (Hagain : cacheGet cache' (createCacheKey playerCards communityCards
                                      numOpponents) = Some result ->
                   forall rand',
                     runSimulation cache' rand' playerCards communityCards numOpponents
                     = Ok (result, cache')).
  { intros Hhit rand'. rewrite runSimulation_unfold.
    destruct (negb _); [discriminate|]. destruct (_ || _); [discriminate|].
    by rewrite Hhit. }
  destruct (negb _); [discriminate|]. destruct (_ || _); [discriminate|].
  set (key := createCacheKey playerCards communityCards numOpponents) in *.
  destruct (cacheGet cache key) as [cached|] eqn:Hget.
  - injection Hrun as <- <-. split_and!; [done|by apply Hagain|lia].
  - destruct (runSimulationSync _ _ _ _ _) as [r|]; [|discriminate].
    cbv beta iota zeta delta [mbind Result_bind] in Hrun.
    rewrite (cacheSet_miss _ _ _ Hget) in Hrun.
    injection Hrun as <- <-. rewrite !length_app in *. simpl length in *.
    assert (Hhit : cacheGet
                     (if (100 <? length cache + 1)%nat
                      then tail (cache ++ [(key, r)]) else (cache ++ [(key, r)])%list)
                     key = Some r).
    { destruct (Nat.ltb_spec 100 (length cache + 1)); [|by apply cacheGet_snoc].
      destruct cache as [|kv cache]; [simpl in *; lia|]. simpl tail.
      apply cacheGet_snoc. by apply (cacheGet_tail (kv :: cache)). }
    split_and!; [done|by apply Hagain|].
    destruct (Nat.ltb_spec 100 (length cache + 1)).
    + destruct cache; simpl in *; [lia|]. rewrite length_app. simpl. lia.
    + rewrite length_app. simpl. lia.
Qed.

Lemma runSimulation_memoizes_witness :
  runSimulation [("AHEARTSASPADES-2CLUBS7DIAMONDS9HEARTS-1", cachedPrediction)]
    (fun _ _ => 1%nat) pocketAces dryFlop 1
  = Ok (cachedPrediction,
        [("AHEARTSASPADES-2CLUBS7DIAMONDS9HEARTS-1", cachedPrediction)]).
Proof.
  apply (proj1 (proj2 (runSimulation_memoizes
                         [("AHEARTSASPADES-2CLUBS7DIAMONDS9HEARTS-1", cachedPrediction)]
                         (fun _ _ => 0%nat) pocketAces dryFlop 1 cachedPrediction
                         [("AHEARTSASPADES-2CLUBS7DIAMONDS9HEARTS-1", cachedPrediction)]
                         eq_refl))).
Defined.

(** ** Every trial is counted *)

Lemma hierarchy_complete (r : HandRankEnum) : r ∈ hierarchy.
Proof. apply (bool_decide_unpack _). by destruct r. Qed.

Lemma hierarchy_NoDup : NoDup hierarchy.
Proof. apply (bool_decide_unpack _). reflexivity. Qed.

Lemma bump_keys r (t : Tally) : map fst (bump r t) = map fst t.
Proof.
  unfold bump. rewrite map_map. apply map_ext. intros [k c]. simpl.
  by destruct (bool_decide (k = r)).
Qed.

Lemma bump_absent r (t : Tally) : r ∉ map fst t -> bump r t = t.
Proof.
  induction t as [|[k c] t IH]; simpl; [done|]. intros Hr.
  rewrite not_elem_of_cons in Hr. destruct Hr as [Hk Hr].
  rewrite bool_decide_eq_false_2 by congruence. f_equal. by apply IH.
Qed.

Lemma bump_sum r (t : Tally) :
  NoDup (map fst t) -> r ∈ map fst t -> sumTally (bump r t) = S (sumTally t).
Proof.
  unfold sumTally. induction t as [|[k c] t IH]; simpl.
  - by intros _ ?%elem_of_nil.
  - intros [Hk Hnd]%NoDup_cons Hr. case_bool_decide as Hkr; simpl in *.
    + subst k. fold (bump r t). by rewrite bump_absent.
    + fold (bump r t). apply elem_of_cons in Hr as [->|Hr]; [done|].
      rewrite IH by done. lia.
Qed.

Lemma trials_counts rand playerCards communityCards availableCards numOpponents :
  forall n i c c',
    trials rand n i playerCards communityCards availableCards numOpponents c = Ok c' ->
    map fst (playerHandStrengths c) = hierarchy ->
    map fst (opponentHandStrengths c) = hierarchy ->
    map fst (playerHandStrengths c') = hierarchy /\
    map fst (opponentHandStrengths c') = hierarchy /\
    sumTally (playerHandStrengths c') = (sumTally (playerHandStrengths c) + n)%nat /\
    sumTally (opponentHandStrengths c')
    = (sumTally (opponentHandStrengths c) + n)%nat.
Proof.
  induction n as [|n IH]; intros i c c' Hrun Hp Ho.
  - simpl in Hrun. injection Hrun as <-. split_and!; (done || lia).
  - cbn [trials] in Hrun.
    destruct (runSingleSimulation _ _ _ _ _) as [r|]; [|discriminate].
    cbv beta iota delta [mbind Result_bind] in Hrun.
    destruct (IH _ _ _ Hrun) as (Hp' & Ho' & Hsp & Hso).
    + simpl. by rewrite bump_keys.
    + simpl. by rewrite bump_keys.
    + split_and!; [done|done| |].
      * rewrite Hsp. simpl. rewrite bump_sum; [lia| |].
        -- rewrite Hp. apply hierarchy_NoDup.
        -- rewrite Hp. apply hierarchy_complete.
      * rewrite Hso. simpl. rewrite bump_sum; [lia| |].
        -- rewrite Ho. apply hierarchy_NoDup.
        -- rewrite Ho. apply hierarchy_complete.
Qed.

Lemma sumStrengthCounts_perm a b :
  a ≡ₚ b -> sumStrengthCounts a = sumStrengthCounts b.
Proof.
  unfold sumStrengthCounts. induction 1; simpl; lia.
Qed.

Lemma convert_results (t : Tally) :
  sumStrengthCounts (convertToHandStrengthResults t) = sumTally t /\
  Forall (fun r => (0 < PredictionResult.count r)%nat)
         (convertToHandStrengthResults t) /\
  (NoDup (map fst t) ->
   NoDup (map PredictionResult.handRank (convertToHandStrengthResults t))).
Proof.
  unfold convertToHandStrengthResults.
  generalize (foldl (fun sum (kv : HandRankEnum * nat) => (sum + snd kv)%nat) 0%nat t).
  intros total. split_and!.
  - rewrite (sumStrengthCounts_perm _ _ (sortBy_Permutation _ _)).
    unfold sumStrengthCounts, sumTally.
    induction t as [|[k c] t IH]; simpl; [done|].
    destruct (Nat.ltb_spec 0 c); simpl; rewrite IH; lia.
  - apply Forall_forall. intros r Hr. rewrite sortBy_Permutation in Hr.
    apply list_elem_of_In, filter_In in Hr as [_ Hr]. by apply Nat.ltb_lt in Hr.
  - intros Hnd. rewrite (sortBy_Permutation _ _).
    induction t as [|[k c] t IH]; simpl; [constructor|].
    simpl in Hnd. apply NoDup_cons in Hnd as [Hk Hnd].
    destruct (0 <? c)%nat; simpl; [|by apply IH].
    apply NoDup_cons. split; [|by apply IH].
    intros Hin. apply Hk. apply list_elem_of_fmap in Hin as (r & Hkr & Hr).
    apply list_elem_of_In, filter_In in Hr as [Hr _].
    apply in_map_iff in Hr as ([k' c'] & <- & Hkc). simpl in Hkr. subst k'.
    apply list_elem_of_fmap. exists (k, c'). split; [done|by apply list_elem_of_In].
Qed.

(** X27.  For 2 hole cards and 3 to 5 community cards, all distinct, and 1
    to 22 opponents, runSimulationSync returns; its result reports 10000
    simulations, the counts of the player's hand categories add up to 10000
    and so do the opponents', every listed category has a positive count and
    no category is listed twice. *)
Theorem simulation_counts_every_trial (rand : nat -> nat -> nat)
    (playerCards communityCards : list Card) (numOpponents : Z) :
  cardsInContract playerCards communityCards ->
  1 <= numOpponents <= 22 ->
  exists result,
    runSimulationSync rand playerCards communityCards
      (unusedCards (playerCards ++ communityCards)) numOpponents = Ok result /\
    PredictionResult.totalSimulations result = SIMULATION_COUNT /\
    sumStrengthCounts (PredictionResult.handStrengths result) = SIMULATION_COUNT /\
    sumStrengthCounts (PredictionResult.opponentHandStrengths result)
    = SIMULATION_COUNT /\
    Forall (fun r => (0 < PredictionResult.count r)%nat)
           (PredictionResult.handStrengths result
            ++ PredictionResult.opponentHandStrengths result) /\
    NoDup (map PredictionResult.handRank (PredictionResult.handStrengths result)) /\
    NoDup (map PredictionResult.handRank
               (PredictionResult.opponentHandStrengths result)).
Proof.
  intros Hcards Hn.
  destruct (runSimulationSync_returns rand _ _ _ Hcards Hn) as [result Hrun].
  exists result. split; [done|].
  unfold runSimulationSync in Hrun.
  destruct (trials _ _ _ _ _ _ _ _) as [c|] eqn:Htrials; [|discriminate].
  cbv beta iota delta [mbind Result_bind] in Hrun. injection Hrun as <-.
  cbn [PredictionResult.totalSimulations PredictionResult.handStrengths
       PredictionResult.opponentHandStrengths].
  destruct (trials_counts _ _ _ _ _ _ _ _ _ Htrials eq_refl eq_refl)
    as (Hp & Ho & Hsp & Hso).
  destruct (convert_results (playerHandStrengths c)) as (Hs1 & Hpos1 & Hnd1).
  destruct (convert_results (opponentHandStrengths c)) as (Hs2 & Hpos2 & Hnd2).
  split_and!.
  - done.
  - rewrite Hs1, Hsp. reflexivity.
  - rewrite Hs2, Hso. reflexivity.
  - apply Forall_app. done.
  - apply Hnd1. rewrite Hp. apply hierarchy_NoDup.
  - apply Hnd2. rewrite Ho. apply hierarchy_NoDup.
Qed.

Lemma simulation_counts_every_trial_witness :
  exists result,
    runSimulationSync (fun _ _ => 0%nat) pocketAces dryFlop
      (unusedCards (pocketAces ++ dryFlop)) 1 = Ok result /\
    PredictionResult.totalSimulations result = SIMULATION_COUNT.
Proof.
  destruct (simulation_counts_every_trial (fun _ _ => 0%nat) pocketAces dryFlop 1)
    as (result & Hrun & Htotal & _).
  - split_and!; [reflexivity|simpl; lia|simpl; lia|].
    apply (bool_decide_unpack _). vm_compute. reflexivity.
  - lia.
  - exists result. split; [exact Hrun|exact Htotal].
Defined.

Lemma codeUnitsLe_trans a b c : codeUnitsLe a b -> codeUnitsLe b c -> codeUnitsLe a c.
Proof.
  unfold codeUnitsLe. intros Hab Hbc.
  destruct (String.compare a b) eqn:E1; [|clear Hab|done].
  - apply String.compare_eq_iff in E1. by subst.
  - destruct (String.compare b c) eqn:E2; [|clear Hbc|done].
    + apply String.compare_eq_iff in E2. subst. by rewrite E1.
    + apply OrderedTypeEx.String_as_OT.cmp_lt in E1, E2.
      pose proof (OrderedTypeEx.String_as_OT.lt_trans _ _ _ E1 E2) as H.
      apply OrderedTypeEx.String_as_OT.cmp_lt in H.
      unfold OrderedTypeEx.String_as_OT.cmp in H. by rewrite H.
Qed.

Lemma codeUnitsLe_antisym a b : codeUnitsLe a b -> codeUnitsLe b a -> a = b.
Proof.
  unfold codeUnitsLe. intros Hab Hba. rewrite String.compare_antisym in Hba.
  destruct (String.compare a b) eqn:E; simpl in *; try done.
  by apply String.compare_eq_iff.
Qed.

#[local] Instance codeUnitsLe_AntiSymm : AntiSymm (=) codeUnitsLe.
Proof. intros a b. apply codeUnitsLe_antisym. Qed.

Lemma insertBy_byCodeUnits_sorted x l :
  StronglySorted codeUnitsLe l ->
  StronglySorted codeUnitsLe (insertBy byCodeUnits x l).
Proof.
  induction 1 as [|y ys Hys IH Hy]; simpl.
  - repeat constructor.
  - unfold byCodeUnits at 1. destruct (String.compare x y) eqn:E; simpl.
    + constructor; [by constructor|].
      assert (Hxy : codeUnitsLe x y) by (unfold codeUnitsLe; by rewrite E).
      constructor; [done|]. eapply Forall_impl; [exact Hy|].
      intros z Hz. by eapply codeUnitsLe_trans.
    + constructor; [by constructor|].
      assert (Hxy : codeUnitsLe x y) by (unfold codeUnitsLe; by rewrite E).
      constructor; [done|]. eapply Forall_impl; [exact Hy|].
      intros z Hz. by eapply codeUnitsLe_trans.
    + constructor; [done|]. apply Forall_forall. intros z Hz.
      rewrite insertBy_Permutation in Hz. apply elem_of_cons in Hz as [->|Hz].
      * unfold codeUnitsLe. rewrite String.compare_antisym, E. done.
      * rewrite Forall_forall in Hy. by apply Hy.
Qed.

Lemma sortBy_byCodeUnits_perm l l' :
  l ≡ₚ l' -> sortBy byCodeUnits l = sortBy byCodeUnits l'.
Proof.
  intros Hp.
  assert (Hsorted : forall l, StronglySorted codeUnitsLe (sortBy byCodeUnits l)).
  { clear. induction l as [|x l IH]; simpl; [constructor|].
    by apply insertBy_byCodeUnits_sorted. }
  apply (StronglySorted_unique codeUnitsLe); [apply Hsorted|apply Hsorted|].
  by rewrite !sortBy_Permutation, Hp.
Qed.

(** X28.  The cache key does not depend on the order of the hole cards or of
    the community cards, so a result cached for one ordering is returned for
    every other ordering of the same cards. *)
Theorem createCacheKey_order_irrelevant
    (playerCards playerCards' communityCards communityCards' : list Card)
    (numOpponents : Z) :
  playerCards ≡ₚ playerCards' -> communityCards ≡ₚ communityCards' ->
  createCacheKey playerCards communityCards numOpponents
  = createCacheKey playerCards' communityCards' numOpponents /\
  (forall cache rand cached,
      cacheGet cache (createCacheKey playerCards communityCards numOpponents)
      = Some cached ->
      length playerCards = 2%nat -> (3 <= length communityCards <= 5)%nat ->
      runSimulation cache rand playerCards' communityCards' numOpponents
      = Ok (cached, cache)).
Proof.
  intros Hp Hc.
  assert (Hkey : createCacheKey playerCards communityCards numOpponents
                 = createCacheKey playerCards' communityCards' numOpponents).
  { unfold createCacheKey.
    rewrite (sortBy_byCodeUnits_perm (map cardToString playerCards)
               (map cardToString playerCards')) by (by rewrite Hp).
    rewrite (sortBy_byCodeUnits_perm (map cardToString communityCards)
               (map cardToString communityCards')) by (by rewrite Hc).
    done. }
  split; [done|]. intros cache rand cached Hhit H2 H35.
  rewrite runSimulation_unfold, <- Hkey, Hhit, <- Hp, <- Hc, H2.
  destruct (Nat.ltb_spec (length communityCards) 3); [lia|].
  destruct (Nat.ltb_spec 5 (length communityCards)); [lia|]. done.
Qed.

Lemma createCacheKey_order_irrelevant_witness :
  createCacheKey pocketAces dryFlop 1
  = createCacheKey [mkCard A HEARTS; mkCard A SPADES]
                   [mkCard R9 HEARTS; mkCard R2 CLUBS; mkCard R7 DIAMONDS] 1.
Proof.
  apply (createCacheKey_order_irrelevant pocketAces [mkCard A HEARTS; mkCard A SPADES]
           dryFlop [mkCard R9 HEARTS; mkCard R2 CLUBS; mkCard R7 DIAMONDS] 1).
  - apply (bool_decide_unpack _). vm_compute. reflexivity.
  - apply (bool_decide_unpack _). vm_compute. reflexivity.
Defined.
